(** * ares: galaxy-history generation and stochastic star formation

    A shallow embedding of the parts of [ares/populations/GalaxyEnsemble.py]
    that build halo histories ([tile], [noise_lognormal],
    [_gen_halo_histories]), evolve them deterministically
    ([_gen_galaxy_histories]) and form star clusters stochastically
    ([_gen_stars], [deposit_in]), of the time grid ([get_timestamps]), of
    the stored histories and the queries on them (the setter of
    [histories], [get_field], [Slice], [SFRD], [cSFRD]) and of the
    evolution of a single galaxy ([_gen_galaxy_history]).

    Conventions of the embedding:
    - a numpy float is an exact rational ([Q]); statements about values use
      [==] ([Qeq]), so rounding is idealised away; the log-normal scatter,
      which needs logarithms and exponentials, is over the reals ([R]);
    - a 1-D array is a [list Q], a 2-D array a [list (list Q)] (rows are
      trajectories, columns are redshift or time steps);
    - a dictionary with string keys is a finite map ([gmap string]);
    - Python exceptions are an explicit error outcome;
    - every call of [numpy.random] is an explicit input (the drawn value). *)

From Stdlib Require Import Reals QArith Qabs Qround Qminmax Psatz.
From stdpp Require Import base option list gmap strings.

Local Open Scope Q_scope.

(** ** Python outcomes *)

(** The exceptions the embedded code can raise. [Unallocated] is the one
    outcome no Python program produces: a reference absent from the store. *)
Inductive exn : Type :=
  | AssertionError
  | ValueError
  | IndexError
  | KeyError
  | TypeError
  | Unallocated.

Inductive result (A : Type) : Type :=
  | Ok (a : A)
  | Raise (e : exn).

Arguments Ok {A} a.
Arguments Raise {A} e.

#[global] Instance result_ret : MRet result := fun A a => Ok a.

#[global] Instance result_bind : MBind result := fun A B f m =>
  match m with
  | Ok a => f a
  | Raise e => Raise e
  end.

(** [assert b]. *)
Definition assert (b : bool) : result unit :=
  if b then Ok tt else Raise AssertionError.

(** Run a fallible action over every element, left to right. *)
Fixpoint mapM_result {A B : Type} (f : A -> result B) (l : list A)
  : result (list B) :=
  match l with
  | [] => Ok []
  | x :: l' => y ← f x; ys ← mapM_result f l'; Ok (y :: ys)
  end.

(** ** numpy primitives *)

Module Np.

(** [a < b] on floats, as a boolean. *)
Definition Qltb (a b : Q) : bool := negb (Qle_bool b a).

(** [np.sum] of a 1-D array. *)
Definition sum (l : list Q) : Q := foldr Qplus 0 l.

(** Scan used by [np.argmin]: the first index holding the least value. *)
Fixpoint argmin_from (best : Q) (ibest i : nat) (l : list Q) : nat :=
  match l with
  | [] => ibest
  | x :: l' =>
      if Qltb x best then argmin_from x i (S i) l'
      else argmin_from best ibest (S i) l'
  end.

(** [np.argmin(l)]; numpy raises [ValueError] on an empty array. *)
Definition argmin (l : list Q) : result nat :=
  match l with
  | [] => Raise ValueError
  | x :: l' => Ok (argmin_from x 0 1 l')
  end.

(** [l[i]] for a non-negative index. *)
Definition index (l : list Q) (i : nat) : result Q :=
  match l !! i with
  | Some x => Ok x
  | None => Raise IndexError
  end.

(** [l[i] += v], in place. *)
Definition add_at (l : list Q) (i : nat) (v : Q) : result (list Q) :=
  match l !! i with
  | Some x => Ok (<[i := x + v]> l)
  | None => Raise IndexError
  end.

(** [np.diff(l)]: [l[i+1] - l[i]]. *)
Fixpoint diff (l : list Q) : list Q :=
  match l with
  | x :: (y :: _) as l' => (y - x) :: diff l'
  | _ => []
  end.

(** [np.cumsum(l)], running from the left. *)
Fixpoint cumsum_from (acc : Q) (l : list Q) : list Q :=
  match l with
  | [] => []
  | x :: l' => (acc + x) :: cumsum_from (acc + x) l'
  end.

Definition cumsum (l : list Q) : list Q :=
  match l with
  | [] => []
  | x :: l' => x :: cumsum_from x l'
  end.

(** [l[0:-1]]: everything but the last element. *)
Definition but_last (l : list Q) : list Q := take (length l - 1) l.

(** Elementwise binary operation with numpy's broadcasting of a width-one
    operand; other width mismatches raise [ValueError]. *)
Definition broadcast (op : Q -> Q -> Q) (a b : list Q) : result (list Q) :=
  if (length a =? length b)%nat then Ok (zip_with op a b)
  else match a, b with
       | [x], _ => Ok (map (op x) b)
       | _, [y] => Ok (map (fun x => op x y) a)
       | _, _ => Raise ValueError
       end.

(** [l[mask]] for a boolean mask; numpy raises [IndexError] when the mask
    and the array differ in length. *)
Definition select {A : Type} (mask : list bool) (l : list A)
  : result (list A) :=
  if (length mask =? length l)%nat
  then Ok (map snd (filter (fun p : bool * A => fst p = true) (zip mask l)))
  else Raise IndexError.

(** Search of [np.interp] over consecutive sample points. *)
Fixpoint interp_scan (x x0 f0 : Q) (xp fp : list Q) : Q :=
  match xp, fp with
  | x1 :: xp', f1 :: fp' =>
      if Qltb x x1 then (f1 - f0) / (x1 - x0) * (x - x0) + f0
      else interp_scan x x1 f1 xp' fp'
  | _, _ => f0
  end.

(** [np.interp(x, xp, fp)] for increasing [xp]: linear interpolation,
    clamped to the end values outside the table. *)
Definition interp (x : Q) (xp fp : list Q) : result Q :=
  if negb (length xp =? length fp)%nat then Raise ValueError
  else match xp, fp with
       | x0 :: xp', f0 :: fp' =>
           if Qle_bool x x0 then Ok f0 else Ok (interp_scan x x0 f0 xp' fp')
       | _, _ => Raise ValueError
       end.

(** Number of elements of [a] that fall in a bin; the last bin is closed on
    the right. *)
Definition in_bin (lo hi : Q) (closed : bool) (x : Q) : bool :=
  Qle_bool lo x && (Qltb x hi || closed && Qle_bool x hi).

Fixpoint histogram_bins (a edges : list Q) : list nat :=
  match edges with
  | lo :: ((hi :: rest) as edges') =>
      let closed := match rest with [] => true | _ => false end in
      length (filter (fun x => in_bin lo hi closed x = true) a)
        :: histogram_bins a edges'
  | _ => []
  end.

(** [np.histogram(a, bins=edges)[0]]; the edges must not decrease. *)
Definition histogram (a edges : list Q) : result (list nat) :=
  if forallb (fun d => Qle_bool 0 d) (diff edges)
  then Ok (histogram_bins a edges)
  else Raise ValueError.

(** [np.trapz(y, x=x)]. *)
Fixpoint trapz (y x : list Q) : Q :=
  match y, x with
  | y0 :: ((y1 :: _) as y'), x0 :: ((x1 :: _) as x') =>
      (x1 - x0) * (y1 + y0) / 2 + trapz y' x'
  | _, _ => 0
  end.

(** [np.repeat(arr, n, axis=0)]: each row [n] times in a row; a negative
    count raises [ValueError]. *)
Definition repeat_rows {A : Type} (arr : list A) (n : Z) : result (list A) :=
  if (n <? 0)%Z then Raise ValueError
  else Ok (flat_map (replicate (Z.to_nat n)) arr).

End Np.

(** Python's [int(q)]: truncation towards zero. *)
Definition py_int (q : Q) : Z := Z.quot (Qnum q) (Zpos (Qden q)).

(** Python's [q % 1 == 0]. *)
Definition is_whole (q : Q) : bool := Qeq_bool (q - inject_Z (Qfloor q)) 0.

(** ** [deposit_in] *)

(** [deposit_in(tnow, delay)] over the time grid [_arr_t]. *)
Definition deposit_in (arr_t : list Q) (tnow delay : Q) : result nat :=
  inow ← Np.argmin (map (fun t => Qabs (tnow - t)) arr_t);
  ifut ← Np.argmin (map (fun t => Qabs ((t - tnow) - delay)) (drop inow arr_t));
  Ok (inow + ifut)%nat.

(** ** [tile]: the trajectory expander *)

Module Expander.

(** The values [tile] computes: [arr.copy()] for [thin] 0 or 1, otherwise
    [np.repeat(arr, int(thin), axis=0)], divided by [float(thin)] when
    [renorm] is set. [scale] divides one row (2-D) or one element (1-D). *)
Definition tile_rows {A : Type} (scale : Q -> A -> A)
    (arr : list A) (thin : Q) (renorm : bool) : result (list A) :=
  if Qeq_bool thin 0 || Qeq_bool thin 1 then Ok arr
  else
    _ ← assert (is_whole thin);
    new ← Np.repeat_rows arr (py_int thin);
    if renorm then Ok (map (scale thin) new) else Ok new.

(** Division of a row by [float(thin)]. *)
Definition row_div (thin : Q) (row : list Q) : list Q :=
  map (fun x => x / thin) row.

Definition tile2 := tile_rows row_div.
Definition tile1 := tile_rows (fun thin x => x / thin).

(** The store of numpy arrays: every array object lives at a location, and a
    Python variable holds the location. *)
Definition loc := nat.
Abbreviation heap := (gmap loc (list (list Q))).

(** A new array object never shares its location with a live one. *)
Definition alloc (h : heap) (a : list (list Q)) : loc * heap :=
  let l := fresh (dom h) in (l, <[l := a]> h).

(** [tile(arr, thin, renorm)] on the store: [arr] is [None] or a reference;
    [arr.copy()], [np.repeat] and [new / float(thin)] each build a new array
    object (the temporary [new] is dropped when the quotient is returned). *)
Definition tile (h : heap) (arr : option loc) (thin : Q) (renorm : bool)
  : result (option loc * heap) :=
  match arr with
  | None => Ok (None, h)
  | Some l =>
      match h !! l with
      | None => Raise Unallocated
      | Some a =>
          new ← tile2 a thin renorm;
          let '(l', h') := alloc h new in Ok (Some l', h')
      end
  end.

(** [arr[i, j] = v]: a write into the array object at [l]. *)
Definition setitem (h : heap) (l : loc) (i j : nat) (v : Q) : result heap :=
  match h !! l with
  | None => Raise Unallocated
  | Some a =>
      match a !! i with
      | None => Raise IndexError
      | Some row =>
          if (j <? length row)%nat
          then Ok (<[l := <[i := <[j := v]> row]> a]> h)
          else Raise IndexError
      end
  end.

End Expander.

(** ** [noise_lognormal]: log-normal scatter

    The log-normal scatter needs [log10], powers of 10 and [exp]; this part
    of the embedding is over the real numbers. *)

Module LogNormal.

Local Open Scope R_scope.

(** [np.log10]. *)
Definition log10 (x : R) : R := ln x / ln 10.

(** [noise_lognormal(arr, sigma)]; [lognoise] holds the draws of
    [np.random.normal(scale=sigma, size=arr.size)]. *)
Definition noise_lognormal (arr lognoise : list R) : list R :=
  zip_with Rminus
    (zip_with (fun a n => Rpower 10 (log10 a + n)) arr lognoise) arr.

(** Lines 378-381: [mar += noise; mar /= np.exp(0.5 * sigma_mar**2)]. *)
Definition scatter_mar (sigma : R) (mar lognoise : list R) : list R :=
  map (fun x => x / exp (0.5 * sigma ^ 2))
      (zip_with Rplus mar (noise_lognormal mar lognoise)).

(** One entry of the scattered array as a function of its own draw. *)
Definition scattered (sigma a n : R) : R :=
  (a + (Rpower 10 (log10 a + n) - a)) / exp (0.5 * sigma ^ 2).

(** The weight of the normal distribution of scale [sigma], up to its
    normalisation. *)
Definition normal_weight (sigma x : R) : R := exp (- (x ^ 2 / (2 * sigma ^ 2))).

(** [m] is the expected value of [f n] for [n] drawn from the normal
    distribution of mean 0 and scale [sigma]: the weighted mean of [f] over
    [-T, T] tends to [m] as [T] grows. *)
Definition normal_mean (sigma : R) (f : R -> R) (m : R) : Prop :=
  forall eps, 0 < eps ->
    exists T0, forall T, T0 <= T ->
      exists (num : Riemann_integrable (fun x => f x * normal_weight sigma x) (- T) T)
             (den : Riemann_integrable (normal_weight sigma) (- T) T),
        Rabs (RiemannInt num / RiemannInt den - m) < eps.

(** The normal weight can be integrated over every interval. *)
Definition weight_integrable (sigma a b : R)
  : Riemann_integrable (normal_weight sigma) a b.
Proof.
  assert (continuity (normal_weight sigma)) as Hc
    by (unfold normal_weight; reg).
  destruct (Rle_dec a b) as [Hab | Hab].
  - apply continuity_implies_RiemannInt; [exact Hab | intros; apply Hc].
  - apply RiemannInt_P1, continuity_implies_RiemannInt;
      [lra | intros; apply Hc].
Defined.

(** The integral of the normal weight over [a, b]. *)
Definition normal_mass (sigma a b : R) : R :=
  RiemannInt (weight_integrable sigma a b).

End LogNormal.

(** ** [_gen_halo_histories]: the history store *)

Module HistoryStore.

(** The floor that pads derived accretion rates. *)
Definition tiny_MAR : Q := 1 # (10 ^ 30).

(** The raw table returned by [load]: the keys the function reads. *)
Record Raw : Type := {
  raw_z : list Q;
  raw_nh : list (list Q);
  raw_Mh : list (list Q);
  raw_MAR : option (list (list Q));
  raw_MAR_tot : option (list (list Q));
  raw_MAR_acc : option (list (list Q))
}.

(** The options of [self.pf] the function reads. The embedding fixes
    [pop_synth_minimal] and [pop_dust_yield] off; [by_hand] says that
    [pop_histories] was supplied. *)
Record Params : Type := {
  pop_thin_hist : Q;
  pop_scatter_mar : Q;
  pop_scatter_env : Q;
  pop_mergers : Z;
  by_hand : bool
}.

(** The dictionary [histories] that is returned; [SFR] is present only in
    tables that bring their own star-formation rates. *)
Record Histories : Type := {
  Mh : list (list Q);
  MAR : list (list Q);
  nh : list (list Q);
  zthin : list Q;
  z : list Q;
  t : list Q;
  SFR : option (list (list Q))
}.

(** Lines 298-315: accretion rates from the differences of [Mh] over the
    differences of [t] (converted to years), with the floor stacked in
    front. [t_of_z] is [self.cosm.t_of_z] and [s_per_myr] the constant of
    [physics.Constants]. *)
Definition derive_MAR (t_of_z : Q -> Q) (s_per_myr : Q)
    (zall : list Q) (Mh_raw : list (list Q)) : result (list (list Q)) :=
  let dM := map (fun row => map (Qmult (-1)) (Np.diff row)) Mh_raw in
  let t := map (fun z => t_of_z z * (10 ^ 6) / s_per_myr) zall in
  let dt := map (Qmult (-1)) (Np.diff t) in
  MAR_z ← mapM_result (fun row => Np.broadcast Qdiv row dt) dM;
  let zeros := map (fun _ => [1 * tiny_MAR]) Mh_raw in
  Ok (zip_with app zeros MAR_z).

(** The choice of the accretion-rate table. *)
Definition mar_of_raw (p : Params) (t_of_z : Q -> Q) (s_per_myr : Q)
    (raw : Raw) : result (list (list Q)) :=
  match raw_MAR raw, raw_MAR_tot raw with
  | None, None =>
      _ ← assert (Np.Qltb (pop_thin_hist p) 2);
      _ ← assert (Qeq_bool (pop_scatter_mar p) (pop_scatter_env p)
                  && Qeq_bool (pop_scatter_env p) 0);
      derive_MAR t_of_z s_per_myr (raw_z raw) (raw_Mh raw)
  | Some m, _ => Ok m
  | None, Some m =>
      if negb (pop_mergers p =? 0)%Z
      then match raw_MAR_acc raw with
           | Some a => Ok a
           | None => Raise KeyError
           end
      else Ok m
  end.

(** [_gen_halo_histories] for a table [raw] that [load] returned.
    [scatter] stands for the two noise steps on the tiled accretion rates
    (lines 373-382), which leave them alone when both amplitudes are 0. *)
Definition gen_halo_histories (p : Params) (t_of_z : Q -> Q) (s_per_myr : Q)
    (scatter : list (list Q) -> list (list Q)) (raw : Raw) : result Histories :=
  let thin := pop_thin_hist p in
  _ ← assert (negb (Np.Qltb 1 thin) || negb (by_hand p));
  let zall := raw_z raw in
  _ ← assert (forallb (fun d => Np.Qltb 0 d) (Np.diff zall));
  mar_raw ← mar_of_raw p t_of_z s_per_myr raw;
  '(nh, Mh) ←
     (if Np.Qltb 0 thin
      then nh ← Expander.tile2 (raw_nh raw) thin true;
           Mh ← Expander.tile2 (raw_Mh raw) thin false;
           Ok (nh, Mh)
      else Ok (raw_nh raw, raw_Mh raw));
  mar ← Expander.tile2 mar_raw thin false;
  let mar :=
    if Np.Qltb 0 (pop_scatter_env p) || Np.Qltb 0 (pop_scatter_mar p)
    then scatter mar else mar in
  zthin ← Expander.tile1 zall thin false;
  Ok {| Mh := Mh; MAR := mar; nh := nh; zthin := zthin; z := zall;
        t := map (fun z => t_of_z z / s_per_myr) zall; SFR := None |}.

End HistoryStore.

(** ** [_gen_galaxy_histories]: the deterministic batch evolver *)

Module BatchEvolver.

Import HistoryStore.

(** [pop_quench]: absent, one reionization redshift per trajectory, or a
    function of redshift and halo mass. *)
Inductive Quench : Type :=
  | QuenchNone
  | QuenchArray (zreion : list Q)
  | QuenchFunc (f : Q -> Q -> bool).

(** The options read on the deterministic path ([pop_sample_cmf] off,
    [pop_update_dt] native). The embedding fixes dust, enrichment and
    mergers off. [duty_off] is the mask [off] of the duty-cycle block
    (absent when [pop_fduty] is [None]); its random draws are inputs. *)
Record Params : Type := {
  pop_mass_yield : Q;
  conserve_memory : bool;
  duty_off : option (list (list bool));
  pop_Mmin : option Q;
  pop_quench : Quench
}.

(** The collaborators: [self.cosm.fbar_over_fcdm], [self.guide.SFE] and
    [self.halos.VirialMass] at [pop_Tmin]. *)
Record Guide : Type := {
  fbar_over_fcdm : Q;
  SFE : Q -> Q -> Q;
  VirialMass : Q -> Q
}.

(** The entries of [results] that carry the star-formation history. *)
Record Results : Type := {
  res_z : list Q;
  res_t : list Q;
  res_Mh : list (list Q);
  res_MAR : list (list Q);
  res_nh : list (list Q);
  res_SFR : list (list Q);
  res_Ms : list (list Q)
}.

(** A boolean array as a factor: [True] is 1, [False] is 0. *)
Definition of_bool (b : bool) : Q := if b then 1 else 0.

(** [dt = np.abs(np.diff(t)) * 1e6], in years. *)
Definition timesteps (t : list Q) : list Q :=
  map (fun d => Qabs d * 10 ^ 6) (Np.diff t).

(** Lines 1256-1261: the star-formation rate before any gating. *)
Definition initial_SFR (g : Guide) (halos : Histories)
    (z : list Q) (Mh MAR : list (list Q)) : list (list Q) :=
  match SFR halos with
  | Some sfr => map (@rev Q) sfr
  | None =>
      zip_with (fun mh_row mar_row =>
        zip_with (fun sfe mar => sfe * mar * fbar_over_fcdm g)
                 (zip_with (SFE g) z mh_row) mar_row) Mh MAR
  end.

(** [SFR[off==True] = 0]. *)
Definition apply_duty (off : option (list (list bool)))
    (sfr : list (list Q)) : list (list Q) :=
  match off with
  | None => sfr
  | Some m =>
      zip_with (zip_with (fun (o : bool) x => if o then 0 else x)) m sfr
  end.

(** Lines 1324-1326 for one trajectory:
    [hstack((0, cumsum(SFR[0:-1] * dt * fml)))]. *)
Definition stellar_mass_row (dt : list Q) (fml : Q) (sfr_row : list Q)
  : result (list Q) :=
  prod ← Np.broadcast Qmult (Np.but_last sfr_row) dt;
  Ok (0 :: Np.cumsum (map (fun x => x * fml) prod)).

(** [SFR *= mask] for a boolean mask computed from redshift and halo mass. *)
Definition gate (keep : Q -> Q -> bool) (z : list Q)
    (Mh sfr : list (list Q)) : list (list Q) :=
  zip_with (fun mh_row sfr_row =>
    zip_with (fun k x => x * of_bool k) (zip_with keep z mh_row) sfr_row)
    Mh sfr.

(** [above_Mmin]. *)
Definition above_Mmin (p : Params) (g : Guide) (z Mh : Q) : bool :=
  match pop_Mmin p with
  | Some m => Qle_bool m Mh
  | None => Qle_bool (VirialMass g z) Mh
  end.

(** Lines 1344-1367: the quenching factor. With an array of reionization
    redshifts it needs one entry per trajectory and a numeric [pop_Mmin]. *)
Definition quench (p : Params) (z : list Q)
    (Mh sfr : list (list Q)) : result (list (list Q)) :=
  match pop_quench p with
  | QuenchNone => Ok sfr
  | QuenchFunc f => Ok (gate (fun z m => negb (f z m)) z Mh sfr)
  | QuenchArray zreion =>
      _ ← assert (length zreion =? length Mh)%nat;
      match pop_Mmin p with
      | None => Raise TypeError
      | Some mmin =>
          Ok (zip_with (fun zr '(mh_row, sfr_row) =>
                zip_with (fun k x => x * of_bool k)
                  (zip_with (fun z m =>
                     negb (Qle_bool z zr && Np.Qltb m mmin)) z mh_row)
                  sfr_row)
                zreion (zip Mh sfr))
      end
  end.

(** [_gen_galaxy_histories] on the halo histories, in ascending time. *)
Definition gen_galaxy_histories (p : Params) (g : Guide)
    (halos : Histories) : result Results :=
  let z := rev (z halos) in
  let t := rev (t halos) in
  let Mh := map (@rev Q) (Mh halos) in
  let nh := map (@rev Q) (nh halos) in
  let MAR := map (@rev Q) (MAR halos) in
  let dt := timesteps t in
  let fmr := pop_mass_yield p in
  let fml := 1 - fmr in
  let sfr := apply_duty (duty_off p) (initial_SFR g halos z Mh MAR) in
  if conserve_memory p then Raise TypeError
  else
    Ms ← mapM_result (stellar_mass_row dt fml) sfr;
    let sfr := gate (above_Mmin p g) z Mh sfr in
    sfr ← quench p z Mh sfr;
    Ok {| res_z := z; res_t := t; res_Mh := Mh; res_MAR := MAR;
          res_nh := nh; res_SFR := sfr; res_Ms := Ms |}.

(** The whole deterministic path: halo histories, then galaxy histories. *)
Definition run (hp : HistoryStore.Params) (t_of_z : Q -> Q) (s_per_myr : Q)
    (scatter : list (list Q) -> list (list Q)) (p : Params) (g : Guide)
    (raw : Raw) : result Results :=
  halos ← gen_halo_histories hp t_of_z s_per_myr scatter raw;
  gen_galaxy_histories p g halos.

End BatchEvolver.

(** ** [_gen_stars]: the stochastic star-formation engine *)

Module Stochastic.

(** The options of [self.pf] that [_gen_stars] reads. *)
Record Params : Type := {
  pop_fstar_cloud : Q;
  pop_delay_sne_feedback : Z;
  pop_delay_rad_feedback : Z;
  pop_sample_imf : bool;
  pop_feedback_rad : bool;
  pop_coupling_sne : Q;
  pop_coupling_rad : Q
}.

(** The stellar-population collaborator [self._stars]: its scalars and
    tables. *)
Record Stars : Type := {
  nsn_per_m : Q;
  avg_sn_delay : Q;
  stars_Ms : list Q;
  tab_LUV : list Q;
  tab_imf : list Q;
  tab_life : list Q
}.

(** What [_gen_stars] reads from [self] and does not write. [g_per_msun] and
    [s_per_yr] are the constants of [physics.Constants]; [EscapeVelocity]
    is [self.halos.EscapeVelocity]. *)
Record Engine : Type := {
  pf : Params;
  stars : Stars;
  arr_t : list Q;
  arr_z : list Q;
  arr_UV : list Q;
  arr_Mg_c : list Q;
  tab_cdf : list Q;
  tab_Mcl : list Q;
  tab_imf_me : list Q;
  tab_imf_mc : list Q;
  EscapeVelocity : Q -> Q -> Q;
  g_per_msun : Q;
  s_per_yr : Q
}.

(** The random outcomes of one pass through the loop body, in the order the
    body asks for them: [np.random.rand()], [self._stars.draw_stars(..)],
    [np.random.poisson(lam)] and [self._stars.draw_delays(N_MS)]. *)
Record Draw : Type := {
  rand : Q;
  draw_stars : list Q;
  poisson : nat;
  draw_delays : list Q
}.

(** The variables the loop updates, with the accumulator [self._arr_SN],
    which the loop writes in place. *)
Record Loop : Type := {
  Ms : Q;
  Mw : Q;
  Mw_rad : Q;
  N_SN_0 : Q;
  E_UV_0 : Q;
  imf : list Q;
  ct : nat;
  arr_SN : list Q
}.

(** The values fixed before the loop starts. *)
Record Locals : Type := {
  idnum : nat;
  tnow : Q;
  dt : Q;
  Mg : Q;
  N_SN_p : Q;
  E_UV_p : Q;
  vesc : Q
}.

(** How one pass ends: at the end of the body or a [continue] ([Next]), or
    at the [break]. *)
Inductive Control : Type :=
  | Next (s : Loop)
  | Break (s : Loop).

(** How [_gen_stars] ends: it returns, it raises, or the supplied draws run
    out while the loop still asks for one. *)
Inductive Outcome : Type :=
  | Returned (s : Loop)
  | Raised (e : exn)
  | Starved (s : Loop).

Definition of_nat (n : nat) : Q := inject_Z (Z.of_nat n).

(** [imf += hist] for a histogram of the width of [imf]. *)
Definition add_hist (imf : list Q) (hist : list nat) : result (list Q) :=
  if (length imf =? length hist)%nat
  then Ok (zip_with (fun x n => x + of_nat n) imf hist)
  else Raise ValueError.

(** Lines 760-793: the number of massive stars of the cluster and the
    histogram of its stars ([None] stands for the scalar [0.0]). *)
Definition count_massive (e : Engine) (d : Draw) (Mc : Q) (imf : list Q)
  : result (nat * option (list nat) * list Q) :=
  if pop_sample_imf (pf e) then
    let r2 := draw_stars d in
    let m2 := Np.cumsum r2 in
    i ← Np.argmin (map (fun m => Qabs (m - Mc)) m2);
    let cut := S i in
    let cut := if (length r2 <=? cut)%nat then (length r2 - 1)%nat else cut in
    hist ← Np.histogram (take (S cut) r2) (tab_imf_me e);
    imf ← add_hist imf hist;
    let massive := map (fun m => Qle_bool 8 m) (tab_imf_mc e) in
    sel ← Np.select massive hist;
    Ok (foldr Nat.add 0%nat sel, Some hist, imf)
  else
    let lam := Mc * nsn_per_m (stars e) in
    if Np.Qltb lam 0 then Raise ValueError
    else Ok (poisson d, None, imf).

(** Lines 836 and 855: the index, counted from [idnum], of the grid time
    closest to [tnow + delay]. *)
Definition nearest_future (e : Engine) (lc : Locals) (delay : Q) : result nat :=
  let tfut := drop (idnum lc) (arr_t e) in
  Np.argmin (map (fun tf => Qabs ((tf - tnow lc) - delay)) tfut).

(** Lines 859-860: [self._arr_SN[idnum+_iSNe] += 1] for each index. *)
Fixpoint deposit_each (i0 : nat) (iSNe : list nat) (sn : list Q)
  : result (list Q) :=
  match iSNe with
  | [] => Ok sn
  | i :: rest => sn' ← Np.add_at sn (i0 + i) 1; deposit_each i0 rest sn'
  end.

(** Lines 813-863: supernova feedback of a cluster with [N_MS] massive
    stars; returns the immediate count and the accumulator. *)
Definition sne_feedback (e : Engine) (lc : Locals) (d : Draw) (N_MS : nat)
    (s : Loop) : result (Q * list Q) :=
  let mode := pop_delay_sne_feedback (pf e) in
  if (mode =? 0)%Z then Ok (N_SN_0 s + of_nat N_MS, arr_SN s)
  else if (mode =? 1)%Z then
    if pop_sample_imf (pf e) then Raise TypeError
    else
      let avg_delay := avg_sn_delay (stars e) in
      if Np.Qltb avg_delay (dt lc) then Ok (N_SN_0 s + of_nat N_MS, arr_SN s)
      else
        iSNe ← nearest_future e lc avg_delay;
        sn ← Np.add_at (arr_SN s) (idnum lc + iSNe) (of_nat N_MS);
        Ok (N_SN_0 s, sn)
  else if (mode =? 2)%Z then
    let delays := draw_delays d in
    iSNe ← mapM_result (nearest_future e lc) delays;
    sn ← deposit_each (idnum lc) iSNe (arr_SN s);
    Ok (N_SN_0 s + of_nat (length (filter (fun i => i = 0%nat) iSNe)), sn)
  else Ok (N_SN_0 s, arr_SN s).

(** The IMF-weighted mean of a table over the massive stars (lines 884-897). *)
Definition massive_mean (st : Stars) (tab : list Q) : result Q :=
  let massive := map (fun m => Qle_bool 8 m) (stars_Ms st) in
  tabm ← Np.select massive tab;
  imfm ← Np.select massive (tab_imf st);
  msm ← Np.select massive (stars_Ms st);
  Ok (Np.trapz (zip_with Qmult tabm imfm) msm / Np.trapz imfm msm).

(** Lines 881-909: radiative feedback; returns [E_UV_0] and [Mw_rad]. *)
Definition rad_feedback (e : Engine) (lc : Locals) (N_MS : nat) (s : Loop)
  : result (Q * Q) :=
  let mode := pop_delay_rad_feedback (pf e) in
  if (mode =? 0)%Z then
    Lavg ← massive_mean (stars e) (tab_LUV (stars e));
    tavg ← massive_mean (stars e) (tab_life (stars e));
    let corr := Qmin (tavg / dt lc) 1 in
    let E_UV := E_UV_0 s + Lavg * of_nat N_MS * dt lc * corr * 10 ^ 6 * s_per_yr e in
    Ok (E_UV,
        Mw_rad s + 2 * (E_UV + E_UV_p lc) * pop_coupling_rad (pf e)
                   / (vesc lc) ^ 2 / g_per_msun e)
  else if (1 <=? mode)%Z then Raise TypeError
  else Ok (E_UV_0 s, Mw_rad s).

(** The wind mass of line 868. *)
Definition wind_mass (e : Engine) (lc : Locals) (n_sn_0 : Q) : Q :=
  2 * (n_sn_0 + N_SN_p lc) * 10 ^ 51 * pop_coupling_sne (pf e)
    / (vesc lc) ^ 2 / g_per_msun e.

(** One pass through the body of the [while] loop (lines 747-926). *)
Definition cluster (e : Engine) (lc : Locals) (d : Draw) (s : Loop)
  : result Control :=
  Mc ← Np.interp (rand d) (tab_cdf e) (tab_Mcl e);
  if Qle_bool (Mg lc) (Ms s + Mc + Mw s) then Ok (Break s)
  else
    '(N_MS, hist, imf1) ← count_massive e d Mc (imf s);
    let Ms' := Ms s + Mc in
    imf2 ← match hist with
            | Some h => add_hist imf1 h
            | None => Ok imf1
            end;
    if (N_MS =? 0)%nat then
      Ok (Next {| Ms := Ms'; Mw := Mw s; Mw_rad := Mw_rad s;
                  N_SN_0 := N_SN_0 s; E_UV_0 := E_UV_0 s; imf := imf2;
                  ct := S (ct s); arr_SN := arr_SN s |})
    else
      '(n_sn_0, sn) ← sne_feedback e lc d N_MS s;
      let Mw' := wind_mass e lc n_sn_0 in
      if negb (pop_feedback_rad (pf e)) then
        Ok (Next {| Ms := Ms'; Mw := Mw'; Mw_rad := Mw_rad s;
                    N_SN_0 := n_sn_0; E_UV_0 := E_UV_0 s; imf := imf2;
                    ct := S (ct s); arr_SN := sn |})
      else
        '(e_uv_0, mw_rad) ← rad_feedback e lc N_MS s;
        Ok (Next {| Ms := Ms'; Mw := Mw'; Mw_rad := mw_rad;
                    N_SN_0 := n_sn_0; E_UV_0 := e_uv_0; imf := imf2;
                    ct := S (ct s); arr_SN := sn |}).

(** The [while] loop of line 745, one draw per pass. *)
Fixpoint clusters (e : Engine) (lc : Locals) (draws : list Draw) (s : Loop)
  : Outcome :=
  if Np.Qltb (Mw s + Mw_rad s + Ms s) (Mg lc * pop_fstar_cloud (pf e)) then
    match draws with
    | [] => Starved s
    | d :: draws' =>
        match cluster e lc d s with
        | Ok (Next s') => clusters e lc draws' s'
        | Ok (Break s') => Returned s'
        | Raise x => Raised x
        end
    end
  else Returned s.

(** Lines 711-744: the values read before the loop. *)
Definition locals (e : Engine) (sn : list Q) (i : nat) (Mh : Q)
  : result Locals :=
  z ← Np.index (arr_z e) i;
  t ← Np.index (arr_t e) i;
  t1 ← Np.index (arr_t e) (S i);
  mg ← Np.index (arr_Mg_c e) i;
  nsn ← Np.index sn i;
  euv ← Np.index (arr_UV e) i;
  Ok {| idnum := i; tnow := t; dt := t1 - t; Mg := mg * 1;
        N_SN_p := nsn * 1; E_UV_p := euv * 1;
        vesc := EscapeVelocity e z Mh |}.

(** The loop variables at line 745. *)
Definition start (e : Engine) (sn : list Q) : Loop :=
  {| Ms := 0; Mw := 0; Mw_rad := 0; N_SN_0 := 0; E_UV_0 := 0;
     imf := map (fun _ => 0) (tab_imf_mc e); ct := 0%nat; arr_SN := sn |}.

(** [_gen_stars(idnum, Mh)] with the accumulator [sn] and the draws;
    a [Returned s] stands for the tuple [(Ms s, Mw s, imf s)] and the
    accumulator [arr_SN s]. *)
Definition gen_stars (e : Engine) (sn : list Q) (i : nat) (Mh : Q)
    (draws : list Draw) : Outcome :=
  match locals e sn i Mh with
  | Raise x => Raised x
  | Ok lc => clusters e lc draws (start e sn)
  end.

End Stochastic.

(** ** Predicates used in the statements *)

(** [tnow] lies within the time grid. *)
Definition within_grid (arr_t : list Q) (tnow : Q) : Prop :=
  exists lo hi, lo ∈ arr_t /\ hi ∈ arr_t /\ lo <= tnow /\ tnow <= hi.

(** The grid time at index [k] is at least as close to [target] as every
    grid time. *)
Definition nearest_slot (grid : list Q) (target : Q) (k : nat) : Prop :=
  exists tk, grid !! k = Some tk
    /\ forall tj, tj ∈ grid -> Qabs (tk - target) <= Qabs (tj - target).

(** The time grid is in ascending order, as [_gen_galaxy_history] asserts
    with [np.all(np.diff(t) >= 0)]. *)
Definition ascending (grid : list Q) : Prop :=
  forallb (fun d => Qle_bool 0 d) (Np.diff grid) = true.

(** Cosmic time in years at redshift [z], as line 306 computes it. *)
Definition years (t_of_z : Q -> Q) (s_per_myr : Q) (z : Q) : Q :=
  t_of_z z * (10 ^ 6) / s_per_myr.

(** The floor sits in the slot of the highest redshift of the grid. *)
Definition floor_at_highest_redshift (zall mar_row : list Q) : Prop :=
  exists k zk v, zall !! k = Some zk /\ (forall z, z ∈ zall -> z <= zk)
    /\ mar_row !! k = Some v /\ v == HistoryStore.tiny_MAR.

(** The floor sits in the slot of the lowest redshift of the grid. *)
Definition floor_at_lowest_redshift (zall mar_row : list Q) : Prop :=
  exists k zk v, zall !! k = Some zk /\ (forall z, z ∈ zall -> zk <= z)
    /\ mar_row !! k = Some v /\ v == HistoryStore.tiny_MAR.


(** The array [SFR] as it stands at line 1326, where the stellar mass is
    summed: after the duty-cycle mask, in ascending time. *)
Definition SFR_when_summed (p : BatchEvolver.Params) (g : BatchEvolver.Guide)
    (halos : HistoryStore.Histories) : list (list Q) :=
  BatchEvolver.apply_duty (BatchEvolver.duty_off p)
    (BatchEvolver.initial_SFR g halos
       (rev (HistoryStore.z halos))
       (map (@rev Q) (HistoryStore.Mh halos))
       (map (@rev Q) (HistoryStore.MAR halos))).




(** An array of reionization redshifts has one entry per trajectory and
    comes with a numeric [pop_Mmin]. *)
Definition quench_ok (p : BatchEvolver.Params)
    (halos : HistoryStore.Histories) : Prop :=
  match BatchEvolver.pop_quench p with
  | BatchEvolver.QuenchArray zreion =>
      length zreion = length (HistoryStore.Mh halos)
      /\ is_Some (BatchEvolver.pop_Mmin p)
  | _ => True
  end.

(** Predicates on the runs of [_gen_stars]. *)
Module StochasticSpec.

Import Stochastic.

(** The massive stars of the first [n] clusters when the Poisson draws give
    the counts. *)
Definition drawn (draws : list Draw) (n : nat) : Q :=
  Np.sum (map (fun d => of_nat (poisson d)) (take n draws)).

(** The loop variables a call ends with, unless it raised. *)
Definition final_state (o : Outcome) : option Loop :=
  match o with
  | Returned s => Some s
  | Starved s => Some s
  | Raised _ => None
  end.

(** What the loop keeps true: the wind mass and the immediate count are not
    negative, and the stellar mass formed is below the gas mass unless no
    cluster has formed yet. *)
Definition budget_inv (lc : Locals) (s : Loop) : Prop :=
  0 <= Mw s /\ 0 <= N_SN_0 s
  /\ ((ct s = 0%nat /\ Ms s = 0) \/ Ms s < Mg lc).

End StochasticSpec.

(** ** Concrete inputs *)

Module Inputs.

Import HistoryStore.

(** A table with one trajectory over two redshifts and no accretion rates:
    the halo holds 3 units of mass at redshift 0 and 1 unit at redshift 1,
    two years and one year after the start (see [linear_time]). *)
Definition two_snapshots : Raw :=
  {| raw_z := [0; 1]; raw_nh := [[1; 1]]; raw_Mh := [[3; 1]];
     raw_MAR := None; raw_MAR_tot := None; raw_MAR_acc := None |}.

(** Seconds per Myr, and a cosmic time (in seconds) of [2 - z] years. *)
Definition s_per_myr : Q := 315576 * 10 ^ 8.

Definition linear_time (z : Q) : Q := (2 - z) * 31557600.

Definition plain : Params :=
  {| pop_thin_hist := 0; pop_scatter_mar := 0; pop_scatter_env := 0;
     pop_mergers := 0; by_hand := false |}.

(** One trajectory over two snapshots, with its accretion rates. *)
Definition toy_halos : Histories :=
  {| Mh := [[3; 1]]; MAR := [[1; 2]]; nh := [[1; 1]]; zthin := [0; 1];
     z := [0; 1]; t := [2; 1]; SFR := None |}.

Definition toy_guide : BatchEvolver.Guide :=
  {| BatchEvolver.fbar_over_fcdm := 4 # 25;
     BatchEvolver.SFE := fun _ _ => 1 # 20;
     BatchEvolver.VirialMass := fun _ => 0 |}.

Definition toy_evolver : BatchEvolver.Params :=
  {| BatchEvolver.pop_mass_yield := 1 # 4;
     BatchEvolver.conserve_memory := false;
     BatchEvolver.duty_off := None;
     BatchEvolver.pop_Mmin := Some 0;
     BatchEvolver.pop_quench := BatchEvolver.QuenchNone |}.

(** The end-to-end scenario: three trajectories of halo mass 1e10, 1e11 and
    1e12 solar masses at two redshifts, no accretion rates supplied; baryon
    fraction 0.16, star-formation efficiency 0.05; no duty cycle, dust or
    quenching. *)
Definition scenario_raw (z0 z1 : Q) (nh : list (list Q)) : Raw :=
  {| raw_z := [z0; z1]; raw_nh := nh;
     raw_Mh := [[10 ^ 10; 10 ^ 10]; [10 ^ 11; 10 ^ 11]; [10 ^ 12; 10 ^ 12]];
     raw_MAR := None; raw_MAR_tot := None; raw_MAR_acc := None |}.

Definition scenario_guide (vm : Q -> Q) : BatchEvolver.Guide :=
  {| BatchEvolver.fbar_over_fcdm := 16 # 100;
     BatchEvolver.SFE := fun _ _ => 5 # 100;
     BatchEvolver.VirialMass := vm |}.

Definition scenario_evolver (r : Q) (mmin : option Q) : BatchEvolver.Params :=
  {| BatchEvolver.pop_mass_yield := r;
     BatchEvolver.conserve_memory := false;
     BatchEvolver.duty_off := None;
     BatchEvolver.pop_Mmin := mmin;
     BatchEvolver.pop_quench := BatchEvolver.QuenchNone |}.

End Inputs.

Module StochasticInputs.

Import Stochastic.

(** A small engine: four grid times ten Myr apart, 1e4 solar masses of cold
    gas at the first, a cluster mass function that is linear up to 1000
    solar masses, two IMF bins, and an escape velocity of 100 km/s. *)
Definition toy_stars : Stars :=
  {| nsn_per_m := 1 # 100; avg_sn_delay := 15;
     stars_Ms := [1; 10; 100]; tab_LUV := [1; 10; 100];
     tab_imf := [100; 10; 1]; tab_life := [100; 10; 1] |}.

Definition toy_engine (mode : Z) (sample rad : bool) (rad_mode : Z) : Engine :=
  {| pf := {| pop_fstar_cloud := 1;
              pop_delay_sne_feedback := mode;
              pop_delay_rad_feedback := rad_mode;
              pop_sample_imf := sample;
              pop_feedback_rad := rad;
              pop_coupling_sne := 1;
              pop_coupling_rad := 1 |};
     stars := toy_stars;
     arr_t := [0; 10; 20; 30];
     arr_z := [9; 8; 7; 6];
     arr_UV := [0; 0; 0; 0];
     arr_Mg_c := [10 ^ 4; 0; 0; 0];
     tab_cdf := [0; 1];
     tab_Mcl := [0; 1000];
     tab_imf_me := [1; 8; 100];
     tab_imf_mc := [3; 30];
     EscapeVelocity := fun _ _ => 10 ^ 7;
     g_per_msun := 1989 * 10 ^ 30;
     s_per_yr := 31557600 |}.

Definition toy_draw : Draw :=
  {| rand := 1 # 2; draw_stars := [10; 20; 5]; poisson := 2;
     draw_delays := [1; 12] |}.

(** The values [_gen_stars(0, 1e9)] reads from the small engine. *)
Definition toy_locals : Locals :=
  {| idnum := 0; tnow := 0; dt := 10; Mg := 10 ^ 4; N_SN_p := 0;
     E_UV_p := 0; vesc := 10 ^ 7 |}.

End StochasticInputs.

(** [np.sum(arr[:, j])]: the total of column [j]; a row too short to have
    the column counts for nothing. *)
Definition column_total (a : list (list Q)) (j : nat) : Q :=
  Np.sum (map (fun row => default 0 (row !! j)) a).





Module StochasticTotals.

Import Stochastic.

(** The mass proposed by one draw: [np.interp(r, tab_cdf, tab_Mcl)]. *)
Definition proposed (e : Engine) (d : Draw) : Q :=
  match Np.interp (rand d) (tab_cdf e) (tab_Mcl e) with
  | Ok Mc => Mc
  | Raise _ => 0
  end.

(** The total mass proposed by the first [n] draws. *)
Definition formed (e : Engine) (draws : list Draw) (n : nat) : Q :=
  Np.sum (map (proposed e) (take n draws)).

End StochasticTotals.

Module BatchSpec.

Import BatchEvolver.

(** The same options with [pop_quench] left at [None]. *)
Definition without_quench (p : Params) : Params :=
  {| pop_mass_yield := pop_mass_yield p;
     conserve_memory := conserve_memory p;
     duty_off := duty_off p;
     pop_Mmin := pop_Mmin p;
     pop_quench := QuenchNone |}.

(** One trajectory with a reionization redshift of 0.5 and a minimum mass
    of 2. *)
Definition reionized_evolver : Params :=
  {| pop_mass_yield := 1 # 4; conserve_memory := false; duty_off := None;
     pop_Mmin := Some 2; pop_quench := QuenchArray [1 # 2] |}.

(** Two arrays agree entry by entry. *)
Definition same_values (a b : list (list Q)) : Prop :=
  Forall2 (Forall2 Qeq) a b.

End BatchSpec.

(** The minimum halo mass for star formation at redshift [z]: [pop_Mmin],
    or the virial mass at [pop_Tmin]. *)
Definition Mmin_at (p : BatchEvolver.Params) (g : BatchEvolver.Guide) (z : Q)
  : Q :=
  match BatchEvolver.pop_Mmin p with
  | Some m => m
  | None => BatchEvolver.VirialMass g z
  end.


(** ** [get_timestamps] *)

Module Timestamps.

(** [np.arange(start, stop, step)] on floats holds the values
    [start + i * step] for [i] below its length. numpy takes the length,
    the least whole number not below [(stop - start) / step], in double
    precision, where the quotient of the rounded operands can fall beyond a
    whole number that the exact quotient only reaches; the length numpy
    arrives at is the input [len]. *)
Definition arange (start step : Q) (len : nat) : list Q :=
  map (fun i => start + inject_Z (Z.of_nat i) * step) (seq 0 len).

(** The collaborators: [self.cosm.t_of_z], [self.cosm.z_of_t],
    [self.halos.DynamicalTime] and the constant [s_per_yr]. *)
Record Clock : Type := {
  t_of_z : Q -> Q;
  z_of_t : Q -> Q;
  DynamicalTime : Q -> Q -> Q;
  s_per_yr : Q
}.

(** [pop_update_dt]: the string ['dynamical'], another string (such as
    ['native']), or a number of Myr. *)
Inductive UpdateDt : Type :=
  | Dynamical
  | Named
  | Step (dt : Q).

(** The [while] loop of lines 448-459; [None] when the passes allowed run
    out before the loop ends. *)
Fixpoint dynamical_steps (c : Clock) (tf : Q) (passes : nat) (t : Q)
    (steps_t steps_z : list Q) : option (list Q * list Q) :=
  match passes with
  | O => None
  | S passes' =>
      if Np.Qltb t tf then
        let z := z_of_t c (t * s_per_yr c) in
        let tdyn := DynamicalTime c z (10 ^ 10) / s_per_yr c in
        if Np.Qltb tf (t + tdyn)
        then Some (steps_t ++ [t_of_z c 0 / s_per_yr c], steps_z ++ [0])
        else dynamical_steps c tf passes' (t + tdyn)
               (steps_t ++ [t + tdyn])
               (steps_z ++ [z_of_t c ((t + tdyn) * s_per_yr c)])
      else Some (steps_t, steps_z)
  end.

(** [steps_t[-1] = tf] when [steps_t[-1] > tf]; an empty array has no last
    element. *)
Definition clip_last (steps_t : list Q) (tf : Q) : result (list Q) :=
  match last steps_t with
  | None => Raise IndexError
  | Some x =>
      if Np.Qltb tf x then Ok (<[(length steps_t - 1)%nat := tf]> steps_t)
      else Ok steps_t
  end.

(** What ends up in [steps_z]: an array of redshifts, or the 0-d array
    [np.array] makes of an iterator. *)
Inductive Redshifts : Type :=
  | Zs (l : list Q)
  | Unevaluated.

(** [np.array(map(f, a))] (line 472): [map] returns a list in Python 2 and
    an iterator in Python 3. *)
Definition mapped (python3 : bool) (f : Q -> Q) (a : list Q) : Redshifts :=
  if python3 then Unevaluated else Zs (map f a).

(** How [get_timestamps] ends: it returns [steps_t] and [steps_z], it raises
    one of the exceptions of the embedding, or [np.arange] refuses a step
    of zero ([ZeroDivisionError] for Python floats). *)
Inductive Stamps : Type :=
  | Steps (steps_t : list Q) (steps_z : Redshifts)
  | Fails (e : exn)
  | FailsOnZeroStep.

(** [get_timestamps(zform)]; [None] when the dynamical loop was not allowed
    enough passes to end. [len] is the length [np.arange] arrives at on
    line 466. *)
Definition get_timestamps (c : Clock) (python3 : bool) (len : nat)
    (update : UpdateDt) (passes : nat) (zform : Q) : option Stamps :=
  let t0 := t_of_z c zform / s_per_yr c in
  let tf := t_of_z c 0 / s_per_yr c in
  match update with
  | Dynamical =>
      match dynamical_steps c tf passes t0 [t0] [zform] with
      | Some (steps_t, steps_z) => Some (Steps steps_t (Zs steps_z))
      | None => None
      end
  | Named => Some (Fails TypeError)
  | Step dt_myr =>
      let dt := dt_myr * 10 ^ 6 in
      if Qeq_bool dt 0 then Some FailsOnZeroStep
      else
        match clip_last (arange t0 dt len) tf with
        | Raise e => Some (Fails e)
        | Ok steps_t =>
            Some (Steps steps_t
                    (mapped python3 (fun t => z_of_t c (t * s_per_yr c))
                            steps_t))
        end
  end.

(** A clock that counts the years left to redshift [z] down from 10, with
    a dynamical time of 4 years everywhere. *)
Definition unit_clock : Clock :=
  {| t_of_z := fun z => 10 - z; z_of_t := fun t => 10 - t;
     DynamicalTime := fun _ _ => 4; s_per_yr := 1 |}.

End Timestamps.

(** The entries strictly ascend. *)
Definition strictly_ascending (l : list Q) : Prop :=
  forall i a b, l !! i = Some a -> l !! S i = Some b -> a < b.


(** ** The stored histories and the queries on them *)

Module Catalog.

Import HistoryStore BatchEvolver.

(** An entry of the dictionary [self.histories]: a 1-D array, a 2-D array
    (rows are trajectories), a Python float or [None]. *)
Inductive value : Type :=
  | Arr1 (a : list Q)
  | Arr2 (a : list (list Q))
  | Num (x : Q)
  | PyNone.

Abbreviation histories := (gmap string value).

(** [h[key]]. *)
Definition getitem (h : histories) (key : string) : result value :=
  match h !! key with
  | Some v => Ok v
  | None => Raise KeyError
  end.

(** Lines 1523-1546: the dictionary [results] of the batch evolver, with
    dust, enrichment and mergers off, as the embedding of the evolver has
    them. *)
Definition results_dict (halos : Histories) (res : Results) : histories :=
  let zeros_like_Mh := Arr2 (map (fun _ => [0]) (res_Mh res)) in
  <["nh" := Arr2 (res_nh res)]> (
  <["Mh" := Arr2 (res_Mh res)]> (
  <["MAR" := Arr2 (res_MAR res)]> (
  <["t" := Arr1 (res_t res)]> (
  <["z" := Arr1 (res_z res)]> (
  <["zthin" := Arr1 (rev (zthin halos))]> (
  <["SFR" := Arr2 (res_SFR res)]> (
  <["Ms" := Arr2 (res_Ms res)]> (
  <["MZ" := Num 0]> (
  <["Md" := Num 0]> (
  <["Sd" := Num 0]> (
  <["fcov" := Num 1]> (
  <["Mg" := Num 0]> (
  <["Z" := Num 0]> (
  <["bursty" := zeros_like_Mh]> (
  <["pos" := PyNone]> (
  <["Nsn" := zeros_like_Mh]> ∅)))))))))))))))).

(** [v[-1::-1]] for a 1-D array and [v[:,-1::-1]] for a 2-D one; what is
    no array is skipped. *)
Definition flip (v : value) : value :=
  match v with
  | Arr1 a => Arr1 (rev a)
  | Arr2 a => Arr2 (map (@rev Q) a)
  | Num _ | PyNone => v
  end.

(** [np.all(np.diff(v) > 0)]; [np.diff] needs at least one dimension. *)
Definition ascends (v : value) : result bool :=
  match v with
  | Arr1 a => Ok (forallb (fun d => Np.Qltb 0 d) (Np.diff a))
  | Arr2 a =>
      Ok (forallb (fun row => forallb (fun d => Np.Qltb 0 d) (Np.diff row)) a)
  | Num _ | PyNone => Raise ValueError
  end.

(** Lines 487-490: whether the arrays are to be reversed. *)
Definition must_flip (given : histories) : result bool :=
  match given !! "z" with
  | Some z => ascends z
  | None => Ok false
  end.

(** The setter of [histories] (lines 482-502): the dictionary that ends up
    in [self._histories]. *)
Definition set_histories (given : histories) : result histories :=
  b ← must_flip given;
  Ok (if b : bool then flip <$> given else given).

(** [np.argmin(np.abs(z - v))]. *)
Definition nearest (z : Q) (v : value) : result nat :=
  match v with
  | Arr1 a => Np.argmin (map (fun zi => Qabs (z - zi)) a)
  | Arr2 a => Np.argmin (map (fun zi => Qabs (z - zi)) (concat a))
  | Num _ => Ok 0%nat
  | PyNone => Raise TypeError
  end.

(** [v[:, iz]]. *)
Definition column (v : value) (iz : nat) : result (list Q) :=
  match v with
  | Arr2 a => mapM_result (fun row => Np.index row iz) a
  | Arr1 _ => Raise IndexError
  | Num _ | PyNone => Raise TypeError
  end.

(** [get_field(z, field)]. *)
Definition get_field (h : histories) (z : Q) (field : string)
  : result (list Q) :=
  zs ← getitem h "z";
  iz ← nearest z zs;
  v ← getitem h field;
  column v iz.

(** [np.sum(sfr[ok==1] * w[ok==1])]. *)
Definition masked_total (ok : list bool) (sfr w : list Q) : result Q :=
  s ← Np.select ok sfr;
  ws ← Np.select ok w;
  prod ← Np.broadcast Qmult s ws;
  Ok (Np.sum prod).

(** [SFRD(z, Mmin)] for a single redshift [z]; [rhodot_cgs] is the constant
    of [physics.Constants]. The mask built from [Mmin] is overwritten before
    it is used, as on lines 156-162. *)
Definition SFRD (rhodot_cgs : Q) (h : histories) (z : Q) (Mmin : option Q)
  : result Q :=
  zs ← getitem h "z";
  iz ← nearest z zs;
  sfr ← (v ← getitem h "SFR"; column v iz);
  w ← (v ← getitem h "nh"; column v iz);
  ok ← match Mmin with
        | Some m =>
            _Mh ← (v ← getitem h "Mh"; column v iz);
            Ok (map (fun mh => Qle_bool m mh) _Mh)
        | None => Ok (map (fun _ => true) sfr)
        end;
  let ok := map (fun s => Np.Qltb 0 s) sfr in
  total ← masked_total ok sfr w;
  Ok (total / rhodot_cgs).

(** [cSFRD(z, Mh)] for an array [Mh] of lower mass bounds, given as
    floats. The last division is numpy's only for a total other than zero:
    for a total of zero numpy fills the array with [nan] and [inf]. *)
Definition cSFRD (rhodot_cgs : Q) (h : histories) (z : Q) (Mh : list Q)
  : result (list Q) :=
  zs ← getitem h "z";
  iz ← nearest z zs;
  _Mh ← (v ← getitem h "Mh"; column v iz);
  _sfr ← (v ← getitem h "SFR"; column v iz);
  _w ← (v ← getitem h "nh"; column v iz);
  sfrd ← mapM_result (fun _mass =>
            let ok := map (fun mh => Qle_bool _mass mh) _Mh in
            total ← masked_total ok _sfr _w;
            Ok (total / rhodot_cgs)) Mh;
  SFRD_tot ← SFRD rhodot_cgs h z None;
  Ok (map (fun x => x / SFRD_tot) sfrd).

(** Histories as a table of two trajectories over the redshifts 6 and 7
    holds them, in ascending redshift. *)
Definition toy_histories : histories :=
  <["z" := Arr1 [6; 7]]> (
  <["Mh" := Arr2 [[3; 1]; [30; 10]]]> (
  <["nh" := Arr2 [[1; 1]; [2; 2]]]> (
  <["SFR" := Arr2 [[5; 2]; [0; 4]]]> ∅))).

End Catalog.

(** The z-grid does not strictly ascend. *)
Definition not_ascending (z : list Q) : Prop :=
  forallb (fun d => Np.Qltb 0 d) (Np.diff z) = false.

(** The total of [sfr * w] over the entries that [ok] selects. *)
Fixpoint weighted (ok : list bool) (sfr w : list Q) : Q :=
  match ok, sfr, w with
  | b :: ok', s :: sfr', x :: w' =>
      (if b then s * x else 0) + weighted ok' sfr' w'
  | _, _, _ => 0
  end.

Module Slicing.

Import Catalog.

(** How [Slice] ends: it returns, or it raises; [AttributeError] is what an
    entry without [ndim] or [shape] raises. *)
Inductive attempt (A : Type) : Type :=
  | Returns (a : A)
  | Raises (e : exn)
  | RaisesAttributeError.

Arguments Returns {A} a.
Arguments Raises {A} e.
Arguments RaisesAttributeError {A}.

(** [v.shape[0]], for an array. *)
Definition shape0 (v : value) : option nat :=
  match v with
  | Arr1 a => Some (length a)
  | Arr2 a => Some (length a)
  | Num _ | PyNone => None
  end.

(** [c *= ok], with numpy's broadcasting of a mask of one entry; the array
    [c] of zeros and ones is held as booleans. *)
Definition narrow (c ok : list bool) : result (list bool) :=
  if (length c =? length ok)%nat then Ok (zip_with andb c ok)
  else match ok with
       | [b] => Ok (map (fun x => x && b) c)
       | _ => Raise ValueError
       end.

(** The loop of lines 1565-1569 over the items of [slc]. *)
Fixpoint mask (h : histories) (iz : nat) (slc : list (string * (Q * Q)))
    (c : list bool) : result (list bool) :=
  match slc with
  | [] => Ok c
  | (key, (lo, hi)) :: rest =>
      above ← (v ← getitem h key; column v iz);
      below ← (v ← getitem h key; column v iz);
      c' ← narrow c (zip_with andb (map (fun x => Qle_bool lo x) above)
                                   (map (fun x => Qle_bool x hi) below));
      mask h iz rest c'
  end.

(** One entry of [to_return] (lines 1574-1577). *)
Definition snapshot (c : list bool) (iz : nat) (v : value)
  : attempt (list Q) :=
  match v with
  | Arr1 a =>
      match Np.select c a with
      | Ok col => Returns col
      | Raise e => Raises e
      end
  | Arr2 _ =>
      match col ← column v iz; Np.select c col with
      | Ok col => Returns col
      | Raise e => Raises e
      end
  | Num _ | PyNone => RaisesAttributeError
  end.

(** The loop of lines 1573-1577 over the entries of the histories. Whether
    an entry raises does not depend on the order of the dictionary; which
    entry raises first does. *)
Fixpoint collect (c : list bool) (iz : nat) (entries : list (string * value))
  : attempt (gmap string (list Q)) :=
  match entries with
  | [] => Returns ∅
  | (key, v) :: rest =>
      match snapshot c iz v with
      | Returns col =>
          match collect c iz rest with
          | Returns out => Returns (<[key := col]> out)
          | other => other
          end
      | Raises e => Raises e
      | RaisesAttributeError => RaisesAttributeError
      end
  end.

(** [Slice(z, slc)]; [slc] holds the items [(field, (lo, hi))]. *)
Definition Slice (tab_z : list Q) (h : histories) (z : Q)
    (slc : list (string * (Q * Q))) : attempt (gmap string (list Q)) :=
  match Np.argmin (map (fun zi => Qabs (z - zi)) tab_z) with
  | Raise e => Raises e
  | Ok iz =>
      match h !! "Mh" with
      | None => Raises KeyError
      | Some v =>
          match shape0 v with
          | None => RaisesAttributeError
          | Some n =>
              match mask h iz slc (replicate n true) with
              | Raise e => Raises e
              | Ok c => collect c iz (map_to_list h)
              end
          end
      end
  end.

(** Stored histories of two trajectories at the redshifts 7 and 6, with one
    formation redshift per trajectory. *)
Definition toy_stored : histories :=
  <["z" := Arr1 [7; 6]]> (
  <["Mh" := Arr2 [[1; 3]; [10; 30]]]> (
  <["Ms" := Arr2 [[0; 1]; [0; 5]]]> ∅)).

End Slicing.

(** The entry is an array. *)
Definition is_array (v : Catalog.value) : Prop :=
  match v with
  | Catalog.Arr1 _ | Catalog.Arr2 _ => True
  | _ => False
  end.

(** ** [_gen_galaxy_history]: one galaxy, step by step *)

Module SingleGalaxy.

Import Stochastic.

(** The dictionary [halo], in ascending redshift. *)
Record Halo : Type := {
  halo_z : list Q;
  halo_t : list Q;
  halo_Mh : list Q;
  halo_MAR : list Q;
  halo_nh : list Q;
  halo_zthin : list Q;
  halo_rand : option (list (list Q))
}.

(** What the function reads besides [halo]: an engine that carries the
    options and tables of [_gen_stars], [self.cosm.fbar_over_fcdm], the
    guide's [MAR] and [SFE], [self.halos.DynamicalTime] and
    [self.halos.BindingEnergy], the constant [s_per_myr], and the options
    [pop_multiphase] and [pop_force_equilibrium] ([None] stands for
    [np.inf], which no binding energy exceeds). *)
Record World : Type := {
  engine : Engine;
  fb : Q;
  guide_MAR : Q -> Q -> Q;
  guide_SFE : Q -> Q -> Q;
  DynamicalTime : Q -> Q;
  BindingEnergy : Q -> Q -> Q;
  s_per_myr : Q;
  pop_multiphase : bool;
  pop_force_equilibrium : option Q
}.

(** The dictionary [data] that is returned. *)
Record Table : Type := {
  SFR : list Q;
  MAR : list Q;
  Mg : list Q;
  Mg_c : list Q;
  Ms : list Q;
  Mh : list Q;
  nh : list Q;
  Nsn : list Q;
  bursty : list Q;
  z : list Q;
  t : list Q;
  zthin : list Q;
  rand : option (list (list Q))
}.

(** How a call ends: it returns [data], it raises one of the exceptions of
    the embedding, it raises [NameError], or the draws supplied run out
    inside [_gen_stars]. *)
Inductive Ended : Type :=
  | Data (d : Table)
  | Error (e : exn)
  | NameError
  | OutOfDraws.

(** The engine as [_gen_stars] finds it: [self._arr_t], [self._arr_z],
    [self._arr_UV] and [self._arr_Mg_c] set by [_gen_galaxy_history]. *)
Definition with_arrays (e : Engine) (t z uv mg_c : list Q) : Engine :=
  {| pf := pf e; stars := stars e; arr_t := t; arr_z := z; arr_UV := uv;
     arr_Mg_c := mg_c; tab_cdf := tab_cdf e; tab_Mcl := tab_Mcl e;
     tab_imf_me := tab_imf_me e; tab_imf_mc := tab_imf_mc e;
     EscapeVelocity := EscapeVelocity e; g_per_msun := g_per_msun e;
     s_per_yr := s_per_yr e |}.

(** Python's [max] of a sequence. *)
Definition py_max (l : list Q) : result Q :=
  match l with
  | [] => Raise ValueError
  | x :: l' => Ok (foldl (fun m y => if Np.Qltb m y then y else m) x l')
  end.

(** [l[i] = v]. *)
Definition set_at (l : list Q) (i : nat) (v : Q) : result (list Q) :=
  match l !! i with
  | Some _ => Ok (<[i := v]> l)
  | None => Raise IndexError
  end.

(** The first index of [Mh_s] whose mass is not zero: the steps before it
    are skipped by [continue]. *)
Fixpoint first_massive (i : nat) (Mh_s : list Q) : option (nat * Q) :=
  match Mh_s with
  | [] => None
  | m :: rest => if Qeq_bool m 0 then first_massive (S i) rest else Some (i, m)
  end.

(** Where the gas of step [i] is deposited: at [i], or for a multiphase
    medium at [deposit_in(t[i], tdyn[i])]. *)
Definition gas_slot (w : World) (t z : list Q) (i : nat) : result nat :=
  if pop_multiphase w then
    ti ← Np.index t i;
    zi ← Np.index z i;
    deposit_in t ti (DynamicalTime w zi / s_per_myr w)
  else Ok i.

(** [E_h > 1e51 * pop_force_equilibrium]. *)
Definition forced (w : World) (E_h : Q) : bool :=
  match pop_force_equilibrium w with
  | Some f => Np.Qltb (10 ^ 51 * f) E_h
  | None => false
  end.

(** Python's [max(x, 0.)]. *)
Definition at_least_zero (x : Q) : Q := if Np.Qltb x 0 then 0 else x.

(** The body of the loop (lines 1032-1116) at the first step [i] that is
    neither skipped nor left by [break]; [_Mh] is the halo mass there and
    all accumulators still hold zeros. No path through the body reaches
    its end: line 1061 reads [Mg] and line 1112 reads [imf], names that
    are bound nowhere in the function or the module. The values computed
    on the way to these lines are kept only where a later index or
    [_gen_stars] reads them. *)
Definition live_step (w : World) (t z Mh_s MAR : list Q) (zform : Q) (i : nat)
    (_Mh : Q) (draws : list Draw) : Ended :=
  let zeros_like_t := map (fun _ => 0) t in
  let zeros_like_Mh := map (fun _ => 0) Mh_s in
  let finish (r : result Ended) : Ended :=
    match r with Ok o => o | Raise e => Error e end in
  finish (
    t1 ← Np.index t (S i);
    ti ← Np.index t i;
    let dt := (t1 - ti) * 10 ^ 6 in
    zi ← Np.index z i;
    arr_Mg_t ← (if Qeq_bool zi zform then set_at zeros_like_t i (fb w * _Mh)
                else Ok zeros_like_t);
    slot ← gas_slot w t z i;
    mg_t ← Np.index arr_Mg_t i;
    arr_Mg_c ← set_at zeros_like_t slot (mg_t * 1);
    if forced w (BindingEnergy w zi _Mh)
    then
      mar_i ← Np.index MAR i;
      _ ← set_at zeros_like_Mh (S i) 0;
      Ok NameError
    else
      mar_1 ← Np.index MAR (S i);
      mar_i ← Np.index MAR i;
      let Macc := fb w * (1 # 2) * (mar_1 + mar_i) * dt in
      slot ← gas_slot w t z i;
      arr_Mg_c ← Np.add_at arr_Mg_c slot Macc;
      match gen_stars (with_arrays (engine w) t z zeros_like_t arr_Mg_c)
              zeros_like_t i _Mh draws with
      | Raised e => Ok (Error e)
      | Starved _ => Ok OutOfDraws
      | Returned s =>
          _ ← set_at arr_Mg_t (S i)
                (at_least_zero (mg_t + Macc - Stochastic.Ms s - Mw s));
          _ ← (if pop_multiphase w then Np.index arr_Mg_c (S i) else Ok 0);
          _ ← set_at zeros_like_Mh i 1;
          Ok NameError
      end).

(** [_gen_galaxy_history(halo, zobs)] with the draws for [_gen_stars]. *)
Definition gen_galaxy_history (w : World) (halo : Halo) (zobs : Q)
    (draws : list Draw) : Ended :=
  let z := rev (halo_z halo) in
  let t := rev (halo_t halo) in
  let Mh_s := rev (halo_Mh halo) in
  let MAR := rev (halo_MAR halo) in
  let nh := rev (halo_nh halo) in
  let Nt := length t in
  let zeros_like_t := map (fun _ => 0) t in
  let zeros_like_Mh := map (fun _ => 0) Mh_s in
  let finish (r : result Ended) : Ended :=
    match r with Ok o => o | Raise e => Error e end in
  finish (
    _ ← assert (forallb (fun d => Qle_bool 0 d) (Np.diff t));
    massive ← Np.select (map (fun m => Np.Qltb 0 m) Mh_s) z;
    zform ← py_max massive;
    MAR_s ← mapM_result (fun k =>
               zk ← Np.index z k; mk ← Np.index Mh_s k;
               Ok (guide_MAR w zk mk)) (seq 0 Nt);
    _ ← mapM_result (fun k =>
               zk ← Np.index z k; mk ← Np.index Mh_s k;
               Ok (guide_SFE w zk mk)) (seq 0 Nt);
    let data :=
      let keep := map (fun _ => true) z in
      sfr ← Np.select keep zeros_like_Mh;
      mar ← Np.select keep MAR_s;
      mg ← Np.select keep zeros_like_t;
      mg_c ← Np.select keep zeros_like_t;
      ms ← Np.select keep zeros_like_Mh;
      mh ← Np.select keep Mh_s;
      n ← Np.select keep nh;
      nsn ← Np.select keep zeros_like_Mh;
      b ← Np.select keep zeros_like_Mh;
      zk ← Np.select keep z;
      tk ← Np.select keep t;
      Ok (Data {| SFR := sfr; MAR := mar; Mg := mg; Mg_c := mg_c; Ms := ms;
                  Mh := mh; nh := n; Nsn := nsn; bursty := b; z := zk;
                  t := tk; zthin := rev (halo_zthin halo);
                  rand := option_map (@rev (list Q)) (halo_rand halo) |}) in
    match first_massive 0 Mh_s with
    | None => data
    | Some (i, _Mh) =>
        zi ← Np.index z i;
        if Np.Qltb zi zobs then data
        else if (Z.of_nat i =? Z.of_nat Nt - 1)%Z then data
        else Ok (live_step w t z Mh_s MAR zform i _Mh draws)
    end).

(** A halo that holds mass at its two lowest redshifts: 11.5 solar masses
    of cold gas at the first of them, less than the cluster a draw of 1/2
    proposes. *)
Definition toy_halo : Halo :=
  {| halo_z := [6; 7; 8]; halo_t := [30; 20; 10]; halo_Mh := [1000; 100; 0];
     halo_MAR := [2 # 10 ^ 6; 1 # 10 ^ 6; 0]; halo_nh := [1; 1; 1];
     halo_zthin := [6; 7; 8]; halo_rand := None |}.

(** A halo that holds mass at its lowest redshift only. *)
Definition late_halo : Halo :=
  {| halo_z := [6; 7; 8]; halo_t := [30; 20; 10]; halo_Mh := [1000; 0; 0];
     halo_MAR := [2 # 10 ^ 6; 0; 0]; halo_nh := [1; 1; 1];
     halo_zthin := [6; 7; 8]; halo_rand := None |}.

(** A world with the small engine of [StochasticInputs]. *)
Definition toy_world : World :=
  {| engine := StochasticInputs.toy_engine 0 false false 0;
     fb := 1 # 10;
     guide_MAR := fun _ _ => 1;
     guide_SFE := fun _ _ => 5 # 100;
     DynamicalTime := fun _ => 5;
     BindingEnergy := fun _ _ => 10 ^ 50;
     s_per_myr := 1;
     pop_multiphase := false;
     pop_force_equilibrium := None |}.

End SingleGalaxy.

(** Every entry is zero. *)
Definition all_zero (l : list Q) : Prop := forall x, x ∈ l -> x = 0.

(** * Properties *)

(** ** Facts about the numpy primitives *)

Section NpFacts.

Example argmin_first_of_ties : Np.argmin [3; 1; 2; 1] = Ok 1%nat.
Proof. reflexivity. Qed.

Example interp_midpoint :
  exists v, Np.interp (1 # 2) [0; 1] [0; 1000] = Ok v /\ v == 500.
Proof. eexists. split; [vm_compute; reflexivity | reflexivity]. Qed.

Example interp_clamps :
  Np.interp 2 [0; 1] [0; 1000] = Ok 1000
  /\ Np.interp (-1) [0; 1] [0; 1000] = Ok 0.
Proof. split; reflexivity. Qed.

Example histogram_last_bin_closed :
  Np.histogram [1; 8; 100; 101] [1; 8; 100] = Ok [1%nat; 2%nat].
Proof. reflexivity. Qed.

Example cumsum_runs_left_to_right : Np.cumsum [1; 2; 3] = [1; 1 + 2; 1 + 2 + 3].
Proof. reflexivity. Qed.

Lemma bind_Ok {A B : Type} (a : A) (f : A -> result B) :
  (Ok a ≫= f) = f a.
Proof. reflexivity. Qed.

Lemma bind_Raise {A B : Type} (x : exn) (f : A -> result B) :
  (Raise x ≫= f) = Raise x.
Proof. reflexivity. Qed.

Lemma Qltb_lt (a b : Q) : Np.Qltb a b = true <-> a < b.
Proof.
  unfold Np.Qltb. rewrite negb_true_iff, <- not_true_iff_false, Qle_bool_iff.
  split; [apply Qnot_le_lt | apply Qlt_not_le].
Qed.

Lemma Qltb_ge (a b : Q) : Np.Qltb a b = false <-> b <= a.
Proof.
  unfold Np.Qltb. rewrite negb_false_iff. apply Qle_bool_iff.
Qed.

(** The scan returns either the incumbent, which then bounds every element
    from below, or the position of an element that does. *)
Lemma argmin_from_spec (l : list Q) :
  forall best ibest i,
    let k := Np.argmin_from best ibest i l in
    (k = ibest /\ forall y, y ∈ l -> best <= y)
    \/ (exists j x, k = (i + j)%nat /\ l !! j = Some x /\ x < best
                    /\ forall y, y ∈ l -> x <= y).
Proof.
  induction l as [|x l IH]; intros best ibest i; simpl.
  - left. split; [reflexivity|]. intros y Hy. inversion Hy.
  - destruct (Np.Qltb x best) eqn:Hx.
    + apply Qltb_lt in Hx. right.
      destruct (IH x i (S i)) as [[Hk Hmin] | (j & x' & Hk & Hj & Hlt & Hmin)].
      * exists 0%nat, x. rewrite Hk, Nat.add_0_r. repeat split; try done.
        intros y Hy. apply elem_of_cons in Hy as [-> | Hy];
          [apply Qle_refl | by apply Hmin].
      * exists (S j), x'. rewrite Hk. repeat split; [lia | done | lra |].
        intros y Hy. apply elem_of_cons in Hy as [-> | Hy]; [lra | by apply Hmin].
    + apply Qltb_ge in Hx.
      destruct (IH best ibest (S i)) as [[Hk Hmin] | (j & x' & Hk & Hj & Hlt & Hmin)].
      * left. split; [done|].
        intros y Hy. apply elem_of_cons in Hy as [-> | Hy]; [done | by apply Hmin].
      * right. exists (S j), x'. rewrite Hk. repeat split; [lia | done | done |].
        intros y Hy. apply elem_of_cons in Hy as [-> | Hy]; [lra | by apply Hmin].
Qed.

(** [np.argmin] of a non-empty array is the index of a least element. *)
Lemma argmin_spec (l : list Q) :
  l <> [] ->
  exists k x, Np.argmin l = Ok k /\ l !! k = Some x
              /\ forall y, y ∈ l -> x <= y.
Proof.
  destruct l as [|x0 l]; [done|]. intros _. simpl.
  destruct (argmin_from_spec l x0 0%nat 1%nat)
    as [[Hk Hmin] | (j & x & Hk & Hj & Hlt & Hmin)].
  - exists 0%nat, x0. rewrite Hk. repeat split; try done.
    intros y Hy. apply elem_of_cons in Hy as [-> | Hy];
      [apply Qle_refl | by apply Hmin].
  - exists (S j), x. rewrite Hk. repeat split; try done.
    intros y Hy. apply elem_of_cons in Hy as [-> | Hy]; [lra | by apply Hmin].
Qed.

Lemma argmin_lt_length (l : list Q) (k : nat) :
  Np.argmin l = Ok k -> (k < length l)%nat.
Proof.
  intros Hk. destruct l as [|x0 l]; [done|].
  destruct (argmin_spec (x0 :: l)) as (k' & x & Hk' & Hx & _); [done|].
  rewrite Hk in Hk'. injection Hk' as <-. by apply lookup_lt_Some in Hx.
Qed.

End NpFacts.

(** ** [deposit_in] *)

Section DepositIn.

Lemma map_nonempty {A B : Type} (f : A -> B) (l : list A) :
  l <> [] -> map f l <> [].
Proof. by destruct l. Qed.

(** Whatever the delay, the deposit index lies between the index nearest to
    [tnow] and the end of a non-empty grid. *)
Lemma deposit_in_range (arr_t : list Q) (tnow delay : Q) :
  arr_t <> [] ->
  exists inow k,
    Np.argmin (map (fun t => Qabs (tnow - t)) arr_t) = Ok inow
    /\ nearest_slot arr_t tnow inow
    /\ deposit_in arr_t tnow delay = Ok k
    /\ (inow <= k <= length arr_t - 1)%nat.
Proof.
  intros Hne. unfold deposit_in.
  destruct (argmin_spec (map (fun t => Qabs (tnow - t)) arr_t))
    as (inow & x & Hnow & Hx & Hmin); [by apply map_nonempty|].
  pose proof (argmin_lt_length _ _ Hnow) as Hlt. rewrite length_map in Hlt.
  rewrite Hnow, bind_Ok.
  destruct (argmin_spec
    (map (fun t => Qabs ((t - tnow) - delay)) (drop inow arr_t)))
    as (ifut & y & Hfut & _ & _).
  { apply map_nonempty. intros Hd.
    apply (f_equal length) in Hd. rewrite length_drop in Hd. simpl in Hd. lia. }
  pose proof (argmin_lt_length _ _ Hfut) as Hlt'.
  rewrite length_map, length_drop in Hlt'.
  rewrite Hfut, bind_Ok. exists inow, (inow + ifut)%nat.
  repeat split; try done; try lia.
  rewrite list_lookup_fmap in Hx.
  destruct (arr_t !! inow) as [tn|] eqn:Htn; [|done].
  injection Hx as <-. exists tn. split; [done|].
  intros tj Hj.
  assert (Qabs (tnow - tn) <= Qabs (tnow - tj)) as Hle.
  { apply Hmin. apply list_elem_of_fmap. by exists tj. }
  rewrite (Qabs_wd (tn - tnow) (- (tnow - tn))) by ring.
  rewrite (Qabs_wd (tj - tnow) (- (tnow - tj))) by ring.
  by rewrite !Qabs_opp.
Qed.

(** C10. For a current time within the time grid and a delay that is not
    negative, [deposit_in] returns an index that is at least the index of
    the grid point nearest to the current time and at most the last index
    of the grid: a delayed deposit never lands before the current step. *)
Theorem deposit_in_not_before_now (arr_t : list Q) (tnow delay : Q) :
  within_grid arr_t tnow ->
  0 <= delay ->
  exists inow k,
    Np.argmin (map (fun t => Qabs (tnow - t)) arr_t) = Ok inow
    /\ nearest_slot arr_t tnow inow
    /\ deposit_in arr_t tnow delay = Ok k
    /\ (inow <= k <= length arr_t - 1)%nat.
Proof.
  intros (lo & hi & Hlo & _) _. apply deposit_in_range.
  intros ->. inversion Hlo.
Qed.

Lemma deposit_in_not_before_now_witness :
  exists inow k,
    Np.argmin (map (fun t => Qabs (3 - t)) [0; 2; 4; 6]) = Ok inow
    /\ nearest_slot [0; 2; 4; 6] 3 inow
    /\ deposit_in [0; 2; 4; 6] 3 (5 # 2) = Ok k
    /\ (inow <= k <= length [0; 2; 4; 6] - 1)%nat.
Proof.
  apply (deposit_in_not_before_now [0; 2; 4; 6] 3 (5 # 2)).
  - exists 0, 6. repeat split; [set_solver | set_solver | lra | lra].
  - lra.
Defined.

End DepositIn.

(** ** [tile] *)

Section Tile.

Import Expander.

Lemma length_repeat {A : Type} (k : nat) (a : list A) :
  length (flat_map (replicate k) a) = (k * length a)%nat.
Proof.
  induction a as [|x a IH]; simpl; [lia|].
  rewrite length_app, length_replicate, IH. lia.
Qed.

(** Row [i] of the input fills the block of rows [i*k .. i*k+k-1]. *)
Lemma lookup_repeat {A : Type} (k : nat) (a : list A) :
  forall i j, (j < k)%nat ->
    flat_map (replicate k) a !! (i * k + j)%nat = a !! i.
Proof.
  induction a as [|x a IH]; intros i j Hj; simpl.
  - by rewrite !lookup_nil.
  - destruct i as [|i]; simpl.
    + rewrite lookup_app_l by (rewrite length_replicate; lia).
      by apply lookup_replicate_2.
    + rewrite lookup_app_r by (rewrite length_replicate; lia).
      rewrite length_replicate.
      replace (k + i * k + j - k)%nat with (i * k + j)%nat by lia.
      by apply IH.
Qed.

Lemma Qeq_bool_inject_Z (a b : Z) :
  Qeq_bool (inject_Z a) (inject_Z b) = (a =? b)%Z.
Proof.
  unfold Qeq_bool, Qeq, inject_Z; simpl.
  rewrite !Z.mul_1_r. unfold Z.eqb.
  by destruct (a ?= b)%Z.
Qed.

Lemma is_whole_inject_Z (z : Z) : is_whole (inject_Z z) = true.
Proof.
  unfold is_whole. apply Qeq_bool_iff. rewrite Qfloor_Z. ring.
Qed.

Lemma py_int_inject_Z (z : Z) : py_int (inject_Z z) = z.
Proof. unfold py_int; simpl. apply Z.quot_1_r. Qed.

(** The array [tile] computes for an integer factor of 2 or more. *)
Lemma tile_rows_repeat {A : Type} (scale : Q -> A -> A) (a : list A)
    (k : nat) (renorm : bool) :
  (2 <= k)%nat ->
  tile_rows scale a (inject_Z (Z.of_nat k)) renorm
  = Ok (if renorm
        then map (scale (inject_Z (Z.of_nat k))) (flat_map (replicate k) a)
        else flat_map (replicate k) a).
Proof.
  intros Hk. unfold tile_rows.
  change 0 with (inject_Z 0). change 1 with (inject_Z 1).
  rewrite !Qeq_bool_inject_Z.
  destruct (Z.eqb_spec (Z.of_nat k) 0); [lia|].
  destruct (Z.eqb_spec (Z.of_nat k) 1); [lia|]. cbn [orb].
  rewrite is_whole_inject_Z. unfold assert. rewrite bind_Ok.
  unfold Np.repeat_rows. rewrite py_int_inject_Z.
  destruct (Z.ltb_spec (Z.of_nat k) 0); [lia|].
  rewrite bind_Ok, Nat2Z.id. by destruct renorm.
Qed.

(** The array [tile] computes for a factor of 0 or 1: the input. *)
Lemma tile_rows_copy {A : Type} (scale : Q -> A -> A) (a : list A)
    (k : nat) (renorm : bool) :
  (k <= 1)%nat ->
  tile_rows scale a (inject_Z (Z.of_nat k)) renorm = Ok a.
Proof.
  intros Hk. unfold tile_rows.
  change 0 with (inject_Z 0). change 1 with (inject_Z 1).
  rewrite !Qeq_bool_inject_Z.
  destruct k as [|[|k]]; [done | done | lia].
Qed.

(** Whatever [tile] returns is a new array object. *)
Lemma tile_fresh (h : heap) (l : loc) (thin : Q) (renorm : bool)
    (r : option loc) (h' : heap) :
  tile h (Some l) thin renorm = Ok (r, h') ->
  exists l' new, r = Some l' /\ h !! l' = None /\ h' = <[l' := new]> h
                 /\ tile2 (default [] (h !! l)) thin renorm = Ok new.
Proof.
  unfold tile. destruct (h !! l) as [a|] eqn:Ha; [|done].
  destruct (tile2 a thin renorm) as [new|x] eqn:Hnew; [|done].
  rewrite bind_Ok. unfold alloc. intros [= <- <-].
  exists (fresh (dom h)), new. repeat split; [|done].
  apply not_elem_of_dom. apply is_fresh.
Qed.

(** A write through one reference leaves every other array object alone. *)
Lemma setitem_other (h h' : heap) (l l' : loc) (i j : nat) (v : Q) :
  l' <> l -> setitem h l' i j v = Ok h' -> h' !! l = h !! l.
Proof.
  intros Hne. unfold setitem.
  destruct (h !! l') as [a|]; [|done].
  destruct (a !! i) as [row|]; [|done].
  destruct (j <? length row)%nat; [|done].
  intros [= <-]. by rewrite lookup_insert_ne.
Qed.

End Tile.

Section TileClaim.

Import Expander.

Example tile_contiguous_not_interleaved :
  tile2 [[1; 2]; [3; 4]] 3 false
  = Ok [[1; 2]; [1; 2]; [1; 2]; [3; 4]; [3; 4]; [3; 4]].
Proof. reflexivity. Qed.

Example tile_zero_with_renorm_leaves_values :
  tile2 [[1; 2]; [3; 4]] 0 true = Ok [[1; 2]; [3; 4]].
Proof. reflexivity. Qed.

(** C6. For a 2-D array [a] of [N] rows held at reference [l], and an
    integer factor [k]: [tile] returns a new array object, at a reference
    other than [l]; for [k >= 2] it has [k*N] rows and rows [i*k] to
    [i*k+k-1] all equal row [i] of [a] (each entry divided by [k] when
    [renorm] is set); for [k] 0 or 1 it equals [a]; and in every case a
    write into the result leaves the input [a] at [l] as it was. *)
Theorem tile_contiguous_copy (h : heap) (l : loc) (a : list (list Q))
    (k : nat) (renorm : bool) :
  h !! l = Some a ->
  exists l' a',
    tile h (Some l) (inject_Z (Z.of_nat k)) renorm
      = Ok (Some l', <[l' := a']> h)
    /\ l' <> l
    /\ (<[l' := a']> h) !! l = Some a
    /\ ((2 <= k)%nat ->
          length a' = (k * length a)%nat
          /\ forall i j row, a !! i = Some row -> (j < k)%nat ->
               a' !! (i * k + j)%nat
               = Some (if renorm
                       then map (fun x => x / inject_Z (Z.of_nat k)) row
                       else row))
    /\ ((k <= 1)%nat -> a' = a)
    /\ forall i j v h'',
         setitem (<[l' := a']> h) l' i j v = Ok h'' -> h'' !! l = Some a.
Proof.
  intros Ha.
  destruct (tile h (Some l) (inject_Z (Z.of_nat k)) renorm)
    as [[r h']|x] eqn:Ht.
  - destruct (tile_fresh _ _ _ _ _ _ Ht) as (l' & new & -> & Hfree & -> & Hnew).
    rewrite Ha in Hnew. simpl in Hnew.
    assert (l' <> l) as Hne by (intros ->; congruence).
    exists l', new. repeat split; try done.
    + by rewrite lookup_insert_ne.
    + unfold tile2 in Hnew. rewrite tile_rows_repeat in Hnew by done.
      injection Hnew as <-. destruct renorm;
        rewrite ?length_map; apply length_repeat.
    + intros i j row Hrow Hj.
      unfold tile2 in Hnew. rewrite tile_rows_repeat in Hnew by done.
      injection Hnew as <-. destruct renorm.
      * by rewrite list_lookup_fmap, lookup_repeat, Hrow.
      * by rewrite lookup_repeat.
    + intros Hk. unfold tile2 in Hnew. rewrite tile_rows_copy in Hnew by done.
      by injection Hnew.
    + intros i j v h'' Hset.
      rewrite (setitem_other _ _ _ _ _ _ _ Hne Hset).
      by rewrite lookup_insert_ne.
  - exfalso. unfold tile in Ht. rewrite Ha in Ht. unfold tile2 in Ht.
    destruct (le_lt_dec 2 k).
    + rewrite tile_rows_repeat in Ht by done. by rewrite bind_Ok in Ht.
    + rewrite tile_rows_copy in Ht by lia. by rewrite bind_Ok in Ht.
Qed.

Lemma tile_contiguous_copy_witness :
  exists l' a',
    tile {[ 0%nat := [[1; 2]; [3; 4]] ]} (Some 0%nat)
         (inject_Z (Z.of_nat 2)) true
      = Ok (Some l', <[l' := a']> {[ 0%nat := [[1; 2]; [3; 4]] ]})
    /\ l' <> 0%nat
    /\ (<[l' := a']> ({[ 0%nat := [[1; 2]; [3; 4]] ]} : heap)) !! 0%nat
       = Some [[1; 2]; [3; 4]]
    /\ ((2 <= 2)%nat ->
          length a' = (2 * length [[1; 2]; [3; 4]])%nat
          /\ forall i j row, [[1; 2]; [3; 4]] !! i = Some row -> (j < 2)%nat ->
               a' !! (i * 2 + j)%nat
               = Some (if true
                       then map (fun x => x / inject_Z (Z.of_nat 2)) row
                       else row))
    /\ ((2 <= 1)%nat -> a' = [[1; 2]; [3; 4]])
    /\ forall i j v h'',
         setitem (<[l' := a']> {[ 0%nat := [[1; 2]; [3; 4]] ]}) l' i j v
           = Ok h'' ->
         h'' !! 0%nat = Some [[1; 2]; [3; 4]].
Proof.
  apply (tile_contiguous_copy {[ 0%nat := [[1; 2]; [3; 4]] ]} 0%nat
           [[1; 2]; [3; 4]] 2 true).
  reflexivity.
Defined.

End TileClaim.

(** ** Derived accretion rates *)

Section DerivedMAR.

Import HistoryStore.

Lemma length_diff (l : list Q) : length (Np.diff l) = (length l - 1)%nat.
Proof.
  induction l as [|x [|y l] IH]; [done | done |].
  change (Np.diff (x :: y :: l)) with ((y - x) :: Np.diff (y :: l)).
  simpl length in *. lia.
Qed.

Lemma lookup_diff (l : list Q) :
  forall j x y, l !! j = Some x -> l !! S j = Some y ->
    Np.diff l !! j = Some (y - x).
Proof.
  induction l as [|a [|b l] IH]; intros j x y Hx Hy; [done | |].
  - destruct j; done.
  - change (Np.diff (a :: b :: l)) with ((b - a) :: Np.diff (b :: l)).
    destruct j as [|j].
    + simpl in Hx, Hy. by injection Hx as <-; injection Hy as <-.
    + simpl. apply IH; done.
Qed.

Lemma mapM_result_total {A B : Type} (f : A -> result B) (g : A -> B)
    (l : list A) :
  (forall x, x ∈ l -> f x = Ok (g x)) -> mapM_result f l = Ok (map g l).
Proof.
  induction l as [|x l IH]; intros Hf; [done|]. simpl.
  rewrite (Hf x) by set_solver. rewrite bind_Ok.
  rewrite IH by (intros y Hy; apply Hf; set_solver). by rewrite bind_Ok.
Qed.

Lemma broadcast_same_length (op : Q -> Q -> Q) (a b : list Q) :
  length a = length b -> Np.broadcast op a b = Ok (zip_with op a b).
Proof.
  intros H. unfold Np.broadcast. by rewrite H, Nat.eqb_refl.
Qed.

(** The first entry of a grid that passes the assertion of line 292 is its
    lowest redshift. *)
Lemma ascending_head_least (zall : list Q) :
  forallb (fun d => Np.Qltb 0 d) (Np.diff zall) = true ->
  forall z0, zall !! 0%nat = Some z0 -> forall z, z ∈ zall -> z0 <= z.
Proof.
  induction zall as [|a [|b l] IH]; intros Hasc z0 H0 z Hz; [done | |].
  - injection H0 as <-. apply list_elem_of_singleton in Hz as ->. lra.
  - change (Np.diff (a :: b :: l)) with ((b - a) :: Np.diff (b :: l)) in Hasc.
    simpl in Hasc. apply andb_true_iff in Hasc as [Hab Hrest].
    apply Qltb_lt in Hab. injection H0 as <-.
    apply elem_of_cons in Hz as [-> | Hz]; [lra|].
    specialize (IH Hrest b eq_refl z Hz). lra.
Qed.

(** The rows [derive_MAR] builds when every row of [Mh] is as wide as the
    redshift grid. *)
Lemma derive_MAR_rows (t_of_z : Q -> Q) (s_per_myr : Q) (zall : list Q)
    (Mh_raw : list (list Q)) :
  (forall row, row ∈ Mh_raw -> length row = length zall) ->
  derive_MAR t_of_z s_per_myr zall Mh_raw
  = Ok (map (fun row =>
          (1 * tiny_MAR)
            :: zip_with Qdiv (map (Qmult (-1)) (Np.diff row))
                 (map (Qmult (-1))
                    (Np.diff (map (years t_of_z s_per_myr) zall))))
        Mh_raw).
Proof.
  intros Hw. unfold derive_MAR.
  rewrite (mapM_result_total _
    (fun r => zip_with Qdiv r
       (map (Qmult (-1)) (Np.diff (map (years t_of_z s_per_myr) zall))))).
  - rewrite bind_Ok. f_equal.
    induction Mh_raw as [|row rows IH]; [done|]. simpl. f_equal.
    apply IH. intros r Hr. apply Hw. set_solver.
  - intros r Hr. apply list_elem_of_fmap in Hr as (row & -> & Hrow).
    apply broadcast_same_length.
    rewrite !length_map, !length_diff, length_map. by rewrite (Hw row).
Qed.

End DerivedMAR.

Section DerivedMARClaim.

Import HistoryStore Inputs.

(** C5, as stated, fails: on [two_snapshots] the slot of the highest
    redshift holds the accretion rate 2, not the floor, and that rate is
    [diff(Mh)/diff(t)], not its negative. *)
Lemma derived_MAR_floor_not_at_highest_redshift :
  exists v, mar_of_raw plain linear_time s_per_myr two_snapshots
            = Ok [[1 * tiny_MAR; v]]
    /\ v == 2
    /\ ~ v == - ((1 - 3) / (1 - 2))
    /\ ~ floor_at_highest_redshift (raw_z two_snapshots) [1 * tiny_MAR; v].
Proof.
  eexists. split; [vm_compute; reflexivity|].
  split; [vm_compute; reflexivity|]. split; [vm_compute; discriminate|].
  intros (k & zk & v & Hk & Hmax & Hv & Heq).
  destruct k as [|[|k]]; [| |done].
  - injection Hk as <-.
    assert (1 <= 0) as H by (apply Hmax; apply list_elem_of_lookup; by exists 1%nat).
    lra.
  - injection Hv as <-. revert Heq. vm_compute. discriminate.
Qed.

(** C5, amended. For a raw table with [Mh] and neither [MAR] nor [MAR_tot]
    (thinning below 2 and no scatter, as the code asserts), whose rows are
    as wide as its non-empty redshift grid: the derived array has one row
    per trajectory, each as wide as the row of [Mh]; slot 0 holds the floor
    1e-30, and slot 0 is the lowest redshift of an ascending grid; slot
    [j+1] holds [(-(Mh[j+1]-Mh[j])) / (-(t[j+1]-t[j]))], which is
    [diff(Mh)/diff(t)] with [t] in years. *)
Theorem derived_MAR_forward_difference (p : Params) (t_of_z : Q -> Q)
    (s_per_myr : Q) (raw : Raw) :
  raw_MAR raw = None ->
  raw_MAR_tot raw = None ->
  pop_thin_hist p < 2 ->
  pop_scatter_mar p == 0 ->
  pop_scatter_env p == 0 ->
  raw_z raw <> [] ->
  (forall row, row ∈ raw_Mh raw -> length row = length (raw_z raw)) ->
  exists mar,
    mar_of_raw p t_of_z s_per_myr raw = Ok mar
    /\ length mar = length (raw_Mh raw)
    /\ forall i row, raw_Mh raw !! i = Some row ->
         exists mrow,
           mar !! i = Some mrow
           /\ length mrow = length row
           /\ mrow !! 0%nat = Some (1 * tiny_MAR)
           /\ 1 * tiny_MAR == 1 # (10 ^ 30)
           /\ (forallb (fun d => Np.Qltb 0 d) (Np.diff (raw_z raw)) = true ->
               floor_at_lowest_redshift (raw_z raw) mrow)
           /\ forall j m0 m1 z0 z1,
                row !! j = Some m0 -> row !! S j = Some m1 ->
                raw_z raw !! j = Some z0 -> raw_z raw !! S j = Some z1 ->
                let t0 := years t_of_z s_per_myr z0 in
                let t1 := years t_of_z s_per_myr z1 in
                exists v, mrow !! S j = Some v
                  /\ v = (-1 * (m1 - m0)) / (-1 * (t1 - t0))
                  /\ (~ t1 == t0 -> v == (m1 - m0) / (t1 - t0)).
Proof.
  intros HMAR Htot Hthin Hsm Hse Hz Hw.
  unfold mar_of_raw. rewrite HMAR, Htot.
  replace (Np.Qltb (pop_thin_hist p) 2) with true
    by (symmetry; by apply Qltb_lt).
  replace (Qeq_bool (pop_scatter_mar p) (pop_scatter_env p)
           && Qeq_bool (pop_scatter_env p) 0) with true.
  2:{ symmetry. apply andb_true_iff. split; apply Qeq_bool_iff; [|done].
      by rewrite Hsm, Hse. }
  unfold assert. rewrite !bind_Ok, derive_MAR_rows by done.
  eexists. split; [reflexivity|]. split; [by rewrite length_map|].
  intros i row Hrow.
  assert (length row = length (raw_z raw)) as Hlen
    by (apply Hw; by eapply list_elem_of_lookup_2).
  eexists. split; [by rewrite list_lookup_fmap, Hrow|].
  split; [|split; [reflexivity|split; [vm_compute; reflexivity|split]]].
  - simpl. rewrite length_zip_with, !length_map, !length_diff, length_map.
    destruct (raw_z raw); [done|]. simpl in *. lia.
  - intros Hasc. destruct (raw_z raw) as [|z0 zs] eqn:Hzs; [done|].
    exists 0%nat, z0, (1 * tiny_MAR).
    split; [reflexivity|]. split; [|split; [reflexivity | ring]].
    intros z Hin. by apply (ascending_head_least (z0 :: zs) Hasc z0).
  - intros j m0 m1 z0 z1 Hm0 Hm1 Hz0 Hz1.
    set (t0 := years t_of_z s_per_myr z0).
    set (t1 := years t_of_z s_per_myr z1).
    eexists. split; [|split; [reflexivity|]].
    + simpl. rewrite lookup_zip_with, !list_lookup_fmap.
      rewrite (lookup_diff row j m0 m1) by done. simpl.
      rewrite (lookup_diff _ j t0 t1); [done | |];
        by rewrite list_lookup_fmap; (rewrite Hz0 || rewrite Hz1).
    + intros Hne. field. intros H0. apply Hne. lra.
Qed.

Lemma derived_MAR_forward_difference_witness :
  exists mar,
    mar_of_raw plain linear_time s_per_myr two_snapshots = Ok mar
    /\ length mar = length (raw_Mh two_snapshots)
    /\ forall i row, raw_Mh two_snapshots !! i = Some row ->
         exists mrow,
           mar !! i = Some mrow
           /\ length mrow = length row
           /\ mrow !! 0%nat = Some (1 * tiny_MAR)
           /\ 1 * tiny_MAR == 1 # (10 ^ 30)
           /\ (forallb (fun d => Np.Qltb 0 d)
                 (Np.diff (raw_z two_snapshots)) = true ->
               floor_at_lowest_redshift (raw_z two_snapshots) mrow)
           /\ forall j m0 m1 z0 z1,
                row !! j = Some m0 -> row !! S j = Some m1 ->
                raw_z two_snapshots !! j = Some z0 ->
                raw_z two_snapshots !! S j = Some z1 ->
                let t0 := years linear_time s_per_myr z0 in
                let t1 := years linear_time s_per_myr z1 in
                exists v, mrow !! S j = Some v
                  /\ v = (-1 * (m1 - m0)) / (-1 * (t1 - t0))
                  /\ (~ t1 == t0 -> v == (m1 - m0) / (t1 - t0)).
Proof.
  apply (derived_MAR_forward_difference plain linear_time s_per_myr
           two_snapshots).
  - reflexivity.
  - reflexivity.
  - reflexivity.
  - reflexivity.
  - reflexivity.
  - discriminate.
  - intros row Hrow. apply list_elem_of_singleton in Hrow as ->. reflexivity.
Defined.

End DerivedMARClaim.

(** ** Cumulative stellar mass *)

Section StellarMass.

Import HistoryStore BatchEvolver.

Lemma sum_cons (x : Q) (l : list Q) : Np.sum (x :: l) = x + Np.sum l.
Proof. reflexivity. Qed.

Lemma sum_app (a b : list Q) : Np.sum (a ++ b) == Np.sum a + Np.sum b.
Proof.
  induction a as [|x a IH]; simpl; [ring|]. rewrite IH. ring.
Qed.





Lemma map_zip_with_mult (fml : Q) (a b : list Q) :
  map (fun x => x * fml) (zip_with Qmult a b)
  = zip_with (fun s d => s * d * fml) a b.
Proof.
  revert b. induction a as [|x a IH]; intros [|y b]; simpl; try done.
  by rewrite IH.
Qed.

(** Lines 1324-1326 on one row that has one column more than there are
    timesteps. *)
Lemma stellar_mass_row_spec (dt row : list Q) (fml : Q) :
  length row = S (length dt) ->
  stellar_mass_row dt fml row
  = Ok (0 :: Np.cumsum (zip_with (fun s d => s * d * fml) row dt)).
Proof.
  intros Hlen. unfold stellar_mass_row, Np.but_last.
  rewrite broadcast_same_length by (rewrite length_take; lia).
  rewrite bind_Ok, map_zip_with_mult. do 3 f_equal.
  rewrite Hlen. replace (S (length dt) - 1)%nat with (length dt) by lia.
  apply zip_with_take_l.
Qed.

Lemma length_timesteps (t : list Q) :
  length (timesteps t) = (length t - 1)%nat.
Proof. unfold timesteps. by rewrite length_map, length_diff. Qed.

Lemma quench_total (p : Params) (halos : Histories) (z : list Q)
    (sfr : list (list Q)) :
  quench_ok p halos ->
  exists out, quench p z (map (@rev Q) (Mh halos)) sfr = Ok out.
Proof.
  unfold quench_ok, quench. destruct (pop_quench p) as [|zreion|f].
  - by eexists.
  - intros [Hlen [m Hm]]. rewrite length_map, Hlen, Nat.eqb_refl, Hm.
    unfold assert. rewrite bind_Ok. by eexists.
  - by eexists.
Qed.

(** An entry of a gated array is the entry it was, times the gate. *)
Lemma gate_entry (keep : Q -> Q -> bool) (z : list Q) (Mh sfr : list (list Q))
    (i j : nat) (row : list Q) (s : Q) :
  gate keep z Mh sfr !! i = Some row -> row !! j = Some s ->
  exists mh_row sfr_row zj mh x,
    Mh !! i = Some mh_row /\ sfr !! i = Some sfr_row
    /\ z !! j = Some zj /\ mh_row !! j = Some mh /\ sfr_row !! j = Some x
    /\ s = x * of_bool (keep zj mh).
Proof.
  unfold gate. intros Hrow Hs.
  apply lookup_zip_with_Some in Hrow as (mh_row & sfr_row & -> & Hmh & Hsfr).
  apply lookup_zip_with_Some in Hs as (k & x & -> & Hk & Hx).
  apply lookup_zip_with_Some in Hk as (zj & mh & -> & Hz & Hm).
  by exists mh_row, sfr_row, zj, mh, x.
Qed.

(** Quenching leaves an entry as it is or sets it to zero. *)
Lemma quench_entry (p : Params) (z : list Q) (Mh sfr out : list (list Q))
    (i j : nat) (row : list Q) (s : Q) :
  quench p z Mh sfr = Ok out ->
  out !! i = Some row -> row !! j = Some s ->
  exists sfr_row x (b : bool),
    sfr !! i = Some sfr_row /\ sfr_row !! j = Some x /\ s == x * of_bool b.
Proof.
  unfold quench. destruct (pop_quench p) as [|zreion|f].
  - intros [= <-] Hrow Hs. exists row, s, true. split_and!; [done | done |].
    cbn. ring.
  - destruct (length zreion =? length Mh)%nat; [|done].
    change (assert true) with (Ok tt). rewrite bind_Ok.
    destruct (pop_Mmin p) as [mmin|]; [|done]. intros [= <-] Hrow Hs.
    apply lookup_zip_with_Some in Hrow as (zr & [mh_row sfr_row] & -> & _ & Hp).
    apply lookup_zip_with_Some in Hp as (mh' & sfr' & [= <- <-] & _ & Hsfr).
    apply lookup_zip_with_Some in Hs as (k & x & -> & _ & Hx).
    exists sfr_row, x, k. split_and!; [done | done | reflexivity].
  - intros [= <-] Hrow Hs.
    destruct (gate_entry _ _ _ _ _ _ _ _ Hrow Hs)
      as (mh_row & sfr_row & zj & mh & x & _ & Hsfr & _ & _ & Hx & ->).
    exists sfr_row, x, (negb (f zj mh)). split_and!; [done | done | reflexivity].
Qed.




(** The evolver returns, and its stellar masses are the running sums of the
    rows of [SFR_when_summed]. *)
Lemma gen_galaxy_histories_ok (p : Params) (g : Guide) (halos : Histories) :
  conserve_memory p = false ->
  t halos <> [] ->
  (forall row, row ∈ SFR_when_summed p g halos ->
     length row = length (t halos)) ->
  quench_ok p halos ->
  exists out,
    quench p (rev (z halos)) (map (@rev Q) (Mh halos))
      (gate (above_Mmin p g) (rev (z halos)) (map (@rev Q) (Mh halos))
         (SFR_when_summed p g halos)) = Ok out
    /\ gen_galaxy_histories p g halos
       = Ok {| res_z := rev (z halos); res_t := rev (t halos);
               res_Mh := map (@rev Q) (Mh halos);
               res_MAR := map (@rev Q) (MAR halos);
               res_nh := map (@rev Q) (nh halos);
               res_SFR := out;
               res_Ms :=
                 map (fun row =>
                        0 :: Np.cumsum
                               (zip_with
                                  (fun s d => s * d * (1 - pop_mass_yield p))
                                  row (timesteps (rev (t halos)))))
                     (SFR_when_summed p g halos) |}.
Proof.
  intros Hcm Ht Hw Hq.
  set (dt := timesteps (rev (t halos))).
  set (fml := 1 - pop_mass_yield p).
  assert (length (t halos) = S (length dt)) as Hdt.
  { unfold dt. rewrite length_timesteps, length_rev.
    destruct (t halos); [done | simpl; lia]. }
  destruct (quench_total p halos (rev (z halos))
              (gate (above_Mmin p g) (rev (z halos))
                 (map (@rev Q) (Mh halos)) (SFR_when_summed p g halos)) Hq)
    as [out Hout].
  exists out. split; [done|].
  unfold gen_galaxy_histories. rewrite Hcm.
  fold dt. fold fml. change (apply_duty _ _) with (SFR_when_summed p g halos).
  rewrite (mapM_result_total _
    (fun row => 0 :: Np.cumsum (zip_with (fun s d => s * d * fml) row dt))).
  - by rewrite bind_Ok, Hout, bind_Ok.
  - intros row Hrow. apply stellar_mass_row_spec.
    rewrite (Hw row Hrow). exact Hdt.
Qed.

End StellarMass.

Section StellarMassClaim.

Import HistoryStore BatchEvolver Inputs.




End StellarMassClaim.

(** ** The end-to-end scenario *)

Section EndToEnd.

Import HistoryStore BatchEvolver Inputs.

Lemma tile_rows_zero {A : Type} (scale : Q -> A -> A) (a : list A) (renorm : bool) :
  Expander.tile_rows scale a 0 renorm = Ok a.
Proof. reflexivity. Qed.

Lemma gen_halo_histories_derived (t_of_z : Q -> Q) (s_per_myr : Q)
    (scatter : list (list Q) -> list (list Q)) (raw : Raw) :
  raw_MAR raw = None ->
  raw_MAR_tot raw = None ->
  forallb (fun d => Np.Qltb 0 d) (Np.diff (raw_z raw)) = true ->
  (forall row, row ∈ raw_Mh raw -> length row = length (raw_z raw)) ->
  gen_halo_histories plain t_of_z s_per_myr scatter raw
  = Ok {| Mh := raw_Mh raw;
          MAR := map (fun row =>
                   (1 * tiny_MAR)
                     :: zip_with Qdiv (map (Qmult (-1)) (Np.diff row))
                          (map (Qmult (-1))
                             (Np.diff (map (years t_of_z s_per_myr)
                                         (raw_z raw)))))
                 (raw_Mh raw);
          nh := raw_nh raw; zthin := raw_z raw; z := raw_z raw;
          t := map (fun z => t_of_z z / s_per_myr) (raw_z raw);
          SFR := None |}.
Proof.
  intros HMAR Htot Hasc Hw.
  unfold gen_halo_histories, mar_of_raw. rewrite HMAR, Htot, Hasc.
  cbn [pop_thin_hist pop_scatter_mar pop_scatter_env by_hand plain].
  change (Np.Qltb 1 0) with false. change (Np.Qltb 0 2) with true.
  change (Np.Qltb 0 0) with false. change (Qeq_bool 0 0) with true.
  cbn [negb orb andb assert]. rewrite !bind_Ok.
  rewrite derive_MAR_rows by done. rewrite !bind_Ok.
  unfold Expander.tile2, Expander.tile1. rewrite !tile_rows_zero, !bind_Ok.
  reflexivity.
Qed.

Ltac structure :=
  cbn -[Qplus Qmult Qminus Qdiv Qopp Qabs Qpower Qinv Qle_bool Qeq_bool
        Np.Qltb tiny_MAR years].

(** C8. In the scenario of three trajectories with halo masses 1e10, 1e11
    and 1e12 solar masses at two snapshots of different redshift and time,
    baryon fraction 0.16, constant star-formation efficiency 0.05 and no
    dust, quenching or duty cycle, the deterministic path returns
    [SFR[:,0] = 0] at the first time index and
    [Ms[:,1] = SFR[:,0] * dt * (1 - mass_return)]. *)
Theorem end_to_end_scenario (z0 z1 : Q) (t_of_z : Q -> Q) (s_per_myr : Q)
    (nh : list (list Q)) (r : Q) (mmin : option Q) (vm : Q -> Q)
    (scatter : list (list Q) -> list (list Q)) :
  z0 < z1 ->
  ~ years t_of_z s_per_myr z1 == years t_of_z s_per_myr z0 ->
  exists res dt,
    run plain t_of_z s_per_myr scatter (scenario_evolver r mmin)
        (scenario_guide vm) (scenario_raw z0 z1 nh) = Ok res
    /\ timesteps (res_t res) = [dt]
    /\ length (res_SFR res) = 3%nat
    /\ length (res_Ms res) = 3%nat
    /\ forall i sfr_row, res_SFR res !! i = Some sfr_row ->
         exists s0 s1 m0 m1,
           sfr_row = [s0; s1]
           /\ res_Ms res !! i = Some [m0; m1]
           /\ s0 == 0
           /\ m1 == s0 * dt * (1 - r).
Proof.
  intros Hz Ht.
  unfold run.
  rewrite gen_halo_histories_derived; [| reflexivity | reflexivity | | ].
  2:{ cbn [raw_z scenario_raw]. 
      change (Np.diff [z0; z1]) with [z1 - z0]. cbn [forallb].
      rewrite andb_true_r. apply Qltb_lt. lra. }
  2:{ intros row Hrow. cbn [raw_Mh raw_z scenario_raw] in *.
      repeat (apply elem_of_cons in Hrow as [-> | Hrow]; [reflexivity|]).
      inversion Hrow. }
  rewrite bind_Ok.
  match goal with |- context [gen_galaxy_histories ?p ?g ?h] =>
    destruct (gen_galaxy_histories_ok p g h) as (out & Hout & ->) end.
  - reflexivity.
  - discriminate.
  - intros row Hrow. revert Hrow. structure. intros Hrow.
    repeat (apply elem_of_cons in Hrow as [-> | Hrow]; [reflexivity|]).
    inversion Hrow.
  - exact I.
  - revert Hout. structure. intros [= <-].
    eexists. eexists. split; [reflexivity|].
    split; [reflexivity|]. split; [reflexivity|]. split; [reflexivity|].
    intros i sfr_row Hrow.
    destruct i as [|[|[|i]]]; cbn [res_SFR lookup list_lookup] in Hrow;
      [| | |done]; injection Hrow as <-;
      do 4 eexists; (split; [reflexivity|]);
      (split; [reflexivity|]); split; unfold Qdiv; ring.
Qed.

Lemma end_to_end_scenario_witness :
  exists res dt,
    run plain (fun z => (10 - z) * 10 ^ 15) (315576 * 10 ^ 8) (fun m => m)
        (scenario_evolver (1 # 4) (Some (10 ^ 8)))
        (scenario_guide (fun _ => 0))
        (scenario_raw 6 7 [[1; 1]; [1; 1]; [1; 1]]) = Ok res
    /\ timesteps (res_t res) = [dt]
    /\ length (res_SFR res) = 3%nat
    /\ length (res_Ms res) = 3%nat
    /\ forall i sfr_row, res_SFR res !! i = Some sfr_row ->
         exists s0 s1 m0 m1,
           sfr_row = [s0; s1]
           /\ res_Ms res !! i = Some [m0; m1]
           /\ s0 == 0
           /\ m1 == s0 * dt * (1 - (1 # 4)).
Proof.
  apply (end_to_end_scenario 6 7 (fun z => (10 - z) * 10 ^ 15)
           (315576 * 10 ^ 8) [[1; 1]; [1; 1]; [1; 1]] (1 # 4)
           (Some (10 ^ 8)) (fun _ => 0) (fun m => m)).
  - reflexivity.
  - vm_compute. discriminate.
Defined.

End EndToEnd.

(** ** The stochastic engine *)

Section StochasticEngine.

Import Stochastic StochasticSpec StochasticInputs.

Lemma ascending_le (l : list Q) :
  ascending l ->
  forall i j ti tj, (i <= j)%nat -> l !! i = Some ti -> l !! j = Some tj ->
    ti <= tj.
Proof.
  unfold ascending.
  induction l as [|a [|b l] IH]; intros Hasc i j ti tj Hij Hi Hj; [done | |].
  - destruct i, j; try done. injection Hi as <-. injection Hj as <-. lra.
  - change (Np.diff (a :: b :: l)) with ((b - a) :: Np.diff (b :: l)) in Hasc.
    cbn [forallb] in Hasc. apply andb_true_iff in Hasc as [Hab Hrest].
    apply Qle_bool_iff in Hab.
    destruct i as [|i], j as [|j]; try lia.
    + injection Hi as <-. injection Hj as <-. lra.
    + injection Hi as <-.
      assert (b <= tj) by (eapply (IH Hrest 0%nat j); [lia | done | done]).
      lra.
    + eapply (IH Hrest i j); [lia | done | done].
Qed.

Lemma cluster_next (e : Engine) (lc : Locals) (d : Draw) (s s' : Loop) :
  cluster e lc d s = Ok (Next s') ->
  exists Mc N_MS hist imf1,
    Np.interp (rand d) (tab_cdf e) (tab_Mcl e) = Ok Mc
    /\ Qle_bool (Mg lc) (Ms s + Mc + Mw s) = false
    /\ count_massive e d Mc (imf s) = Ok (N_MS, hist, imf1)
    /\ Ms s' = Ms s + Mc
    /\ ct s' = S (ct s)
    /\ ((N_MS = 0%nat /\ Mw s' = Mw s /\ Mw_rad s' = Mw_rad s
         /\ N_SN_0 s' = N_SN_0 s /\ E_UV_0 s' = E_UV_0 s
         /\ arr_SN s' = arr_SN s)
        \/ (N_MS <> 0%nat
            /\ sne_feedback e lc d N_MS s = Ok (N_SN_0 s', arr_SN s')
            /\ Mw s' = wind_mass e lc (N_SN_0 s')
            /\ ((pop_feedback_rad (pf e) = false
                 /\ Mw_rad s' = Mw_rad s /\ E_UV_0 s' = E_UV_0 s)
                \/ (pop_feedback_rad (pf e) = true
                    /\ rad_feedback e lc N_MS s
                       = Ok (E_UV_0 s', Mw_rad s'))))).
Proof.
  unfold cluster.
  destruct (Np.interp (rand d) (tab_cdf e) (tab_Mcl e)) as [Mc|x] eqn:HMc; [|done].
  rewrite bind_Ok.
  destruct (Qle_bool (Mg lc) (Ms s + Mc + Mw s)) eqn:Hbreak; [done|].
  destruct (count_massive e d Mc (imf s)) as [[[N_MS hist] imf1]|x] eqn:Hcount;
    [|done].
  rewrite bind_Ok.
  destruct (match hist with Some h => add_hist imf1 h | None => Ok imf1 end)
    as [imf2|x]; [|done].
  rewrite bind_Ok.
  destruct (Nat.eqb_spec N_MS 0) as [-> | Hn].
  - intros [= <-]. exists Mc, 0%nat, hist, imf1. cbn.
    split_and!; try done. by left.
  - destruct (sne_feedback e lc d N_MS s) as [[n_sn_0 sn]|x] eqn:Hsn; [|done].
    rewrite bind_Ok.
    destruct (pop_feedback_rad (pf e)) eqn:Hrad; cbn [negb].
    + destruct (rad_feedback e lc N_MS s) as [[e_uv mw_rad]|x] eqn:Hr;
        [|done].
      rewrite bind_Ok. intros [= <-].
      exists Mc, N_MS, hist, imf1. cbn.
      split_and!; try done. right. split_and!; try done. by right.
    + intros [= <-]. exists Mc, N_MS, hist, imf1. cbn.
      split_and!; try done. right. split_and!; try done. by left.
Qed.

Lemma add_at_spec (l l' : list Q) (k : nat) (v : Q) :
  Np.add_at l k v = Ok l' ->
  exists x, l !! k = Some x /\ l' = <[k := x + v]> l.
Proof.
  unfold Np.add_at. destruct (l !! k) as [x|]; [|done].
  intros [= <-]. by exists x.
Qed.

Lemma sum_insert (l : list Q) :
  forall k x y, l !! k = Some x ->
    Np.sum (<[k := y]> l) == Np.sum l - x + y.
Proof.
  induction l as [|a l IH]; intros k x y Hk; [done|].
  destruct k as [|k].
  - injection Hk as ->. cbn [list_insert insert]. rewrite !sum_cons. ring.
  - cbn [list_insert insert]. rewrite !sum_cons.
    rewrite (IH k x y) by done. ring.
Qed.

(** Adding [v] to one slot adds [v] to the total over the slots. *)
Lemma add_at_sum (l l' : list Q) (k : nat) (v : Q) :
  Np.add_at l k v = Ok l' -> Np.sum l' == Np.sum l + v.
Proof.
  intros H. apply add_at_spec in H as (x & Hx & ->).
  rewrite (sum_insert l k x) by done. ring.
Qed.

Lemma add_at_length (l l' : list Q) (k : nat) (v : Q) :
  Np.add_at l k v = Ok l' -> length l' = length l.
Proof.
  intros H. apply add_at_spec in H as (x & Hx & ->). apply length_insert.
Qed.

(** The index [nearest_future] returns, counted from [idnum], is that of a
    grid time at or after [idnum] closest to [tnow + delay]. *)
Lemma nearest_future_spec (e : Engine) (lc : Locals) (delay : Q) (i : nat) :
  nearest_future e lc delay = Ok i ->
  exists tk, arr_t e !! (idnum lc + i)%nat = Some tk
    /\ forall j tj, (idnum lc <= j)%nat -> arr_t e !! j = Some tj ->
         Qabs (tk - (tnow lc + delay)) <= Qabs (tj - (tnow lc + delay)).
Proof.
  unfold nearest_future. intros Hi.
  set (f := fun tf => Qabs (tf - tnow lc - delay)) in *.
  destruct (argmin_spec (map f (drop (idnum lc) (arr_t e))))
    as (k & x & Hk & Hx & Hmin).
  { intros Hnil. by rewrite Hnil in Hi. }
  rewrite Hi in Hk. injection Hk as <-.
  rewrite list_lookup_fmap, lookup_drop in Hx.
  destruct (arr_t e !! (idnum lc + i)%nat) as [tk|] eqn:Htk; [|done].
  injection Hx as <-. exists tk. split; [done|].
  intros j tj Hj Htj.
  assert (f tk <= f tj) as Hle.
  { apply Hmin. apply list_elem_of_fmap. exists tj. split; [done|].
    apply list_elem_of_lookup. exists (j - idnum lc)%nat.
    rewrite lookup_drop. by replace (idnum lc + (j - idnum lc))%nat with j by lia. }
  unfold f in Hle.
  rewrite (Qabs_wd (tk - (tnow lc + delay)) (tk - tnow lc - delay)) by ring.
  by rewrite (Qabs_wd (tj - (tnow lc + delay)) (tj - tnow lc - delay)) by ring.
Qed.

(** On an ascending grid, for a delay that is not negative, that grid time
    is closest among all grid times. *)
Lemma nearest_future_slot (e : Engine) (lc : Locals) (delay : Q) (i : nat) :
  ascending (arr_t e) ->
  arr_t e !! idnum lc = Some (tnow lc) ->
  0 <= delay ->
  nearest_future e lc delay = Ok i ->
  nearest_slot (arr_t e) (tnow lc + delay) (idnum lc + i).
Proof.
  intros Hasc Hnow Hd Hi.
  destruct (nearest_future_spec e lc delay i Hi) as (tk & Htk & Hmin).
  exists tk. split; [done|]. intros tj Hin.
  apply list_elem_of_lookup in Hin as [j Hj].
  destruct (le_lt_dec (idnum lc) j) as [Hge | Hlt]; [by eapply Hmin|].
  assert (tj <= tnow lc) as Hle
    by (eapply (ascending_le _ Hasc j (idnum lc)); [lia|done..]).
  specialize (Hmin (idnum lc) (tnow lc) (Nat.le_refl _) Hnow).
  eapply Qle_trans; [exact Hmin|].
  rewrite (Qabs_wd (tnow lc - (tnow lc + delay)) (- delay)) by ring.
  rewrite Qabs_opp, (Qabs_pos delay) by done.
  rewrite (Qabs_neg (tj - (tnow lc + delay))) by lra. lra.
Qed.

Lemma locals_spec (e : Engine) (sn : list Q) (i : nat) (Mh : Q) (lc : Locals) :
  locals e sn i Mh = Ok lc ->
  idnum lc = i
  /\ arr_t e !! i = Some (tnow lc)
  /\ (exists t1, arr_t e !! S i = Some t1 /\ dt lc = t1 - tnow lc)
  /\ (exists mg, arr_Mg_c e !! i = Some mg /\ Mg lc = mg * 1)
  /\ (exists n, sn !! i = Some n /\ N_SN_p lc = n * 1).
Proof.
  unfold locals, Np.index.
  destruct (arr_z e !! i) as [z|]; [|done]. rewrite bind_Ok.
  destruct (arr_t e !! i) as [t|]; [|done]. rewrite bind_Ok.
  destruct (arr_t e !! S i) as [t1|]; [|done]. rewrite bind_Ok.
  destruct (arr_Mg_c e !! i) as [mg|]; [|done]. rewrite bind_Ok.
  destruct (sn !! i) as [n|]; [|done]. rewrite bind_Ok.
  destruct (arr_UV e !! i) as [uv|]; [|done]. rewrite bind_Ok.
  intros [= <-]. cbn. split_and!; try done; by eexists.
Qed.

Lemma cluster_break (e : Engine) (lc : Locals) (d : Draw) (s s' : Loop) :
  cluster e lc d s = Ok (Break s') -> s' = s.
Proof.
  unfold cluster.
  destruct (Np.interp (rand d) (tab_cdf e) (tab_Mcl e)) as [Mc|x]; [|done].
  rewrite bind_Ok.
  destruct (Qle_bool (Mg lc) (Ms s + Mc + Mw s)); [by intros [= <-]|].
  destruct (count_massive e d Mc (imf s)) as [[[N_MS hist] imf1]|x]; [|done].
  rewrite bind_Ok.
  destruct (match hist with Some h => add_hist imf1 h | None => Ok imf1 end)
    as [imf2|x]; [|done].
  rewrite bind_Ok.
  destruct (N_MS =? 0)%nat; [done|].
  destruct (sne_feedback e lc d N_MS s) as [[n_sn_0 sn]|x]; [|done].
  rewrite bind_Ok.
  destruct (negb (pop_feedback_rad (pf e))); [done|].
  by destruct (rad_feedback e lc N_MS s) as [[e_uv mw_rad]|x].
Qed.

Lemma count_massive_poisson (e : Engine) (d : Draw) (Mc : Q) (imf imf1 : list Q)
    (N_MS : nat) (hist : option (list nat)) :
  pop_sample_imf (pf e) = false ->
  count_massive e d Mc imf = Ok (N_MS, hist, imf1) ->
  N_MS = poisson d.
Proof.
  unfold count_massive. intros ->.
  destruct (Np.Qltb (Mc * nsn_per_m (stars e)) 0); [done|]. by intros [= <- _ _].
Qed.

(** Supernova feedback at the mean delay (mode 1, IMF not sampled). *)
Lemma sne_feedback_mean_delay (e : Engine) (lc : Locals) (d : Draw)
    (N_MS : nat) (s : Loop) (n : Q) (sn : list Q) :
  pop_delay_sne_feedback (pf e) = 1%Z ->
  pop_sample_imf (pf e) = false ->
  sne_feedback e lc d N_MS s = Ok (n, sn) ->
  (avg_sn_delay (stars e) < dt lc /\ n = N_SN_0 s + of_nat N_MS
   /\ sn = arr_SN s)
  \/ (dt lc <= avg_sn_delay (stars e) /\ n = N_SN_0 s
      /\ exists i, nearest_future e lc (avg_sn_delay (stars e)) = Ok i
           /\ Np.add_at (arr_SN s) (idnum lc + i) (of_nat N_MS) = Ok sn).
Proof.
  unfold sne_feedback. intros -> ->. cbn [Z.eqb Pos.eqb].
  destruct (Np.Qltb (avg_sn_delay (stars e)) (dt lc)) eqn:Hlong.
  - apply Qltb_lt in Hlong. intros [= <- <-]. by left.
  - apply Qltb_ge in Hlong.
    destruct (nearest_future e lc (avg_sn_delay (stars e))) as [i|x]; [|done].
    rewrite bind_Ok.
    destruct (Np.add_at (arr_SN s) (idnum lc + i) (of_nat N_MS))
      as [sn'|x] eqn:Hadd; [|done].
    rewrite bind_Ok. intros [= <- <-]. right. split_and!; try done.
    by exists i.
Qed.

Lemma nearest_future_total (e : Engine) (lc : Locals) (delay t : Q) :
  arr_t e !! idnum lc = Some t ->
  exists i, nearest_future e lc delay = Ok i.
Proof.
  intros Ht. unfold nearest_future.
  destruct (argmin_spec
    (map (fun tf => Qabs (tf - tnow lc - delay)) (drop (idnum lc) (arr_t e))))
    as (k & x & Hk & _).
  - apply map_nonempty. intros Hnil.
    apply (f_equal (fun l => l !! 0%nat)) in Hnil.
    rewrite lookup_drop, Nat.add_0_r, Ht in Hnil. done.
  - by exists k.
Qed.

Lemma of_nat_0 : of_nat 0 == 0.
Proof. reflexivity. Qed.

(** In mode 1 every cluster adds its massive stars to the immediate count
    and the accumulator taken together. *)
Lemma mean_delay_step_total (e : Engine) (lc : Locals) (d : Draw)
    (s s' : Loop) :
  pop_delay_sne_feedback (pf e) = 1%Z ->
  pop_sample_imf (pf e) = false ->
  cluster e lc d s = Ok (Next s') ->
  ct s' = S (ct s)
  /\ N_SN_0 s' + Np.sum (arr_SN s')
     == N_SN_0 s + Np.sum (arr_SN s) + of_nat (poisson d).
Proof.
  intros Hmode Himf Hstep.
  destruct (cluster_next e lc d s s' Hstep)
    as (Mc & N_MS & hist & imf1 & _ & _ & Hcount & _ & Hct & Hcases).
  split; [done|].
  rewrite <- (count_massive_poisson e d Mc _ _ _ _ Himf Hcount).
  destruct Hcases as [(-> & _ & _ & -> & _ & ->) | (Hn & Hsn & _)].
  - rewrite of_nat_0. ring.
  - destruct (sne_feedback_mean_delay e lc d N_MS s _ _ Hmode Himf Hsn)
      as [(_ & -> & ->) | (_ & -> & i & _ & Hadd)].
    + ring.
    + rewrite (add_at_sum _ _ _ _ Hadd). ring.
Qed.

Lemma drawn_cons (d : Draw) (draws : list Draw) (n : nat) :
  drawn (d :: draws) (S n) = of_nat (poisson d) + drawn draws n.
Proof. reflexivity. Qed.

(** Over a whole call in mode 1: the immediate count and the accumulator
    together grow by the massive stars of the clusters formed. *)
Lemma mean_delay_call_total (e : Engine) (lc : Locals) :
  pop_delay_sne_feedback (pf e) = 1%Z ->
  pop_sample_imf (pf e) = false ->
  forall draws s s',
    final_state (clusters e lc draws s) = Some s' ->
    (ct s <= ct s')%nat
    /\ N_SN_0 s' + Np.sum (arr_SN s')
       == N_SN_0 s + Np.sum (arr_SN s) + drawn draws (ct s' - ct s).
Proof.
  intros Hmode Himf.
  assert (forall draws s, drawn draws (ct s - ct s) == 0) as Hzero.
  { intros draws s. rewrite Nat.sub_diag. unfold drawn. by rewrite take_0. }
  induction draws as [|d draws IH]; intros s s'; cbn [clusters].
  - destruct (Np.Qltb _ _); intros [= <-];
      (split; [lia | rewrite Hzero; ring]).
  - destruct (Np.Qltb _ _); [|intros [= <-]; split; [lia | rewrite Hzero; ring]].
    destruct (cluster e lc d s) as [[s1|s1]|x] eqn:Hstep; [| |done].
    + intros Hfin. destruct (IH s1 s' Hfin) as [Hle Htot].
      destruct (mean_delay_step_total e lc d s s1 Hmode Himf Hstep)
        as [Hct Hstep_tot].
      split; [lia|].
      replace (ct s' - ct s)%nat with (S (ct s' - ct s1)) by lia.
      rewrite drawn_cons, Htot, <- Qplus_assoc, (Qplus_assoc (N_SN_0 s1)).
      rewrite Hstep_tot. ring.
    + intros [= <-]. apply cluster_break in Hstep as ->.
      split; [lia | rewrite Hzero; ring].
Qed.

(** With a timestep no longer than the mean delay, mode 1 never touches the
    immediate count. *)
Lemma mean_delay_call_immediate (e : Engine) (lc : Locals) :
  pop_delay_sne_feedback (pf e) = 1%Z ->
  pop_sample_imf (pf e) = false ->
  dt lc <= avg_sn_delay (stars e) ->
  forall draws s s',
    final_state (clusters e lc draws s) = Some s' ->
    N_SN_0 s' = N_SN_0 s.
Proof.
  intros Hmode Himf Hshort.
  induction draws as [|d draws IH]; intros s s'; cbn [clusters].
  - by destruct (Np.Qltb _ _); intros [= <-].
  - destruct (Np.Qltb _ _); [|by intros [= <-]].
    destruct (cluster e lc d s) as [[s1|s1]|x] eqn:Hstep; [| |done].
    + intros Hfin. rewrite (IH s1 s' Hfin).
      destruct (cluster_next e lc d s s1 Hstep)
        as (Mc & N_MS & hist & imf1 & _ & _ & _ & _ & _ & Hcases).
      destruct Hcases as [(_ & _ & _ & HN & _) | (_ & Hsn & _)]; [done|].
      destruct (sne_feedback_mean_delay e lc d N_MS s _ _ Hmode Himf Hsn)
        as [(Hlong & _) | (_ & HN & _)]; [lra | done].
    + intros [= <-]. by apply cluster_break in Hstep as ->.
Qed.

(** C1. In delay mode 1 with the sampled IMF off, on an ascending time
    grid, for every cluster formed in a timestep of duration [dt] with mean
    delay [D]: if [dt > D] its massive stars are counted at the current
    step and the accumulator is left alone; otherwise the whole count is
    added to one slot of [_arr_SN], a slot whose time is nearest to
    [tnow + D], every other slot is unchanged and the total over the slots
    grows by that count. Over a whole call the immediate count and the
    slots together hold what was in the slots plus all the massive stars
    drawn, and when [dt <= D] the slots alone do. *)
Theorem mean_delay_deposit (e : Engine) (sn0 : list Q) (i : nat) (Mh : Q)
    (lc : Locals) :
  pop_delay_sne_feedback (pf e) = 1%Z ->
  pop_sample_imf (pf e) = false ->
  ascending (arr_t e) ->
  locals e sn0 i Mh = Ok lc ->
  (forall d s s',
     length (arr_SN s) = length (arr_t e) ->
     cluster e lc d s = Ok (Next s') ->
     (avg_sn_delay (stars e) < dt lc ->
        N_SN_0 s' == N_SN_0 s + of_nat (poisson d) /\ arr_SN s' = arr_SN s)
     /\ (dt lc <= avg_sn_delay (stars e) ->
           N_SN_0 s' = N_SN_0 s
           /\ exists k x y,
                nearest_slot (arr_t e) (tnow lc + avg_sn_delay (stars e)) k
                /\ arr_SN s !! k = Some x /\ arr_SN s' !! k = Some y
                /\ y == x + of_nat (poisson d)
                /\ (forall j, j <> k -> arr_SN s' !! j = arr_SN s !! j)
                /\ Np.sum (arr_SN s')
                   == Np.sum (arr_SN s) + of_nat (poisson d)))
  /\ (forall draws s',
        final_state (gen_stars e sn0 i Mh draws) = Some s' ->
        N_SN_0 s' + Np.sum (arr_SN s') == Np.sum sn0 + drawn draws (ct s')
        /\ (dt lc <= avg_sn_delay (stars e) ->
            Np.sum (arr_SN s') == Np.sum sn0 + drawn draws (ct s'))).
Proof.
  intros Hmode Himf Hasc Hlc.
  destruct (locals_spec e sn0 i Mh lc Hlc)
    as (Hid & Hnow & (t1 & Ht1 & Hdt) & _ & _).
  rewrite <- Hid in Hnow, Ht1.
  assert (0 <= dt lc) as Hdt0.
  { rewrite Hdt.
    assert (tnow lc <= t1)
      by (eapply (ascending_le _ Hasc (idnum lc) (S (idnum lc))); [lia|done..]).
    lra. }
  split.
  - intros d s s' Hlen Hstep.
    destruct (cluster_next e lc d s s' Hstep)
      as (Mc & N_MS & hist & imf1 & _ & _ & Hcount & _ & _ & Hcases).
    rewrite <- (count_massive_poisson e d Mc _ _ _ _ Himf Hcount).
    destruct Hcases as [(-> & _ & _ & HN & _ & Hsn) | (Hn & Hsn & _)].
    + rewrite HN, Hsn. split.
      * intros _. split; [rewrite of_nat_0; ring | done].
      * intros Hshort. split; [done|].
        destruct (nearest_future_total e lc (avg_sn_delay (stars e)) _ Hnow)
          as [k Hk].
        assert (nearest_slot (arr_t e) (tnow lc + avg_sn_delay (stars e))
                  (idnum lc + k)) as Hslot
          by (apply nearest_future_slot; [done | done | lra | done]).
        destruct Hslot as (tk & Htk & Hmin).
        destruct (lookup_lt_is_Some_2 (arr_SN s) (idnum lc + k)) as [x Hx].
        { rewrite Hlen. by eapply lookup_lt_Some. }
        exists (idnum lc + k)%nat, x, x. split_and!; try done.
        -- by exists tk.
        -- rewrite of_nat_0. ring.
        -- rewrite of_nat_0. ring.
    + destruct (sne_feedback_mean_delay e lc d N_MS s _ _ Hmode Himf Hsn)
        as [(Hlong & -> & ->) | (Hshort & -> & k & Hk & Hadd)].
      * split; [done|]. intros Hshort. lra.
      * split; [intros Hlong; lra|]. intros _. split; [done|].
        pose proof (add_at_sum _ _ _ _ Hadd) as Hsum.
        apply add_at_spec in Hadd as (x & Hx & Heq).
        exists (idnum lc + k)%nat, x, (x + of_nat N_MS). rewrite Heq in *.
        split_and!; try done.
        -- apply nearest_future_slot; [done | done | lra | done].
        -- apply list_lookup_insert_eq. by eapply lookup_lt_Some.
        -- intros j Hj. by apply list_lookup_insert_ne.
  - intros draws s'. unfold gen_stars. rewrite Hlc. intros Hfin.
    destruct (mean_delay_call_total e lc Hmode Himf draws _ s' Hfin)
      as [_ Htot].
    cbn [start N_SN_0 arr_SN ct] in Htot. rewrite Nat.sub_0_r in Htot.
    split; [lra|].
    intros Hshort.
    rewrite (mean_delay_call_immediate e lc Hmode Himf Hshort draws _ s' Hfin)
      in Htot.
    cbn [start N_SN_0] in Htot. lra.
Qed.

(** *** Mode 2 *)

Lemma mapM_result_Forall2 {A B : Type} (f : A -> result B) (l : list A) :
  forall ys, mapM_result f l = Ok ys -> Forall2 (fun x y => f x = Ok y) l ys.
Proof.
  induction l as [|x l IH]; intros ys; cbn [mapM_result].
  - intros [= <-]. constructor.
  - destruct (f x) as [y|e] eqn:Hy; [|done]. rewrite bind_Ok.
    destruct (mapM_result f l) as [ys'|e]; [|done]. rewrite bind_Ok.
    intros [= <-]. constructor; [done | by apply IH].
Qed.

Lemma deposit_each_sum (i0 : nat) (iSNe : list nat) :
  forall sn sn', deposit_each i0 iSNe sn = Ok sn' ->
    length sn' = length sn
    /\ Np.sum sn' == Np.sum sn + of_nat (length iSNe).
Proof.
  induction iSNe as [|i rest IH]; intros sn sn'; cbn [deposit_each].
  - intros [= <-]. split; [done|]. rewrite of_nat_0. ring.
  - destruct (Np.add_at sn (i0 + i) 1) as [sn1|x] eqn:Hadd; [|done].
    rewrite bind_Ok. intros Hrest.
    destruct (IH sn1 sn' Hrest) as [Hlen Hsum].
    split; [by rewrite Hlen, (add_at_length _ _ _ _ Hadd)|].
    rewrite Hsum, (add_at_sum _ _ _ _ Hadd).
    cbn [length]. unfold of_nat. rewrite Nat2Z.inj_succ, <- Z.add_1_l.
    rewrite inject_Z_plus. ring.
Qed.

(** Slot by slot: every slot gains one supernova per index that points at
    it. *)
Lemma deposit_each_slots (i0 : nat) (iSNe : list nat) :
  forall sn sn', deposit_each i0 iSNe sn = Ok sn' ->
    forall j x, sn !! j = Some x ->
      exists y, sn' !! j = Some y
        /\ y == x + of_nat (length (filter (fun k => (i0 + k)%nat = j) iSNe)).
Proof.
  induction iSNe as [|i rest IH]; intros sn sn'; cbn [deposit_each].
  - intros [= <-] j x Hx. exists x. split; [done|].
    rewrite filter_nil. cbn [length]. rewrite of_nat_0. ring.
  - destruct (Np.add_at sn (i0 + i) 1) as [sn1|x0] eqn:Hadd; [|done].
    rewrite bind_Ok. intros Hrest j x Hx.
    apply add_at_spec in Hadd as (x1 & Hx1 & ->).
    destruct (decide ((i0 + i)%nat = j)) as [E | E].
    + subst j. rewrite Hx in Hx1. injection Hx1 as <-.
      destruct (IH _ _ Hrest (i0 + i)%nat (x + 1)) as (y & Hy & Heq).
      { apply list_lookup_insert_eq. by eapply lookup_lt_Some. }
      exists y. split; [done|]. rewrite Heq.
      rewrite filter_cons_True by done. cbn [length].
      unfold of_nat. rewrite Nat2Z.inj_succ, <- Z.add_1_l, inject_Z_plus.
      ring.
    + destruct (IH _ _ Hrest j x) as (y & Hy & Heq).
      { by rewrite list_lookup_insert_ne. }
      exists y. split; [done|]. by rewrite filter_cons_False.
Qed.

(** Supernova feedback over the delay-time distribution (mode 2). *)
Lemma sne_feedback_full_delay (e : Engine) (lc : Locals) (d : Draw)
    (N_MS : nat) (s : Loop) (n : Q) (sn : list Q) :
  pop_delay_sne_feedback (pf e) = 2%Z ->
  sne_feedback e lc d N_MS s = Ok (n, sn) ->
  exists iSNe,
    mapM_result (nearest_future e lc) (draw_delays d) = Ok iSNe
    /\ deposit_each (idnum lc) iSNe (arr_SN s) = Ok sn
    /\ n = N_SN_0 s + of_nat (length (filter (fun i => i = 0%nat) iSNe)).
Proof.
  unfold sne_feedback. intros ->. cbn [Z.eqb Pos.eqb].
  destruct (mapM_result (nearest_future e lc) (draw_delays d))
    as [iSNe|x] eqn:HiSNe; [|done].
  rewrite bind_Ok.
  destruct (deposit_each (idnum lc) iSNe (arr_SN s)) as [sn'|x] eqn:Hdep;
    [|done].
  rewrite bind_Ok. intros [= <- <-]. by exists iSNe.
Qed.

Lemma nearest_future_slots (e : Engine) (lc : Locals) (delays : list Q)
    (iSNe : list nat) :
  ascending (arr_t e) ->
  arr_t e !! idnum lc = Some (tnow lc) ->
  (forall delay, delay ∈ delays -> 0 <= delay) ->
  mapM_result (nearest_future e lc) delays = Ok iSNe ->
  Forall2 (fun delay k =>
             nearest_slot (arr_t e) (tnow lc + delay) (idnum lc + k))
          delays iSNe.
Proof.
  intros Hasc Hnow Hpos HiSNe. apply mapM_result_Forall2 in HiSNe.
  induction HiSNe as [|delay k delays iSNe Hk _ IH]; constructor.
  - apply nearest_future_slot; [done | done | apply Hpos; set_solver | done].
  - apply IH. intros x Hx. apply Hpos. set_solver.
Qed.

(** C2, amended. In delay mode 2, for a cluster with [N_MS >= 1] massive
    stars and one delay (not negative) drawn per star: every supernova is
    deposited into [_arr_SN] at the index nearest to [tnow + delay],
    those of the current step included: every slot [j] of [_arr_SN] gains
    the number of supernovae whose index is [j], and the array keeps its
    length, so the deposits made equal [N_MS]; the supernovae that resolve
    to the current step are counted in the immediate count as well. *)
Theorem full_delay_deposit (e : Engine) (sn0 : list Q) (i : nat) (Mh : Q)
    (lc : Locals) (d : Draw) (s s' : Loop) (Mc : Q) (N_MS : nat)
    (hist : option (list nat)) (imf1 : list Q) :
  pop_delay_sne_feedback (pf e) = 2%Z ->
  ascending (arr_t e) ->
  locals e sn0 i Mh = Ok lc ->
  Np.interp (rand d) (tab_cdf e) (tab_Mcl e) = Ok Mc ->
  count_massive e d Mc (imf s) = Ok (N_MS, hist, imf1) ->
  N_MS <> 0%nat ->
  length (draw_delays d) = N_MS ->
  forallb (fun delay => Qle_bool 0 delay) (draw_delays d) = true ->
  cluster e lc d s = Ok (Next s') ->
  exists iSNe,
    length iSNe = N_MS
    /\ Forall2 (fun delay k =>
                  nearest_slot (arr_t e) (tnow lc + delay) (idnum lc + k))
               (draw_delays d) iSNe
    /\ deposit_each (idnum lc) iSNe (arr_SN s) = Ok (arr_SN s')
    /\ length (arr_SN s') = length (arr_SN s)
    /\ (forall j x, arr_SN s !! j = Some x ->
          exists y, arr_SN s' !! j = Some y
            /\ y == x + of_nat (length (filter
                                         (fun k => (idnum lc + k)%nat = j)
                                         iSNe)))
    /\ N_SN_0 s'
       = N_SN_0 s + of_nat (length (filter (fun k => k = 0%nat) iSNe))
    /\ Np.sum (arr_SN s') == Np.sum (arr_SN s) + of_nat N_MS.
Proof.
  intros Hmode Hasc Hlc HMc Hcount Hn Hlen Hpos Hstep.
  destruct (locals_spec e sn0 i Mh lc Hlc) as (Hid & Hnow & _).
  rewrite <- Hid in Hnow.
  destruct (cluster_next e lc d s s' Hstep)
    as (Mc' & N_MS' & hist' & imf1' & HMc' & _ & Hcount' & _ & _ & Hcases).
  rewrite HMc in HMc'. injection HMc' as <-.
  rewrite Hcount in Hcount'. injection Hcount' as <- <- <-.
  destruct Hcases as [(-> & _) | (_ & Hsn & _)]; [done|].
  destruct (sne_feedback_full_delay e lc d N_MS s _ _ Hmode Hsn)
    as (iSNe & HiSNe & Hdep & HN).
  exists iSNe.
  assert (length iSNe = N_MS) as HlenI.
  { rewrite <- Hlen. symmetry.
    eapply Forall2_length, mapM_result_Forall2, HiSNe. }
  split_and!; try done.
  - apply nearest_future_slots; try done.
    intros delay Hin. apply Qle_bool_iff.
    rewrite forallb_forall in Hpos. apply Hpos. by apply list_elem_of_In.
  - exact (proj1 (deposit_each_sum _ _ _ _ Hdep)).
  - exact (deposit_each_slots _ _ _ _ Hdep).
  - destruct (deposit_each_sum _ _ _ _ Hdep) as [_ Hsum].
    by rewrite Hsum, HlenI.
Qed.

(** C2, as stated, fails: of two supernovae with delays 1 and 12 Myr on a
    10 Myr grid, the first resolves to the current step; it is counted
    immediately and deposited in slot 0 as well, so the immediate count
    plus the deposits is 3, not 2. *)
Lemma current_step_supernovae_deposited_too :
  exists lc s',
    locals (toy_engine 2 false false 0) [0; 0; 0; 0] 0 (10 ^ 9) = Ok lc
    /\ cluster (toy_engine 2 false false 0) lc toy_draw
         (start (toy_engine 2 false false 0) [0; 0; 0; 0]) = Ok (Next s')
    /\ length (draw_delays toy_draw) = poisson toy_draw
    /\ N_SN_0 s' == 1
    /\ arr_SN s' = [0 + 1; 0 + 1; 0; 0]
    /\ ~ (N_SN_0 s' - 0) + (Np.sum (arr_SN s') - Np.sum [0; 0; 0; 0])
          == of_nat (poisson toy_draw).
Proof.
  eexists. eexists. split; [vm_compute; reflexivity|].
  split; [vm_compute; reflexivity|]. split; [reflexivity|].
  split; [vm_compute; reflexivity|]. split; [vm_compute; reflexivity|].
  vm_compute. discriminate.
Qed.

(** *** The gas budget *)

Lemma of_nat_nonneg (n : nat) : 0 <= of_nat n.
Proof.
  unfold of_nat. change 0 with (inject_Z 0). rewrite <- Zle_Qle. lia.
Qed.

Lemma Qdiv_nonneg (a b : Q) : 0 <= a -> 0 <= b -> 0 <= a / b.
Proof.
  intros Ha Hb. unfold Qdiv. apply Qmult_le_0_compat; [done|].
  by apply Qinv_le_0_compat.
Qed.

Lemma wind_mass_nonneg (e : Engine) (lc : Locals) (n : Q) :
  0 <= N_SN_p lc -> 0 <= pop_coupling_sne (pf e) -> 0 <= g_per_msun e ->
  0 <= n -> 0 <= wind_mass e lc n.
Proof.
  intros Hp Hc Hg Hn. unfold wind_mass.
  apply Qdiv_nonneg; [|done]. apply Qdiv_nonneg.
  - repeat apply Qmult_le_0_compat; try done; lra.
  - change (vesc lc ^ 2) with (vesc lc * vesc lc). nra.
Qed.

Lemma sne_feedback_nonneg (e : Engine) (lc : Locals) (d : Draw) (N_MS : nat)
    (s : Loop) (n : Q) (sn : list Q) :
  sne_feedback e lc d N_MS s = Ok (n, sn) -> 0 <= N_SN_0 s -> 0 <= n.
Proof.
  unfold sne_feedback. intros H H0.
  pose proof (of_nat_nonneg N_MS).
  destruct (pop_delay_sne_feedback (pf e) =? 0)%Z;
    [injection H as <- _; lra|].
  destruct (pop_delay_sne_feedback (pf e) =? 1)%Z.
  { destruct (pop_sample_imf (pf e)); [done|].
    destruct (Np.Qltb _ _); [injection H as <- _; lra|].
    destruct (nearest_future e lc _); [|done]. rewrite bind_Ok in H.
    destruct (Np.add_at _ _ _); [|done]. rewrite bind_Ok in H.
    by injection H as <- _. }
  destruct (pop_delay_sne_feedback (pf e) =? 2)%Z;
    [|by injection H as <- _].
  destruct (mapM_result _ _) as [iSNe|]; [|done]. rewrite bind_Ok in H.
  destruct (deposit_each _ _ _); [|done]. rewrite bind_Ok in H.
  injection H as <- _.
  pose proof (of_nat_nonneg (length (filter (fun i => i = 0%nat) iSNe))).
  lra.
Qed.

Lemma Qle_bool_false (a b : Q) : Qle_bool a b = false <-> b < a.
Proof.
  rewrite <- Qltb_lt. unfold Np.Qltb. by rewrite negb_true_iff.
Qed.

Lemma cluster_accepted (e : Engine) (lc : Locals) (d : Draw) (s s' : Loop) :
  cluster e lc d s = Ok (Next s') -> Ms s' + Mw s < Mg lc.
Proof.
  intros Hstep.
  destruct (cluster_next e lc d s s' Hstep)
    as (Mc & N_MS & hist & imf1 & _ & Hacc & _ & -> & _).
  apply Qle_bool_false in Hacc. lra.
Qed.

Lemma cluster_rejected (e : Engine) (lc : Locals) (d : Draw) (s : Loop)
    (Mc : Q) :
  Np.interp (rand d) (tab_cdf e) (tab_Mcl e) = Ok Mc ->
  Mg lc <= Ms s + Mc + Mw s ->
  cluster e lc d s = Ok (Break s).
Proof.
  intros HMc Hfull. unfold cluster. rewrite HMc, bind_Ok.
  apply Qle_bool_iff in Hfull. by rewrite Hfull.
Qed.

Lemma cluster_keeps_budget (e : Engine) (lc : Locals) (d : Draw)
    (s s' : Loop) :
  0 <= N_SN_p lc -> 0 <= pop_coupling_sne (pf e) -> 0 <= g_per_msun e ->
  budget_inv lc s ->
  cluster e lc d s = Ok (Next s') ->
  budget_inv lc s'.
Proof.
  intros Hp Hc Hg (HMw & HN & _) Hstep.
  pose proof (cluster_accepted e lc d s s' Hstep) as Hacc.
  destruct (cluster_next e lc d s s' Hstep)
    as (Mc & N_MS & hist & imf1 & _ & _ & _ & _ & _ & Hcases).
  assert (0 <= N_SN_0 s') as HN'.
  { destruct Hcases as [(_ & _ & _ & -> & _) | (_ & Hsn & _)]; [done|].
    by eapply sne_feedback_nonneg. }
  split_and!; [| done | right; lra].
  destruct Hcases as [(_ & -> & _) | (_ & _ & -> & _)]; [done|].
  by apply wind_mass_nonneg.
Qed.

Lemma clusters_keep_budget (e : Engine) (lc : Locals) :
  0 <= N_SN_p lc -> 0 <= pop_coupling_sne (pf e) -> 0 <= g_per_msun e ->
  forall draws s s',
    budget_inv lc s ->
    final_state (clusters e lc draws s) = Some s' ->
    budget_inv lc s'.
Proof.
  intros Hp Hc Hg.
  induction draws as [|d draws IH]; intros s s' Hinv; cbn [clusters].
  - by destruct (Np.Qltb _ _); intros [= <-].
  - destruct (Np.Qltb _ _); [|by intros [= <-]].
    destruct (cluster e lc d s) as [[s1|s1]|x] eqn:Hstep; [| |done].
    + apply IH. by eapply cluster_keeps_budget.
    + intros [= <-]. by apply cluster_break in Hstep as ->.
Qed.

(** The loop is left through its condition or through the [break]. *)
Lemma clusters_returned (e : Engine) (lc : Locals) :
  forall draws s s',
    clusters e lc draws s = Returned s' ->
    Mg lc * pop_fstar_cloud (pf e) <= Mw s' + Mw_rad s' + Ms s'
    \/ exists d Mc, d ∈ draws
         /\ Np.interp (rand d) (tab_cdf e) (tab_Mcl e) = Ok Mc
         /\ Mg lc <= Ms s' + Mc + Mw s'.
Proof.
  induction draws as [|d draws IH]; intros s s'; cbn [clusters].
  - destruct (Np.Qltb _ _) eqn:Hcond; [done|].
    intros [= <-]. left. by apply Qltb_ge.
  - destruct (Np.Qltb _ _) eqn:Hcond;
      [|intros [= <-]; left; by apply Qltb_ge].
    destruct (cluster e lc d s) as [[s1|s1]|x] eqn:Hstep; [| |done].
    + intros Hret. destruct (IH s1 s' Hret) as [Hfull | (d' & Mc & Hin & H)].
      * by left.
      * right. exists d', Mc. split; [by apply list_elem_of_further | done].
    + intros [= <-]. pose proof (cluster_break _ _ _ _ _ Hstep) as Heq.
      subst s1. right. revert Hstep. unfold cluster.
      destruct (Np.interp (rand d) (tab_cdf e) (tab_Mcl e)) as [Mc|x] eqn:HMc;
        [|done].
      rewrite bind_Ok.
      destruct (Qle_bool (Mg lc) (Ms s + Mc + Mw s)) eqn:Hfull.
      * intros _. exists d, Mc. split; [set_solver|]. split; [done|].
        by apply Qle_bool_iff.
      * intros Hstep. exfalso.
        destruct (count_massive e d Mc (imf s)) as [[[N_MS hist] imf1]|x];
          [|done].
        rewrite bind_Ok in Hstep.
        destruct (match hist with Some h => add_hist imf1 h | None => Ok imf1 end)
          as [imf2|x]; [|done].
        rewrite bind_Ok in Hstep.
        destruct (N_MS =? 0)%nat; [done|].
        destruct (sne_feedback e lc d N_MS s) as [[n_sn_0 sn]|x]; [|done].
        rewrite bind_Ok in Hstep.
        destruct (negb (pop_feedback_rad (pf e))); [done|].
        by destruct (rad_feedback e lc N_MS s) as [[e_uv mw_rad]|x].
Qed.

(** C3, as stated, fails: with [fstar_cloud = 1] and 1e4 solar masses of
    gas, one cluster of 500 solar masses is accepted, its two supernovae
    drive a wind of about 2e4 solar masses, and the loop ends with stellar
    plus wind mass above the gas mass. *)
Lemma gas_budget_overshoot :
  exists lc s',
    locals (toy_engine 0 false false 0) [0; 0; 0; 0] 0 (10 ^ 9) = Ok lc
    /\ pop_fstar_cloud (pf (toy_engine 0 false false 0)) == 1
    /\ gen_stars (toy_engine 0 false false 0) [0; 0; 0; 0] 0 (10 ^ 9)
         [toy_draw] = Returned s'
    /\ ct s' = 1%nat
    /\ Mg lc < Ms s' + Mw s'.
Proof.
  eexists. eexists. split; [vm_compute; reflexivity|].
  split; [reflexivity|]. split; [vm_compute; reflexivity|].
  split; [reflexivity|]. vm_compute. reflexivity.
Qed.

(** C3, amended. A proposed cluster that would bring the stellar mass plus
    the wind mass of the clusters before it to or beyond [Mg] is rejected:
    the loop breaks and nothing is formed. Every cluster that is formed
    keeps the stellar mass plus that earlier wind mass below [Mg], so with
    wind masses that are not negative the stellar mass formed stays below
    [Mg]. The loop is left when stellar plus wind mass has reached
    [Mg * fstar_cloud] or at such a rejection. *)
Theorem gas_budget_guard (e : Engine) (sn0 : list Q) (i : nat) (Mh : Q)
    (lc : Locals) :
  locals e sn0 i Mh = Ok lc ->
  0 <= N_SN_p lc ->
  0 <= pop_coupling_sne (pf e) ->
  0 <= g_per_msun e ->
  (forall d s Mc,
     Np.interp (rand d) (tab_cdf e) (tab_Mcl e) = Ok Mc ->
     Mg lc <= Ms s + Mc + Mw s ->
     cluster e lc d s = Ok (Break s))
  /\ (forall d s s',
        cluster e lc d s = Ok (Next s') -> Ms s' + Mw s < Mg lc)
  /\ (forall draws s',
        final_state (gen_stars e sn0 i Mh draws) = Some s' ->
        (ct s' = 0%nat /\ Ms s' = 0) \/ Ms s' < Mg lc)
  /\ (forall draws s',
        gen_stars e sn0 i Mh draws = Returned s' ->
        Mg lc * pop_fstar_cloud (pf e) <= Mw s' + Mw_rad s' + Ms s'
        \/ exists d Mc, d ∈ draws
             /\ Np.interp (rand d) (tab_cdf e) (tab_Mcl e) = Ok Mc
             /\ Mg lc <= Ms s' + Mc + Mw s').
Proof.
  intros Hlc Hp Hc Hg. split_and!.
  - intros d s Mc. apply cluster_rejected.
  - intros d s s'. apply cluster_accepted.
  - intros draws s'. unfold gen_stars. rewrite Hlc. intros Hfin.
    eapply (clusters_keep_budget e lc Hp Hc Hg draws (start e sn0)); [|done].
    unfold budget_inv. cbn [start Mw N_SN_0 ct Ms].
    split_and!; [apply Qle_refl | apply Qle_refl | by left].
  - intros draws s'. unfold gen_stars. rewrite Hlc. apply clusters_returned.
Qed.

(** *** Unimplemented combinations *)

Lemma add_hist_length (imf imf' : list Q) (hist : list nat) :
  add_hist imf hist = Ok imf' ->
  length imf = length hist /\ length imf' = length hist.
Proof.
  unfold add_hist. destruct (Nat.eqb_spec (length imf) (length hist)); [|done].
  intros [= <-]. rewrite length_zip_with. lia.
Qed.

Lemma sne_feedback_sampled_mean_delay (e : Engine) (lc : Locals) (d : Draw)
    (N_MS : nat) (s : Loop) :
  pop_sample_imf (pf e) = true ->
  pop_delay_sne_feedback (pf e) = 1%Z ->
  sne_feedback e lc d N_MS s = Raise TypeError.
Proof. unfold sne_feedback. by intros -> ->. Qed.

Lemma rad_feedback_delayed (e : Engine) (lc : Locals) (N_MS : nat) (s : Loop) :
  (1 <= pop_delay_rad_feedback (pf e))%Z ->
  rad_feedback e lc N_MS s = Raise TypeError.
Proof.
  unfold rad_feedback. intros H.
  destruct (Z.eqb_spec (pop_delay_rad_feedback (pf e)) 0); [lia|].
  by destruct (Z.leb_spec 1 (pop_delay_rad_feedback (pf e))); [|lia].
Qed.

(** C9, amended. With the sampled IMF in the mean-delay mode
    ([pop_delay_sne_feedback = 1]), or with radiative feedback and
    [pop_delay_rad_feedback >= 1], a pass that forms a cluster with at
    least one massive star raises, and so does the call; the only passes
    that complete are those without a massive star, which compute no
    feedback. *)
Theorem unimplemented_feedback_raises (e : Engine) (lc : Locals) :
  (pop_sample_imf (pf e) = true /\ pop_delay_sne_feedback (pf e) = 1%Z)
  \/ (pop_feedback_rad (pf e) = true
      /\ (1 <= pop_delay_rad_feedback (pf e))%Z) ->
  (forall d s Mc N_MS hist imf1,
     Np.interp (rand d) (tab_cdf e) (tab_Mcl e) = Ok Mc ->
     Ms s + Mc + Mw s < Mg lc ->
     count_massive e d Mc (imf s) = Ok (N_MS, hist, imf1) ->
     N_MS <> 0%nat ->
     (exists x, cluster e lc d s = Raise x)
     /\ forall draws,
          Mw s + Mw_rad s + Ms s < Mg lc * pop_fstar_cloud (pf e) ->
          exists x, clusters e lc (d :: draws) s = Raised x)
  /\ (forall d s s',
        cluster e lc d s = Ok (Next s') ->
        N_SN_0 s' = N_SN_0 s /\ arr_SN s' = arr_SN s /\ Mw s' = Mw s
        /\ Mw_rad s' = Mw_rad s /\ E_UV_0 s' = E_UV_0 s).
Proof.
  intros Hcfg. split.
  - intros d s Mc N_MS hist imf1 HMc Hacc Hcount Hn.
    assert (exists x, cluster e lc d s = Raise x) as [x Hx].
    { unfold cluster. rewrite HMc, bind_Ok.
      apply Qle_bool_false in Hacc. rewrite Hacc, Hcount, bind_Ok.
      destruct (match hist with Some h => add_hist imf1 h | None => Ok imf1 end)
        as [imf2|x]; [|by eexists].
      rewrite bind_Ok. destruct (Nat.eqb_spec N_MS 0); [done|].
      destruct Hcfg as [[Himf Hmode] | [Hrad Hmode]].
      - rewrite sne_feedback_sampled_mean_delay by done. by eexists.
      - destruct (sne_feedback e lc d N_MS s) as [[n_sn_0 sn]|x];
          [|by eexists].
        rewrite bind_Ok, Hrad. cbn [negb].
        rewrite rad_feedback_delayed by done. by eexists. }
    split; [by exists x|].
    intros draws Hcond. exists x. cbn [clusters].
    apply Qltb_lt in Hcond. by rewrite Hcond, Hx.
  - intros d s s' Hstep.
    destruct (cluster_next e lc d s s' Hstep)
      as (Mc & N_MS & hist & imf1 & _ & _ & _ & _ & _ & Hcases).
    destruct Hcases as [(_ & -> & -> & -> & -> & ->) | (_ & Hsn & _ & Hrad)];
      [done|].
    exfalso. destruct Hcfg as [[Himf Hmode] | [Hrad' Hmode]].
    + by rewrite sne_feedback_sampled_mean_delay in Hsn.
    + destruct Hrad as [[Hrad _] | [_ Hrad]]; [congruence|].
      by rewrite rad_feedback_delayed in Hrad.
Qed.

(** C9, as stated, fails: with the sampled IMF and delay mode 2 the call
    returns, having formed a cluster with two massive stars and deposited
    their supernovae. *)
Lemma sampled_imf_full_delay_runs :
  exists s',
    pop_sample_imf (pf (toy_engine 2 true false 0)) = true
    /\ (1 <= pop_delay_sne_feedback (pf (toy_engine 2 true false 0)))%Z
    /\ gen_stars (toy_engine 2 true false 0) [0; 0; 0; 0] 0 (10 ^ 9)
         [toy_draw] = Returned s'
    /\ ct s' = 1%nat
    /\ N_SN_0 s' == 1
    /\ arr_SN s' = [0 + 1; 0 + 1; 0; 0].
Proof.
  eexists. split; [reflexivity|]. split; [done|].
  split; [vm_compute; reflexivity|]. split; [reflexivity|].
  split; vm_compute; reflexivity.
Qed.

End StochasticEngine.

Section StochasticWitnesses.

Import Stochastic StochasticSpec StochasticInputs.

Lemma mean_delay_deposit_witness :
  exists s',
    cluster (toy_engine 1 false false 0) toy_locals toy_draw
      (start (toy_engine 1 false false 0) [0; 0; 0; 0]) = Ok (Next s')
    /\ N_SN_0 s' = 0
    /\ exists k x y,
         nearest_slot [0; 10; 20; 30] (0 + 15) k
         /\ [0; 0; 0; 0] !! k = Some x /\ arr_SN s' !! k = Some y
         /\ y == x + of_nat 2
         /\ (forall j, j <> k -> arr_SN s' !! j = [0; 0; 0; 0] !! j)
         /\ Np.sum (arr_SN s') == Np.sum [0; 0; 0; 0] + of_nat 2.
Proof.
  eexists. split; [vm_compute; reflexivity|].
  refine (proj2 (proj1 (mean_delay_deposit (toy_engine 1 false false 0)
            [0; 0; 0; 0] 0 (10 ^ 9) toy_locals _ _ _ _)
            toy_draw (start (toy_engine 1 false false 0) [0; 0; 0; 0]) _ _ _) _).
  - reflexivity.
  - reflexivity.
  - reflexivity.
  - vm_compute. reflexivity.
  - reflexivity.
  - vm_compute. reflexivity.
  - vm_compute. discriminate.
Defined.

Lemma full_delay_deposit_witness :
  exists s' iSNe,
    length iSNe = 2%nat
    /\ Forall2 (fun delay k => nearest_slot [0; 10; 20; 30] (0 + delay) (0 + k))
               [1; 12] iSNe
    /\ deposit_each 0 iSNe [0; 0; 0; 0] = Ok (arr_SN s')
    /\ length (arr_SN s') = length [0; 0; 0; 0]
    /\ (forall j x, [0; 0; 0; 0] !! j = Some x ->
          exists y, arr_SN s' !! j = Some y
            /\ y == x + of_nat (length (filter
                                         (fun k => (0 + k)%nat = j) iSNe)))
    /\ N_SN_0 s' = 0 + of_nat (length (filter (fun k => k = 0%nat) iSNe))
    /\ Np.sum (arr_SN s') == Np.sum [0; 0; 0; 0] + of_nat 2.
Proof.
  eexists.
  refine (full_delay_deposit (toy_engine 2 false false 0) [0; 0; 0; 0] 0
            (10 ^ 9) toy_locals toy_draw
            (start (toy_engine 2 false false 0) [0; 0; 0; 0]) _ _ 2 _ _
            _ _ _ _ _ _ _ _ _).
  - reflexivity.
  - reflexivity.
  - vm_compute. reflexivity.
  - vm_compute. reflexivity.
  - vm_compute. reflexivity.
  - discriminate.
  - reflexivity.
  - reflexivity.
  - vm_compute. reflexivity.
Defined.

Lemma gas_budget_guard_witness :
  exists s',
    final_state (gen_stars (toy_engine 0 false false 0) [0; 0; 0; 0] 0
                   (10 ^ 9) [toy_draw]) = Some s'
    /\ ((ct s' = 0%nat /\ Ms s' = 0) \/ Ms s' < 10 ^ 4).
Proof.
  eexists. split; [vm_compute; reflexivity|].
  refine (proj1 (proj2 (proj2 (gas_budget_guard (toy_engine 0 false false 0)
            [0; 0; 0; 0] 0 (10 ^ 9) toy_locals _ _ _ _))) [toy_draw] _ _).
  - vm_compute. reflexivity.
  - vm_compute. discriminate.
  - vm_compute. discriminate.
  - vm_compute. discriminate.
  - vm_compute. reflexivity.
Defined.

Lemma unimplemented_feedback_raises_witness :
  (exists x, cluster (toy_engine 1 true false 0) toy_locals toy_draw
               (start (toy_engine 1 true false 0) [0; 0; 0; 0]) = Raise x)
  /\ (exists x, clusters (toy_engine 0 false true 1) toy_locals [toy_draw]
                  (start (toy_engine 0 false true 1) [0; 0; 0; 0])
                = Raised x).
Proof.
  split.
  - refine (proj1 (proj1 (unimplemented_feedback_raises
              (toy_engine 1 true false 0) toy_locals
              (or_introl (conj eq_refl eq_refl)))
              toy_draw (start (toy_engine 1 true false 0) [0; 0; 0; 0])
              _ 2%nat _ _ _ _ _ _)).
    + vm_compute. reflexivity.
    + vm_compute. reflexivity.
    + vm_compute. reflexivity.
    + discriminate.
  - refine (proj2 (proj1 (unimplemented_feedback_raises
              (toy_engine 0 false true 1) toy_locals
              (or_intror (conj eq_refl _)))
              toy_draw (start (toy_engine 0 false true 1) [0; 0; 0; 0])
              _ 2%nat _ _ _ _ _ _) [] _).
    + discriminate.
    + vm_compute. reflexivity.
    + vm_compute. reflexivity.
    + vm_compute. reflexivity.
    + discriminate.
    + vm_compute. reflexivity.
Defined.

End StochasticWitnesses.

(** ** Log-normal scatter *)

Module LogNormalFacts.

Import LogNormal.

Local Open Scope R_scope.

Lemma scatter_mar_lookup (sigma : R) (mar lognoise : list R) (i : nat) (a n : R) :
  mar !! i = Some a -> lognoise !! i = Some n ->
  scatter_mar sigma mar lognoise !! i = Some (scattered sigma a n).
Proof.
  intros Ha Hn. unfold scatter_mar, noise_lognormal, scattered.
  rewrite list_lookup_fmap, !lookup_zip_with, Ha, Hn. reflexivity.
Qed.

Lemma ln10_pos : 0 < ln 10.
Proof. rewrite <- ln_1. apply ln_increasing; lra. Qed.

Lemma scattered_exp (sigma a n : R) :
  0 < a ->
  scattered sigma a n = a * exp (n * ln 10) / exp (0.5 * sigma ^ 2).
Proof.
  intros Ha. unfold scattered, Rpower, log10. f_equal.
  replace ((ln a / ln 10 + n) * ln 10) with (ln a + n * ln 10).
  - rewrite exp_plus, exp_ln by done. lra.
  - pose proof ln10_pos. field. lra.
Qed.

(** *** Integrals of continuous functions *)

Lemma continuous_integrable (f : R -> R) (a b : R) :
  continuity f -> Riemann_integrable f a b.
Proof.
  intros Hf. destruct (Rle_dec a b) as [Hab | Hab].
  - apply continuity_implies_RiemannInt; [done | intros; apply Hf].
  - apply RiemannInt_P1, continuity_implies_RiemannInt; [lra | intros; apply Hf].
Qed.

(** Two integrals of functions that agree are equal. *)
Lemma RiemannInt_agree (f g : R -> R) (a b : R)
    (pf : Riemann_integrable f a b) (pg : Riemann_integrable g a b) :
  a <= b -> (forall x, f x = g x) -> RiemannInt pf = RiemannInt pg.
Proof. intros Hab Hfg. apply RiemannInt_P18; [done | intros; apply Hfg]. Qed.

Lemma RiemannInt_scale (f : R -> R) (k a b : R)
    (pf : Riemann_integrable f a b)
    (pk : Riemann_integrable (fun x => k * f x) a b) :
  a <= b -> RiemannInt pk = k * RiemannInt pf.
Proof.
  intros Hab.
  pose (p0 := RiemannInt_P14 a b 0).
  pose (p3 := RiemannInt_P10 k p0 pf).
  rewrite (RiemannInt_agree _ _ a b pk p3 Hab).
  - rewrite (RiemannInt_P13 p0 pf p3), RiemannInt_P15. ring.
  - intros x. unfold fct_cte. ring.
Qed.

(** The integral of [f (x - mu)] over [a, b] is the integral of [f] over
    [a - mu, b - mu]. *)
Lemma RiemannInt_translate (f : R -> R) (mu a b : R)
    (p1 : Riemann_integrable (fun x => f (x - mu)) a b)
    (p2 : Riemann_integrable f (a - mu) (b - mu)) :
  continuity f -> a <= b -> RiemannInt p1 = RiemannInt p2.
Proof.
  intros Hf Hab.
  assert (a - mu <= b - mu) as Hab' by lra.
  assert (forall x, a - mu <= x <= b - mu -> continuity_pt f x) as C2
    by (intros; apply Hf).
  assert (continuity (fun x => f (x - mu))) as Hg.
  { intros x. apply (continuity_pt_comp (fun x => x - mu) f); [|apply Hf].
    apply continuity_pt_minus; [apply derivable_continuous_pt, derivable_pt_id|
                                apply continuity_pt_const]. by intros ? ?. }
  assert (forall x, a <= x <= b -> continuity_pt (fun x => f (x - mu)) x) as C1
    by (intros; apply Hg).
  set (F := primitive Hab' (FTC_P1 Hab' C2)).
  set (G := primitive Hab (FTC_P1 Hab C1)).
  assert (antiderivative (fun x => f (x - mu)) G a b) as HG
    by apply RiemannInt_P29.
  assert (antiderivative (fun x => f (x - mu)) (fun x => F (x - mu)) a b) as HF.
  { split; [|done]. intros x Hx.
    assert (derivable_pt_lim (fun x => F (x - mu)) x (f (x - mu))) as Hlim.
    { pose proof (RiemannInt_P28 Hab' C2 (x := x - mu)) as HP.
      assert (a - mu <= x - mu <= b - mu) as Hx' by lra.
      specialize (HP Hx'). fold F in HP.
      intros eps Heps. destruct (HP eps Heps) as [delta Hdelta].
      exists delta. intros h Hh0 Hh.
      replace (x + h - mu) with (x - mu + h) by ring. by apply Hdelta. }
    exists (exist _ (f (x - mu)) Hlim). reflexivity. }
  destruct (antiderivative_Ucte _ _ _ _ _ HG HF) as [c Hc].
  rewrite (RiemannInt_P20 Hab (FTC_P1 Hab C1) p1).
  rewrite (RiemannInt_P20 Hab' (FTC_P1 Hab' C2) p2).
  fold F G. rewrite (Hc b), (Hc a) by lra. ring.
Qed.

(** *** The normal weight *)

Section NormalWeight.

Variable sigma : R.
Hypothesis sigma_pos : 0 < sigma.

Lemma weight_continuous : continuity (normal_weight sigma).
Proof. unfold normal_weight. reg. Qed.

Lemma weight_pos (x : R) : 0 < normal_weight sigma x.
Proof. apply exp_pos. Qed.

Lemma exp_le (x y : R) : x <= y -> exp x <= exp y.
Proof.
  intros [Hlt | ->]; [left; by apply exp_increasing | apply Rle_refl].
Qed.

(** The weight falls as the argument moves away from 0. *)
Lemma weight_decreasing (x y : R) :
  y ^ 2 <= x ^ 2 -> normal_weight sigma x <= normal_weight sigma y.
Proof.
  intros Hxy. apply exp_le.
  assert (0 < 2 * sigma ^ 2) as Hs by nra.
  apply Ropp_le_contravar. unfold Rdiv.
  apply Rmult_le_compat_r; [|done]. left. by apply Rinv_0_lt_compat.
Qed.

Lemma weight_le_1 (x : R) : normal_weight sigma x <= 1.
Proof.
  rewrite <- exp_0. apply exp_le.
  assert (0 < 2 * sigma ^ 2) as Hs by nra.
  assert (0 <= x ^ 2 / (2 * sigma ^ 2)); [|lra].
  apply Rle_mult_inv_pos; [nra | done].
Qed.

(** The weight vanishes at infinity. *)
Lemma weight_small (y : R) :
  0 < y -> normal_weight sigma y <= 2 * sigma ^ 2 / y ^ 2.
Proof.
  intros Hy. unfold normal_weight.
  assert (0 < 2 * sigma ^ 2) as Hs by nra.
  assert (0 < y ^ 2) as Hy2 by nra.
  set (u := y ^ 2 / (2 * sigma ^ 2)).
  assert (0 < u) as Hu by (by apply Rdiv_lt_0_compat).
  rewrite exp_Ropp.
  replace (2 * sigma ^ 2 / y ^ 2) with (/ u) by (unfold u; field; lra).
  apply Rinv_le_contravar; [done|].
  pose proof (exp_ineq1_le u). lra.
Qed.

(** Completing the square: the weight times [exp (c x)] is a shifted
    weight. *)
Lemma weight_tilt (c x : R) :
  exp (c * x) * normal_weight sigma x
  = exp (c ^ 2 * sigma ^ 2 / 2) * normal_weight sigma (x - c * sigma ^ 2).
Proof.
  unfold normal_weight. rewrite <- !exp_plus. f_equal. field. lra.
Qed.

Lemma mass_chasles (a b d : R) :
  normal_mass sigma a b + normal_mass sigma b d = normal_mass sigma a d.
Proof. apply RiemannInt_P26. Qed.

Lemma mass_bounds (a b u : R) :
  a <= b -> (forall x, a < x < b -> normal_weight sigma x <= u) ->
  0 <= normal_mass sigma a b <= u * (b - a).
Proof.
  intros Hab Hu.
  pose proof (RiemannInt_const_bound (l := 0) (u := u)
    (weight_integrable sigma a b) Hab) as H.
  rewrite Rmult_0_l in H. apply H.
  intros x Hx. split; [left; apply weight_pos | by apply Hu].
Qed.

Lemma mass_core (T : R) :
  1 <= T -> 2 * normal_weight sigma 1 <= normal_mass sigma (- T) T.
Proof.
  intros HT.
  rewrite <- (mass_chasles (- T) (- 1) T), <- (mass_chasles (- 1) 1 T).
  destruct (mass_bounds (- T) (- 1) 1) as [H1 _];
    [lra | intros; apply weight_le_1; done |].
  destruct (mass_bounds 1 T 1) as [H2 _];
    [lra | intros; apply weight_le_1; done |].
  pose proof (RiemannInt_const_bound (l := normal_weight sigma 1) (u := 1)
    (weight_integrable sigma (- 1) 1)) as H3.
  destruct H3 as [H3 _]; [lra | | unfold normal_mass in *; lra].
  intros x Hx. split; [|by apply weight_le_1].
  apply weight_decreasing. nra.
Qed.

(** The mass of the window shifted by [mu] differs from that of the centred
    one by at most [mu] times the weight at the near edge. *)
Lemma mass_shift (mu T : R) :
  0 < mu -> mu + 1 <= T ->
  - (mu * normal_weight sigma (T - mu))
    <= normal_mass sigma (- T - mu) (T - mu) - normal_mass sigma (- T) T
    <= mu * normal_weight sigma (T - mu).
Proof.
  intros Hmu HT.
  rewrite <- (mass_chasles (- T - mu) (- T) (T - mu)).
  rewrite <- (mass_chasles (- T) (T - mu) T).
  destruct (mass_bounds (- T - mu) (- T) (normal_weight sigma (T - mu)))
    as [L1 U1].
  { lra. }
  { intros x Hx. apply weight_decreasing. nra. }
  destruct (mass_bounds (T - mu) T (normal_weight sigma (T - mu)))
    as [L2 U2].
  { lra. }
  { intros x Hx. apply weight_decreasing. nra. }
  split; nra.
Qed.

End NormalWeight.

Section TiltedMean.

Variable sigma c k : R.
Hypothesis sigma_pos : 0 < sigma.
Hypothesis c_pos : 0 < c.
Hypothesis k_pos : 0 < k.

Lemma tilted_continuous :
  continuity (fun x => k * exp (c * x) * normal_weight sigma x).
Proof. unfold normal_weight. reg. Qed.

Lemma shifted_continuous (mu : R) :
  continuity (fun x => normal_weight sigma (x - mu)).
Proof. unfold normal_weight. reg. Qed.

Lemma scaled_shifted_continuous (K mu : R) :
  continuity (fun x => K * normal_weight sigma (x - mu)).
Proof. unfold normal_weight. reg. Qed.

(** The weighted integral of [k * exp (c x)] over [-T, T]. *)
Lemma tilted_integral (T : R)
    (p : Riemann_integrable
           (fun x => k * exp (c * x) * normal_weight sigma x) (- T) T) :
  0 <= T ->
  RiemannInt p
  = k * exp (c ^ 2 * sigma ^ 2 / 2)
    * normal_mass sigma (- T - c * sigma ^ 2) (T - c * sigma ^ 2).
Proof.
  intros HT.
  set (mu := c * sigma ^ 2). set (K := exp (c ^ 2 * sigma ^ 2 / 2)).
  pose (p1 := continuous_integrable _ (- T) T
                (scaled_shifted_continuous (k * K) mu)).
  pose (p2 := continuous_integrable _ (- T) T (shifted_continuous mu)).
  rewrite (RiemannInt_agree _ _ _ _ p p1) by
    (try lra; intros x; unfold K, mu;
     rewrite Rmult_assoc, (weight_tilt sigma sigma_pos c x); ring).
  rewrite (RiemannInt_scale _ (k * K) _ _ p2 p1) by lra. f_equal.
  apply (RiemannInt_translate (normal_weight sigma) mu (- T) T p2);
    [apply weight_continuous | lra].
Qed.

Lemma div_lt (x d e : R) : 0 < d -> x < e * d -> x / d < e.
Proof.
  intros Hd Hx. apply (Rmult_lt_reg_r d); [done|].
  replace (x / d * d) with x by (field; lra). done.
Qed.

Lemma div_le_mult (x d y : R) : 0 < d -> x / d <= y -> x <= y * d.
Proof.
  intros Hd Hx. replace x with (x / d * d) by (field; lra).
  apply Rmult_le_compat_r; lra.
Qed.

(** The mean of [k * exp (c n)] over normal draws [n] of scale [sigma] is
    [k * exp (c^2 sigma^2 / 2)]. *)
Theorem tilted_mean :
  normal_mean sigma (fun x => k * exp (c * x))
    (k * exp (c ^ 2 * sigma ^ 2 / 2)).
Proof.
  intros eps Heps.
  set (mu := c * sigma ^ 2). set (K := exp (c ^ 2 * sigma ^ 2 / 2)).
  assert (0 < mu) as Hmu
    by (apply Rmult_lt_0_compat; [done | by apply pow_lt]).
  assert (0 < K) as HK by apply exp_pos.
  assert (0 < sigma ^ 2) as Hs2 by (by apply pow_lt).
  set (d0 := 2 * normal_weight sigma 1).
  assert (0 < d0) as Hd0 by (pose proof (weight_pos sigma 1); unfold d0; lra).
  set (P := k * K * (mu * (2 * sigma ^ 2))).
  assert (0 < P) as HP by (unfold P; repeat apply Rmult_lt_0_compat; lra).
  exists (mu + 1 + P / (d0 * eps)). intros T HT.
  assert (0 < d0 * eps) as Hde by (by apply Rmult_lt_0_compat).
  assert (0 < P / (d0 * eps)) as HPde by (by apply Rdiv_lt_0_compat).
  exists (continuous_integrable _ (- T) T tilted_continuous).
  exists (weight_integrable sigma (- T) T).
  rewrite tilted_integral by lra. fold mu K.
  change (RiemannInt (weight_integrable sigma (- T) T))
    with (normal_mass sigma (- T) T).
  pose proof (mass_core sigma sigma_pos T ltac:(lra)) as HD. fold d0 in HD.
  pose proof (mass_shift sigma sigma_pos mu T Hmu ltac:(lra)) as [Hlo Hhi].
  set (N := normal_mass sigma (- T - mu) (T - mu)) in *.
  set (D := normal_mass sigma (- T) T) in *.
  set (t := T - mu) in *.
  assert (1 <= t) as Ht1 by (unfold t; lra).
  pose proof (weight_small sigma sigma_pos t ltac:(lra)) as Hw.
  set (B := mu * normal_weight sigma t) in *.
  assert (P <= (t - 1) * (d0 * eps)) as HPt
    by (apply div_le_mult; [done | unfold t; lra]).
  assert (k * K * B <= P / t ^ 2) as HB.
  { unfold P, B. unfold Rdiv. rewrite !Rmult_assoc.
    apply Rmult_le_compat_l; [lra|]. apply Rmult_le_compat_l; [lra|].
    apply Rmult_le_compat_l; [lra|]. unfold Rdiv in Hw. lra. }
  assert (P / t ^ 2 < eps * d0) as HPt2.
  { apply div_lt; [nra|]. nra. }
  assert (k * K * B < eps * D) as Hmain by nra.
  replace (k * K * N / D - k * K) with (k * K * (N - D) / D)
    by (field; lra).
  assert (0 < k * K) as HkK by (by apply Rmult_lt_0_compat).
  apply Rabs_def1.
  - apply div_lt; [lra|]. nra.
  - assert (- (k * K * (N - D)) / D < eps) as Hneg
      by (apply div_lt; [lra | nra]).
    unfold Rdiv in *. lra.
Qed.

End TiltedMean.

(** *** Means over normal draws *)

Lemma normal_mean_unique (sigma : R) (f : R -> R) (m1 m2 : R) :
  normal_mean sigma f m1 -> normal_mean sigma f m2 -> m1 = m2.
Proof.
  intros H1 H2. destruct (Req_dec m1 m2) as [|Hne]; [done|]. exfalso.
  assert (0 < Rabs (m1 - m2) / 2) as Heps.
  { assert (0 < Rabs (m1 - m2)) by (apply Rabs_pos_lt; lra). lra. }
  destruct (H1 _ Heps) as [T1 HT1]. destruct (H2 _ Heps) as [T2 HT2].
  destruct (HT1 (Rmax T1 T2) (Rmax_l _ _)) as (n1 & d1 & Hm1).
  destruct (HT2 (Rmax T1 T2) (Rmax_r _ _)) as (n2 & d2 & Hm2).
  rewrite (RiemannInt_P5 n2 n1), (RiemannInt_P5 d2 d1) in Hm2.
  set (r := RiemannInt n1 / RiemannInt d1) in *.
  assert (Rabs (m1 - m2) <= Rabs (r - m1) + Rabs (r - m2)) as Htri.
  { replace (m1 - m2) with ((r - m2) + - (r - m1)) by ring.
    eapply Rle_trans; [apply Rabs_triang|]. rewrite Rabs_Ropp. lra. }
  lra.
Qed.

Lemma normal_mean_ext (sigma : R) (f g : R -> R) (m : R) :
  (forall x, f x = g x) -> normal_mean sigma g m -> normal_mean sigma f m.
Proof.
  intros Hfg Hg eps Heps. destruct (Hg eps Heps) as [T0 HT0].
  exists (Rmax T0 0). intros T HT.
  assert (T0 <= T) as HT' by (pose proof (Rmax_l T0 0); lra).
  assert (0 <= T) as HT'' by (pose proof (Rmax_r T0 0); lra).
  destruct (HT0 T HT') as (n & d & Hm).
  assert (Riemann_integrable (fun x => f x * normal_weight sigma x) (- T) T)
    as n'.
  { apply (Riemann_integrable_ext
             (f := fun x => g x * normal_weight sigma x)); [|exact n].
    intros x _. by rewrite Hfg. }
  exists n', d.
  rewrite (RiemannInt_agree _ _ _ _ n' n); [done | lra |].
  intros x. by rewrite Hfg.
Qed.

Lemma ln10_gt_1 : 1 < ln 10.
Proof.
  rewrite <- (ln_exp 1). apply ln_increasing; [apply exp_pos|].
  pose proof exp_le_3. lra.
Qed.

(** The mean of one entry of the scattered array. *)
Theorem scattered_mean (sigma a : R) :
  0 < sigma -> 0 < a ->
  normal_mean sigma (scattered sigma a)
    (a * exp (sigma ^ 2 * (ln 10 ^ 2 - 1) / 2)).
Proof.
  intros Hs Ha.
  assert (0 < exp (0.5 * sigma ^ 2)) as He by apply exp_pos.
  replace (a * exp (sigma ^ 2 * (ln 10 ^ 2 - 1) / 2))
    with (a / exp (0.5 * sigma ^ 2) * exp (ln 10 ^ 2 * sigma ^ 2 / 2)).
  - apply (normal_mean_ext _ _
             (fun x => a / exp (0.5 * sigma ^ 2) * exp (ln 10 * x))).
    + intros x. rewrite scattered_exp by done.
      rewrite (Rmult_comm x). field. lra.
    + apply tilted_mean; [done | apply ln10_pos |].
      apply Rdiv_lt_0_compat; done.
  - replace (sigma ^ 2 * (ln 10 ^ 2 - 1) / 2)
      with (ln 10 ^ 2 * sigma ^ 2 / 2 + - (0.5 * sigma ^ 2)) by lra.
    rewrite exp_plus, exp_Ropp. field. lra.
Qed.

Theorem lognormal_mean_not_preserved (sigma a : R) :
  0 < sigma -> 0 < a -> ~ normal_mean sigma (scattered sigma a) a.
Proof.
  intros Hs Ha Hmean.
  pose proof (normal_mean_unique _ _ _ _ Hmean (scattered_mean sigma a Hs Ha))
    as Heq.
  assert (exp (sigma ^ 2 * (ln 10 ^ 2 - 1) / 2) = exp 0) as Hexp.
  { rewrite exp_0. apply (Rmult_eq_reg_l a); lra. }
  apply exp_inv in Hexp.
  pose proof ln10_gt_1 as HL.
  assert (0 < sigma ^ 2) as Hs2 by (by apply pow_lt).
  assert (1 < ln 10 ^ 2) as HL2 by nra.
  assert (0 < sigma ^ 2 * (ln 10 ^ 2 - 1)) as Hprod
    by (apply Rmult_lt_0_compat; lra).
  lra.
Qed.

(** C4. For a positive constant array and [sigma > 0], every entry of the
    array after [mar += noise_lognormal(mar, sigma)] and
    [mar /= exp(0.5 * sigma^2)] is the function [scattered] of its own
    normal draw, and the expected value of that entry over the draws is the
    original value times [exp(sigma^2 * (ln(10)^2 - 1) / 2)]: it is larger
    than the original value, so the correction by [exp(0.5 * sigma^2)]
    does not cancel the mean shift of the base-10 log-normal noise. *)
Theorem lognormal_correction_misses_mean (sigma a : R) (size : nat) :
  0 < sigma ->
  0 < a ->
  (forall lognoise i n,
     (i < size)%nat -> lognoise !! i = Some n ->
     scatter_mar sigma (replicate size a) lognoise !! i
     = Some (scattered sigma a n))
  /\ normal_mean sigma (scattered sigma a)
       (a * exp (sigma ^ 2 * (ln 10 ^ 2 - 1) / 2))
  /\ a < a * exp (sigma ^ 2 * (ln 10 ^ 2 - 1) / 2)
  /\ ~ normal_mean sigma (scattered sigma a) a.
Proof.
  intros Hs Ha. split_and!.
  - intros lognoise i n Hi Hn. apply scatter_mar_lookup; [|done].
    by apply lookup_replicate_2.
  - by apply scattered_mean.
  - pose proof ln10_gt_1 as HL.
    assert (0 < sigma ^ 2) as Hs2 by (by apply pow_lt).
    assert (1 < ln 10 ^ 2) as HL2 by nra.
    assert (0 < sigma ^ 2 * (ln 10 ^ 2 - 1) / 2) as Hpos.
    { apply Rdiv_lt_0_compat; [|lra]. apply Rmult_lt_0_compat; lra. }
    apply exp_increasing in Hpos. rewrite exp_0 in Hpos. nra.
  - by apply lognormal_mean_not_preserved.
Qed.

Lemma lognormal_correction_misses_mean_witness :
  (forall lognoise i n,
     (i < 3)%nat -> lognoise !! i = Some n ->
     scatter_mar 1 (replicate 3 1) lognoise !! i = Some (scattered 1 1 n))
  /\ normal_mean 1 (scattered 1 1) (1 * exp (1 ^ 2 * (ln 10 ^ 2 - 1) / 2))
  /\ 1 < 1 * exp (1 ^ 2 * (ln 10 ^ 2 - 1) / 2)
  /\ ~ normal_mean 1 (scattered 1 1) 1.
Proof.
  apply (lognormal_correction_misses_mean 1 1 3); lra.
Defined.

End LogNormalFacts.

Section ArgminFirst.

(** The scan keeps the first of several least elements. *)
Lemma argmin_from_first (l : list Q) :
  forall best ibest i,
    let k := Np.argmin_from best ibest i l in
    (k = ibest /\ forall y, y ∈ l -> best <= y)
    \/ (exists j x, k = (i + j)%nat /\ l !! j = Some x /\ x < best
                    /\ (forall y, y ∈ l -> x <= y)
                    /\ forall j' y, (j' < j)%nat -> l !! j' = Some y -> x < y).
Proof.
  induction l as [|x l IH]; intros best ibest i; simpl.
  - left. split; [reflexivity|]. intros y Hy. inversion Hy.
  - destruct (Np.Qltb x best) eqn:Hx.
    + apply Qltb_lt in Hx. right.
      destruct (IH x i (S i))
        as [[Hk Hmin] | (j & x' & Hk & Hj & Hlt & Hmin & Hfst)].
      * exists 0%nat, x. rewrite Hk, Nat.add_0_r. split_and!; try done.
        -- intros y Hy. apply elem_of_cons in Hy as [-> | Hy];
             [apply Qle_refl | by apply Hmin].
        -- intros j' y Hj'. lia.
      * exists (S j), x'. rewrite Hk. split_and!; [lia | done | lra | |].
        -- intros y Hy. apply elem_of_cons in Hy as [-> | Hy];
             [lra | by apply Hmin].
        -- intros [|j'] y Hj' Hy.
           ++ injection Hy as <-. done.
           ++ apply (Hfst j'); [lia | done].
    + apply Qltb_ge in Hx.
      destruct (IH best ibest (S i))
        as [[Hk Hmin] | (j & x' & Hk & Hj & Hlt & Hmin & Hfst)].
      * left. split; [done|].
        intros y Hy. apply elem_of_cons in Hy as [-> | Hy]; [done | by apply Hmin].
      * right. exists (S j), x'. rewrite Hk. split_and!; [lia | done | done | |].
        -- intros y Hy. apply elem_of_cons in Hy as [-> | Hy];
             [lra | by apply Hmin].
        -- intros [|j'] y Hj' Hy.
           ++ injection Hy as <-. lra.
           ++ apply (Hfst j'); [lia | done].
Qed.

(** [np.argmin] returns the first index that holds the least value. *)
Lemma argmin_first (l : list Q) :
  l <> [] ->
  exists k x, Np.argmin l = Ok k /\ l !! k = Some x
              /\ (forall y, y ∈ l -> x <= y)
              /\ forall j y, (j < k)%nat -> l !! j = Some y -> x < y.
Proof.
  destruct l as [|x0 l]; [done|]. intros _. simpl.
  destruct (argmin_from_first l x0 0%nat 1%nat)
    as [[Hk Hmin] | (j & x & Hk & Hj & Hlt & Hmin & Hfst)].
  - exists 0%nat, x0. rewrite Hk. split_and!; try done.
    + intros y Hy. apply elem_of_cons in Hy as [-> | Hy];
        [apply Qle_refl | by apply Hmin].
    + intros j y Hj. lia.
  - exists (S j), x. rewrite Hk. split_and!; try done.
    + intros y Hy. apply elem_of_cons in Hy as [-> | Hy]; [lra | by apply Hmin].
    + intros [|j'] y Hj' Hy.
      * injection Hy as <-. done.
      * apply (Hfst j'); [lia | done].
Qed.

(** An index that holds a least value with only greater values before it is
    the one [np.argmin] returns. *)
Lemma argmin_is (l : list Q) (i : nat) (v : Q) :
  l !! i = Some v ->
  (forall y, y ∈ l -> v <= y) ->
  (forall j y, (j < i)%nat -> l !! j = Some y -> v < y) ->
  Np.argmin l = Ok i.
Proof.
  intros Hi Hmin Hfst.
  destruct (argmin_first l) as (k & x & Hk & Hx & Hmin' & Hfst').
  { intros ->. done. }
  rewrite Hk. f_equal.
  destruct (lt_eq_lt_dec k i) as [[Hlt | Heq] | Hgt]; [| done |].
  - pose proof (Hfst k x Hlt Hx).
    assert (x <= v) by (apply Hmin'; by eapply list_elem_of_lookup_2).
    lra.
  - pose proof (Hfst' i v Hgt Hi).
    assert (v <= x) by (apply Hmin; by eapply list_elem_of_lookup_2).
    lra.
Qed.

End ArgminFirst.

Section DepositInMore.

(** On a non-empty grid [deposit_in] returns the first index, from the index
    nearest to [tnow] on, whose grid time is nearest to [tnow + delay]. *)
Lemma deposit_in_first_nearest (arr_t : list Q) (tnow delay : Q) :
  arr_t <> [] ->
  exists inow k tk,
    Np.argmin (map (fun t => Qabs (tnow - t)) arr_t) = Ok inow
    /\ deposit_in arr_t tnow delay = Ok k
    /\ (inow <= k)%nat
    /\ arr_t !! k = Some tk
    /\ forall j tj, (inow <= j)%nat -> arr_t !! j = Some tj ->
         Qabs (tk - (tnow + delay)) <= Qabs (tj - (tnow + delay))
         /\ ((j < k)%nat ->
             Qabs (tk - (tnow + delay)) < Qabs (tj - (tnow + delay))).
Proof.
  intros Hne. unfold deposit_in.
  destruct (argmin_spec (map (fun t => Qabs (tnow - t)) arr_t))
    as (inow & x & Hnow & Hx & _); [by apply map_nonempty|].
  pose proof (argmin_lt_length _ _ Hnow) as Hlt. rewrite length_map in Hlt.
  rewrite Hnow, bind_Ok.
  set (f := fun t => Qabs (t - tnow - delay)).
  destruct (argmin_first (map f (drop inow arr_t)))
    as (ifut & y & Hfut & Hy & Hmin & Hfst).
  { apply map_nonempty. intros Hd.
    apply (f_equal length) in Hd. rewrite length_drop in Hd. simpl in Hd. lia. }
  rewrite Hfut, bind_Ok.
  rewrite list_lookup_fmap, lookup_drop in Hy.
  destruct (arr_t !! (inow + ifut)%nat) as [tk|] eqn:Htk; [|done].
  injection Hy as <-.
  exists inow, (inow + ifut)%nat, tk. split_and!; [done | done | lia | done |].
  intros j tj Hj Htj.
  assert (map f (drop inow arr_t) !! (j - inow)%nat = Some (f tj)) as Hlook.
  { rewrite list_lookup_fmap, lookup_drop.
    replace (inow + (j - inow))%nat with j by lia. by rewrite Htj. }
  rewrite (Qabs_wd (tk - (tnow + delay)) (tk - tnow - delay)) by ring.
  rewrite (Qabs_wd (tj - (tnow + delay)) (tj - tnow - delay)) by ring.
  split.
  - apply Hmin. by eapply list_elem_of_lookup_2.
  - intros Hjk. apply (Hfst (j - inow)%nat); [lia | done].
Qed.

Lemma Qabs_cases (x : Q) :
  (0 <= x /\ Qabs x == x) \/ (x <= 0 /\ Qabs x == - x).
Proof.
  destruct (Qlt_le_dec x 0) as [Hneg | Hpos].
  - right. split; [lra|]. apply Qabs_neg. lra.
  - left. split; [done|]. by apply Qabs_pos.
Qed.

(** X1. [deposit_in] raises [ValueError] on an empty time grid. On any other
    grid it returns the first index, from the index [inow] nearest to
    [tnow] on, whose grid time is nearest to [tnow + delay]: no grid time
    from [inow] on is nearer, and those between [inow] and the result are
    farther. *)
Theorem deposit_in_nearest_future (arr_t : list Q) (tnow delay : Q) :
  (arr_t = [] -> deposit_in arr_t tnow delay = Raise ValueError)
  /\ (arr_t <> [] ->
      exists inow k tk,
        Np.argmin (map (fun t => Qabs (tnow - t)) arr_t) = Ok inow
        /\ deposit_in arr_t tnow delay = Ok k
        /\ (inow <= k)%nat
        /\ arr_t !! k = Some tk
        /\ forall j tj, (inow <= j)%nat -> arr_t !! j = Some tj ->
             Qabs (tk - (tnow + delay)) <= Qabs (tj - (tnow + delay))
             /\ ((j < k)%nat ->
                 Qabs (tk - (tnow + delay)) < Qabs (tj - (tnow + delay)))).
Proof.
  split; [by intros -> | apply deposit_in_first_nearest].
Qed.

(** X3. On an ascending grid a longer delay never deposits in an earlier
    slot. *)
Theorem deposit_in_monotone (arr_t : list Q) (tnow d1 d2 : Q) (k1 k2 : nat) :
  ascending arr_t ->
  d1 <= d2 ->
  deposit_in arr_t tnow d1 = Ok k1 ->
  deposit_in arr_t tnow d2 = Ok k2 ->
  (k1 <= k2)%nat.
Proof.
  intros Hasc Hd H1 H2.
  assert (arr_t <> []) as Hne by (intros ->; done).
  destruct (deposit_in_first_nearest arr_t tnow d1 Hne)
    as (inow & k & t1 & Hnow & Hk & Hle1 & Ht1 & Hmin1).
  rewrite H1 in Hk. injection Hk as <-.
  destruct (deposit_in_first_nearest arr_t tnow d2 Hne)
    as (inow' & k & t2 & Hnow' & Hk & Hle2 & Ht2 & Hmin2).
  rewrite H2 in Hk. injection Hk as <-.
  rewrite Hnow in Hnow'. injection Hnow' as <-.
  destruct (le_lt_dec k1 k2) as [Hok | Hlt]; [done|]. exfalso.
  destruct (Hmin1 k2 t2 Hle2 Ht2) as [_ Hstrict]. specialize (Hstrict Hlt).
  destruct (Hmin2 k1 t1 Hle1 Ht1) as [Hnear _].
  assert (t2 <= t1) as Hord
    by (eapply (ascending_le _ Hasc k2 k1); [lia | done | done]).
  destruct (Qabs_cases (t1 - (tnow + d1))) as [[? E1] | [? E1]];
  destruct (Qabs_cases (t2 - (tnow + d1))) as [[? E2] | [? E2]];
  destruct (Qabs_cases (t1 - (tnow + d2))) as [[? E3] | [? E3]];
  destruct (Qabs_cases (t2 - (tnow + d2))) as [[? E4] | [? E4]];
  rewrite E1, E2 in Hstrict; rewrite E3, E4 in Hnear; lra.
Qed.

(** X2. With no delay, a deposit made at a time of the grid lands in the
    slot of that time (the first one, should the time occur twice). *)
Theorem deposit_in_zero_delay (arr_t : list Q) (i : nat) (t : Q) :
  arr_t !! i = Some t ->
  (forall j tj, (j < i)%nat -> arr_t !! j = Some tj -> ~ tj == t) ->
  deposit_in arr_t t 0 = Ok i.
Proof.
  intros Hi Hfst. unfold deposit_in.
  rewrite (argmin_is (map (fun t' => Qabs (t - t')) arr_t) i (Qabs (t - t))).
  - rewrite bind_Ok.
    rewrite (argmin_is (map (fun t' => Qabs (t' - t - 0)) (drop i arr_t))
               0%nat (Qabs (t - t - 0))).
    + rewrite bind_Ok. by rewrite Nat.add_0_r.
    + rewrite list_lookup_fmap, lookup_drop, Nat.add_0_r. by rewrite Hi.
    + intros y Hy. apply list_elem_of_fmap in Hy as (t' & -> & _).
      rewrite (Qabs_wd (t - t - 0) 0) by ring. apply Qabs_nonneg.
    + intros j y Hj. lia.
  - rewrite list_lookup_fmap. by rewrite Hi.
  - intros y Hy. apply list_elem_of_fmap in Hy as (t' & -> & _).
    rewrite (Qabs_wd (t - t) 0) by ring. apply Qabs_nonneg.
  - intros j y Hj Hy. rewrite list_lookup_fmap in Hy.
    destruct (arr_t !! j) as [tj|] eqn:Htj; [|done]. injection Hy as <-.
    rewrite (Qabs_wd (t - t) 0) by ring.
    specialize (Hfst j tj Hj Htj).
    change (Qabs 0) with 0.
    destruct (Qlt_le_dec 0 (Qabs (t - tj))) as [Hpos | Hle]; [done|].
    exfalso. apply Hfst. apply Qabs_Qle_condition in Hle. lra.
Qed.

Lemma deposit_in_zero_delay_witness : deposit_in [0; 2; 4; 6] 4 0 = Ok 2%nat.
Proof.
  apply (deposit_in_zero_delay [0; 2; 4; 6] 2 4); [reflexivity|].
  intros [|[|j]] tj Hj Hl E; [| | lia]; injection Hl as <-;
    vm_compute in E; discriminate.
Defined.

Lemma deposit_in_monotone_witness :
  exists k1 k2,
    deposit_in [0; 2; 4; 6] 3 1 = Ok k1
    /\ deposit_in [0; 2; 4; 6] 3 (5 # 2) = Ok k2
    /\ (k1 <= k2)%nat.
Proof.
  do 2 eexists. split; [vm_compute; reflexivity|].
  split; [vm_compute; reflexivity|].
  apply (deposit_in_monotone [0; 2; 4; 6] 3 1 (5 # 2));
    [reflexivity | vm_compute; discriminate | reflexivity | reflexivity].
Defined.

End DepositInMore.

Section TileTotals.

Import Expander.

Lemma column_total_cons (row : list Q) (a : list (list Q)) (j : nat) :
  column_total (row :: a) j = default 0 (row !! j) + column_total a j.
Proof. reflexivity. Qed.

Lemma column_total_app (a b : list (list Q)) (j : nat) :
  column_total (a ++ b) j == column_total a j + column_total b j.
Proof. unfold column_total. rewrite map_app. apply sum_app. Qed.

Lemma column_total_replicate (k : nat) (row : list Q) (j : nat) :
  column_total (replicate k row) j
  == inject_Z (Z.of_nat k) * default 0 (row !! j).
Proof.
  induction k as [|k IH].
  - simpl. unfold column_total. simpl. ring.
  - cbn [replicate]. rewrite column_total_cons, IH.
    rewrite Nat2Z.inj_succ, <- Z.add_1_r, inject_Z_plus. ring.
Qed.

Lemma column_total_repeat (k : nat) (a : list (list Q)) (j : nat) :
  column_total (flat_map (replicate k) a) j
  == inject_Z (Z.of_nat k) * column_total a j.
Proof.
  induction a as [|row a IH].
  - simpl. unfold column_total. simpl. ring.
  - cbn [flat_map]. rewrite column_total_app, column_total_replicate, IH.
    rewrite column_total_cons. ring.
Qed.

Lemma column_total_row_div (q : Q) (a : list (list Q)) (j : nat) :
  column_total (map (row_div q) a) j == column_total a j / q.
Proof.
  induction a as [|row a IH].
  - unfold column_total. simpl. unfold Qdiv. ring.
  - cbn [map]. rewrite !column_total_cons, IH.
    unfold row_div. rewrite list_lookup_fmap.
    destruct (row !! j) as [x|]; simpl; unfold Qdiv; ring.
Qed.

(** X4. Thinning keeps the abundances: for a whole factor [k], every column
    of [tile(arr, k, renorm=True)] has the total of the same column of
    [arr]; without [renorm] the total is multiplied by [k] (left as it is
    for [k = 0], which copies). *)
Theorem tile_renorm_conserves_totals (a : list (list Q)) (k j : nat) :
  exists a1 a2,
    tile2 a (inject_Z (Z.of_nat k)) true = Ok a1
    /\ tile2 a (inject_Z (Z.of_nat k)) false = Ok a2
    /\ column_total a1 j == column_total a j
    /\ column_total a2 j
       == inject_Z (Z.of_nat (Nat.max 1 k)) * column_total a j.
Proof.
  unfold tile2.
  destruct (le_lt_dec k 1) as [Hk | Hk].
  - exists a, a. rewrite !tile_rows_copy by done.
    split_and!; [done | done | reflexivity |].
    replace (Nat.max 1 k) with 1%nat by lia. change (inject_Z (Z.of_nat 1)) with 1.
    ring.
  - do 2 eexists. rewrite !tile_rows_repeat by lia.
    split_and!; [reflexivity | reflexivity | |].
    + rewrite column_total_row_div, column_total_repeat.
      field. change 0 with (inject_Z 0). rewrite inject_Z_injective. lia.
    + rewrite column_total_repeat.
      by replace (Nat.max 1 k) with k by lia.
Qed.

End TileTotals.

Section HistoryStoreAccepts.

Import Expander HistoryStore Inputs.








End HistoryStoreAccepts.

Section ClusterDraw.

Import Stochastic StochasticInputs.

Lemma ascending_cons (a b : Q) (l : list Q) :
  ascending (a :: b :: l) <-> a <= b /\ ascending (b :: l).
Proof.
  unfold ascending.
  change (Np.diff (a :: b :: l)) with ((b - a) :: Np.diff (b :: l)).
  cbn [forallb]. rewrite andb_true_iff, Qle_bool_iff. split; intros [? ?]; split;
    try done; lra.
Qed.

Lemma ascending_from_head (a : Q) (l : list Q) :
  ascending (a :: l) -> forall y, y ∈ l -> a <= y.
Proof.
  intros Hasc y Hy. apply list_elem_of_lookup in Hy as [j Hj].
  eapply (ascending_le _ Hasc 0%nat (S j)); [lia | done | done].
Qed.

Lemma ascending_tail (a : Q) (l : list Q) : ascending (a :: l) -> ascending l.
Proof.
  destruct l as [|b l]; [done|]. intros H. by apply ascending_cons in H as [_ ?].
Qed.

(** A point of the segment from [(x0, f0)] to [(x1, f1)] is not below a
    lower bound of [f0] and [f1], nor above an upper bound. *)
Lemma segment_ge (x x0 x1 f0 f1 lo : Q) :
  x0 <= x -> x < x1 -> lo <= f0 -> lo <= f1 ->
  lo <= (f1 - f0) / (x1 - x0) * (x - x0) + f0.
Proof.
  intros Hx0 Hx1 Hl0 Hl1.
  assert (0 < x1 - x0) as Hd by lra.
  assert ((f1 - f0) / (x1 - x0) * (x - x0) + f0
          == (f1 * (x - x0) + f0 * (x1 - x)) / (x1 - x0)) as ->
    by (field; lra).
  apply Qle_shift_div_l; [done|].
  assert (lo * (x - x0) <= f1 * (x - x0))
    by (apply Qmult_le_compat_r; lra).
  assert (lo * (x1 - x) <= f0 * (x1 - x))
    by (apply Qmult_le_compat_r; lra).
  lra.
Qed.

Lemma segment_le (x x0 x1 f0 f1 hi : Q) :
  x0 <= x -> x < x1 -> f0 <= hi -> f1 <= hi ->
  (f1 - f0) / (x1 - x0) * (x - x0) + f0 <= hi.
Proof.
  intros Hx0 Hx1 Hh0 Hh1.
  assert (0 < x1 - x0) as Hd by lra.
  assert ((f1 - f0) / (x1 - x0) * (x - x0) + f0
          == (f1 * (x - x0) + f0 * (x1 - x)) / (x1 - x0)) as ->
    by (field; lra).
  apply Qle_shift_div_r; [done|].
  assert (f1 * (x - x0) <= hi * (x - x0))
    by (apply Qmult_le_compat_r; lra).
  assert (f0 * (x1 - x) <= hi * (x1 - x))
    by (apply Qmult_le_compat_r; lra).
  lra.
Qed.

(** The scan never leaves the range of the values it interpolates. *)
Lemma interp_scan_ge (x lo : Q) (xp : list Q) :
  forall fp x0 f0,
    x0 <= x -> lo <= f0 -> (forall f, f ∈ fp -> lo <= f) ->
    lo <= Np.interp_scan x x0 f0 xp fp.
Proof.
  induction xp as [|x1 xp IH]; intros fp x0 f0 Hx Hf0 Hfp; [done|].
  destruct fp as [|f1 fp]; [done|]. cbn [Np.interp_scan].
  assert (lo <= f1) as Hf1 by (apply Hfp; left).
  destruct (Np.Qltb x x1) eqn:Hlt.
  - apply Qltb_lt in Hlt. by apply segment_ge.
  - apply Qltb_ge in Hlt. apply IH; [done | done |].
    intros f Hf. apply Hfp. by right.
Qed.

Lemma interp_scan_le (x hi : Q) (xp : list Q) :
  forall fp x0 f0,
    x0 <= x -> f0 <= hi -> (forall f, f ∈ fp -> f <= hi) ->
    Np.interp_scan x x0 f0 xp fp <= hi.
Proof.
  induction xp as [|x1 xp IH]; intros fp x0 f0 Hx Hf0 Hfp; [done|].
  destruct fp as [|f1 fp]; [done|]. cbn [Np.interp_scan].
  assert (f1 <= hi) as Hf1 by (apply Hfp; left).
  destruct (Np.Qltb x x1) eqn:Hlt.
  - apply Qltb_lt in Hlt. by apply segment_le.
  - apply Qltb_ge in Hlt. apply IH; [done | done |].
    intros f Hf. apply Hfp. by right.
Qed.

(** The scan does not decrease in [x] when the values ascend. *)
Lemma interp_scan_monotone (a b : Q) (xp : list Q) :
  a <= b ->
  forall fp x0 f0,
    x0 <= a -> ascending (f0 :: fp) ->
    Np.interp_scan a x0 f0 xp fp <= Np.interp_scan b x0 f0 xp fp.
Proof.
  intros Hab. induction xp as [|x1 xp IH]; intros fp x0 f0 Hx Hasc;
    [apply Qle_refl|].
  destruct fp as [|f1 fp]; [apply Qle_refl|]. cbn [Np.interp_scan].
  apply ascending_cons in Hasc as [Hf Hasc].
  destruct (Np.Qltb a x1) eqn:Ha, (Np.Qltb b x1) eqn:Hb.
  - apply Qltb_lt in Ha, Hb.
    assert (0 <= (f1 - f0) / (x1 - x0)) as Hslope
      by (apply Qle_shift_div_l; lra).
    assert ((f1 - f0) / (x1 - x0) * (a - x0)
            <= (f1 - f0) / (x1 - x0) * (b - x0)).
    { rewrite !(Qmult_comm ((f1 - f0) / (x1 - x0))).
      apply Qmult_le_compat_r; lra. }
    lra.
  - apply Qltb_lt in Ha. apply Qltb_ge in Hb.
    assert ((f1 - f0) / (x1 - x0) * (a - x0) + f0 <= f1) as Hup
      by (apply segment_le; lra).
    assert (f1 <= Np.interp_scan b x1 f1 xp fp) as Hlow.
    { apply interp_scan_ge; [done | apply Qle_refl |].
      by apply ascending_from_head. }
    lra.
  - apply Qltb_ge in Ha. apply Qltb_lt in Hb. lra.
  - apply Qltb_ge in Ha. by apply IH.
Qed.

(** X6. With ascending tables, the mass proposed for a cluster,
    [np.interp(r, tab_cdf, tab_Mcl)], lies between the first and the last
    tabulated mass whatever [r] is drawn, and of two draws the larger never
    proposes the smaller cluster. *)
Theorem cluster_mass_draw (e : Engine) (d1 d2 : Draw) (M1 M2 : Q) :
  ascending (tab_cdf e) ->
  ascending (tab_Mcl e) ->
  Np.interp (rand d1) (tab_cdf e) (tab_Mcl e) = Ok M1 ->
  Np.interp (rand d2) (tab_cdf e) (tab_Mcl e) = Ok M2 ->
  (exists m0 m1, head (tab_Mcl e) = Some m0 /\ last (tab_Mcl e) = Some m1
                 /\ m0 <= M1 <= m1)
  /\ (rand d1 <= rand d2 -> M1 <= M2).
Proof.
  unfold Np.interp. intros _ Hasc.
  destruct (negb (length (tab_cdf e) =? length (tab_Mcl e))%nat); [done|].
  destruct (tab_cdf e) as [|x0 xp]; [done|].
  destruct (tab_Mcl e) as [|f0 fp] eqn:Hfp; [done|].
  assert (exists m1, last (f0 :: fp) = Some m1
                     /\ forall f, f ∈ f0 :: fp -> f <= m1) as (m1 & Hlast & Hmax).
  { destruct (last (f0 :: fp)) as [m1|] eqn:Hl; [|by apply last_None in Hl].
    exists m1. split; [done|]. intros f Hin.
    apply list_elem_of_lookup in Hin as [j Hj].
    rewrite last_lookup in Hl.
    eapply (ascending_le _ Hasc j); [|done|done].
    apply lookup_lt_Some in Hj. simpl in *. lia. }
  intros H1 H2. split.
  - exists f0, m1. split_and!; [done | done | |].
    + destruct (Qle_bool (rand d1) x0) eqn:Hc; injection H1 as <-;
        [apply Qle_refl|].
      apply interp_scan_ge; [| apply Qle_refl | by apply ascending_from_head].
      apply not_true_iff_false in Hc. rewrite Qle_bool_iff in Hc. lra.
    + destruct (Qle_bool (rand d1) x0) eqn:Hc; injection H1 as <-;
        [apply Hmax; left|].
      apply interp_scan_le; [| apply Hmax; left | intros f Hf; apply Hmax; by right].
      apply not_true_iff_false in Hc. rewrite Qle_bool_iff in Hc. lra.
  - intros Hr.
    destruct (Qle_bool (rand d1) x0) eqn:Hc1; injection H1 as <-;
    destruct (Qle_bool (rand d2) x0) eqn:Hc2; injection H2 as <-.
    + apply Qle_refl.
    + apply interp_scan_ge; [| apply Qle_refl | by apply ascending_from_head].
      apply not_true_iff_false in Hc2. rewrite Qle_bool_iff in Hc2. lra.
    + apply Qle_bool_iff in Hc2.
      apply not_true_iff_false in Hc1. rewrite Qle_bool_iff in Hc1. lra.
    + apply interp_scan_monotone; [done | | done].
      apply not_true_iff_false in Hc1. rewrite Qle_bool_iff in Hc1. lra.
Qed.

Lemma cluster_mass_draw_witness :
  exists M1 M2,
    Np.interp (rand toy_draw) (tab_cdf (toy_engine 0 false false 0))
      (tab_Mcl (toy_engine 0 false false 0)) = Ok M1
    /\ Np.interp (3 # 4) (tab_cdf (toy_engine 0 false false 0))
         (tab_Mcl (toy_engine 0 false false 0)) = Ok M2
    /\ (exists m0 m1,
          head (tab_Mcl (toy_engine 0 false false 0)) = Some m0
          /\ last (tab_Mcl (toy_engine 0 false false 0)) = Some m1
          /\ m0 <= M1 <= m1)
    /\ (rand toy_draw <= 3 # 4 -> M1 <= M2).
Proof.
  do 2 eexists. split; [vm_compute; reflexivity|].
  split; [vm_compute; reflexivity|].
  apply (cluster_mass_draw (toy_engine 0 false false 0) toy_draw
           {| rand := 3 # 4; draw_stars := []; poisson := 0; draw_delays := [] |});
    vm_compute; reflexivity.
Defined.

End ClusterDraw.

Section StochasticMore.

Import Stochastic StochasticSpec StochasticTotals StochasticInputs.

(** Supernova feedback in a mode other than 1 and 2 leaves the accumulator
    alone; mode 0 counts the massive stars at once and any further value
    counts nothing. *)
Lemma sne_feedback_immediate (e : Engine) (lc : Locals) (d : Draw)
    (N_MS : nat) (s : Loop) (n : Q) (sn : list Q) :
  pop_delay_sne_feedback (pf e) <> 1%Z ->
  pop_delay_sne_feedback (pf e) <> 2%Z ->
  sne_feedback e lc d N_MS s = Ok (n, sn) ->
  sn = arr_SN s
  /\ (pop_delay_sne_feedback (pf e) = 0%Z -> n = N_SN_0 s + of_nat N_MS)
  /\ (pop_delay_sne_feedback (pf e) <> 0%Z -> n = N_SN_0 s).
Proof.
  unfold sne_feedback. intros H1 H2.
  destruct (Z.eqb_spec (pop_delay_sne_feedback (pf e)) 0) as [E0 | E0].
  { intros [= <- <-]. done. }
  destruct (Z.eqb_spec (pop_delay_sne_feedback (pf e)) 1) as [E1 | E1]; [done|].
  destruct (Z.eqb_spec (pop_delay_sne_feedback (pf e)) 2) as [E2 | E2]; [done|].
  intros [= <- <-]. done.
Qed.

Lemma immediate_step (e : Engine) (lc : Locals) (d : Draw) (s s' : Loop) :
  pop_delay_sne_feedback (pf e) <> 1%Z ->
  pop_delay_sne_feedback (pf e) <> 2%Z ->
  cluster e lc d s = Ok (Next s') ->
  arr_SN s' = arr_SN s
  /\ ct s' = S (ct s)
  /\ (pop_delay_sne_feedback (pf e) = 0%Z -> pop_sample_imf (pf e) = false ->
      N_SN_0 s' == N_SN_0 s + of_nat (poisson d))
  /\ (pop_delay_sne_feedback (pf e) <> 0%Z -> N_SN_0 s' = N_SN_0 s).
Proof.
  intros H1 H2 Hstep.
  destruct (cluster_next e lc d s s' Hstep)
    as (Mc & N_MS & hist & imf1 & _ & _ & Hcount & _ & Hct & Hcases).
  destruct Hcases as [(-> & _ & _ & HN & _ & Hsn) | (Hn & Hsn & _)].
  - split_and!; try done. intros _ Himf.
    rewrite <- (count_massive_poisson e d Mc _ _ _ _ Himf Hcount), HN.
    rewrite of_nat_0. ring.
  - destruct (sne_feedback_immediate e lc d N_MS s _ _ H1 H2 Hsn)
      as (Hacc & Hzero & Hother).
    split_and!; try done. intros E0 Himf.
    rewrite (Hzero E0), (count_massive_poisson e d Mc _ _ _ _ Himf Hcount).
    reflexivity.
Qed.

Lemma immediate_call (e : Engine) (lc : Locals) :
  pop_delay_sne_feedback (pf e) <> 1%Z ->
  pop_delay_sne_feedback (pf e) <> 2%Z ->
  forall draws s s',
    final_state (clusters e lc draws s) = Some s' ->
    arr_SN s' = arr_SN s
    /\ (ct s <= ct s')%nat
    /\ (pop_delay_sne_feedback (pf e) = 0%Z -> pop_sample_imf (pf e) = false ->
        N_SN_0 s' == N_SN_0 s + drawn draws (ct s' - ct s))
    /\ (pop_delay_sne_feedback (pf e) <> 0%Z -> N_SN_0 s' = N_SN_0 s).
Proof.
  intros H1 H2.
  assert (forall draws s, drawn draws (ct s - ct s) == 0) as Hzero.
  { intros draws s. rewrite Nat.sub_diag. unfold drawn. by rewrite take_0. }
  assert (forall draws s, arr_SN s = arr_SN s
    /\ (ct s <= ct s)%nat
    /\ (pop_delay_sne_feedback (pf e) = 0%Z -> pop_sample_imf (pf e) = false ->
        N_SN_0 s == N_SN_0 s + drawn draws (ct s - ct s))
    /\ (pop_delay_sne_feedback (pf e) <> 0%Z -> N_SN_0 s = N_SN_0 s)) as Hstay.
  { intros draws s. split_and!; try done. intros _ _. rewrite Hzero. ring. }
  induction draws as [|d draws IH]; intros s s'; cbn [clusters].
  - destruct (Np.Qltb _ _); intros [= <-]; apply Hstay.
  - destruct (Np.Qltb _ _); [|intros [= <-]; apply Hstay].
    destruct (cluster e lc d s) as [[s1|s1]|x] eqn:Hstep; [| |done].
    + intros Hfin. destruct (IH s1 s' Hfin) as (Hacc & Hle & Hcount & Hnone).
      destruct (immediate_step e lc d s s1 H1 H2 Hstep)
        as (Hacc1 & Hct & Hcount1 & Hnone1).
      split_and!; [congruence | lia | | ].
      * intros E0 Himf.
        replace (ct s' - ct s)%nat with (S (ct s' - ct s1)) by lia.
        rewrite drawn_cons, (Hcount E0 Himf), (Hcount1 E0 Himf). ring.
      * intros E0. rewrite (Hnone E0). by apply Hnone1.
    + intros [= <-]. apply cluster_break in Hstep as ->. apply Hstay.
Qed.

(** X7. Unless [pop_delay_sne_feedback] is 1 or 2, a call of [_gen_stars]
    never writes the accumulator [_arr_SN]. In mode 0 with the sampled IMF
    off the immediate count it ends with is the number of massive stars
    drawn for the clusters formed; for any value other than 0, 1 and 2 no
    supernova is counted at all. *)
Theorem immediate_feedback_leaves_accumulator (e : Engine) (sn0 : list Q)
    (i : nat) (Mh : Q) (draws : list Draw) (s' : Loop) :
  pop_delay_sne_feedback (pf e) <> 1%Z ->
  pop_delay_sne_feedback (pf e) <> 2%Z ->
  final_state (gen_stars e sn0 i Mh draws) = Some s' ->
  arr_SN s' = sn0
  /\ (pop_delay_sne_feedback (pf e) = 0%Z -> pop_sample_imf (pf e) = false ->
      N_SN_0 s' == drawn draws (ct s'))
  /\ (pop_delay_sne_feedback (pf e) <> 0%Z -> N_SN_0 s' = 0).
Proof.
  intros H1 H2. unfold gen_stars.
  destruct (locals e sn0 i Mh) as [lc|x]; [|done].
  intros Hfin.
  destruct (immediate_call e lc H1 H2 draws (start e sn0) s' Hfin)
    as (Hacc & _ & Hcount & Hnone).
  cbn [start arr_SN ct N_SN_0] in *. split_and!; [done | |done].
  intros E0 Himf. rewrite (Hcount E0 Himf), Nat.sub_0_r. ring.
Qed.

Lemma immediate_feedback_leaves_accumulator_witness :
  exists s',
    final_state (gen_stars (toy_engine 0 false false 0) [0; 0; 0; 0] 0
                   (10 ^ 9) [toy_draw]) = Some s'
    /\ arr_SN s' = [0; 0; 0; 0]
    /\ (pop_delay_sne_feedback (pf (toy_engine 0 false false 0)) = 0%Z ->
        pop_sample_imf (pf (toy_engine 0 false false 0)) = false ->
        N_SN_0 s' == drawn [toy_draw] (ct s'))
    /\ (pop_delay_sne_feedback (pf (toy_engine 0 false false 0)) <> 0%Z ->
        N_SN_0 s' = 0).
Proof.
  eexists. split; [vm_compute; reflexivity|].
  apply (immediate_feedback_leaves_accumulator (toy_engine 0 false false 0)
           [0; 0; 0; 0] 0 (10 ^ 9) [toy_draw]).
  - discriminate.
  - discriminate.
  - vm_compute. reflexivity.
Defined.

Lemma formed_cons (e : Engine) (d : Draw) (draws : list Draw) (n : nat) :
  formed e (d :: draws) (S n) = proposed e d + formed e draws n.
Proof. reflexivity. Qed.

(** Over a call the stellar mass grows by the masses proposed by the draws
    of the clusters formed, one draw per cluster. *)
Lemma formed_call (e : Engine) (lc : Locals) :
  forall draws s s',
    final_state (clusters e lc draws s) = Some s' ->
    (ct s <= ct s')%nat
    /\ (ct s' - ct s <= length draws)%nat
    /\ Ms s' == Ms s + formed e draws (ct s' - ct s)
    /\ (clusters e lc draws s = Starved s' ->
        (ct s' - ct s)%nat = length draws).
Proof.
  assert (forall draws s, formed e draws (ct s - ct s) == 0) as Hzero.
  { intros draws s. rewrite Nat.sub_diag. unfold formed. by rewrite take_0. }
  induction draws as [|d draws IH]; intros s s'; cbn [clusters].
  - destruct (Np.Qltb _ _); intros [= <-];
      (split_and!; [lia | simpl; lia | rewrite Hzero; ring | ]);
      [intros _; simpl; lia | done].
  - destruct (Np.Qltb _ _);
      [|intros [= <-]; split_and!; [lia | lia | rewrite Hzero; ring | done]].
    destruct (cluster e lc d s) as [[s1|s1]|x] eqn:Hstep; [| |done].
    + intros Hfin. destruct (IH s1 s' Hfin) as (Hle & Hlen & Htot & Hstarved).
      destruct (cluster_next e lc d s s1 Hstep)
        as (Mc & N_MS & hist & imf1 & HMc & _ & _ & HMs & Hct & _).
      assert (proposed e d = Mc) as Hprop by (unfold proposed; by rewrite HMc).
      split_and!; [lia | simpl; lia | |].
      * replace (ct s' - ct s)%nat with (S (ct s' - ct s1)) by lia.
        rewrite formed_cons, Htot, HMs, Hprop. ring.
      * intros Hst. specialize (Hstarved Hst). simpl. lia.
    + intros [= <-]. apply cluster_break in Hstep as ->.
      split_and!; [lia | lia | rewrite Hzero; ring | done].
Qed.

(** X8. The stellar mass [_gen_stars] returns is the total of the masses
    proposed by its first [ct] draws, [ct] being the number of clusters
    formed: every pass that forms a cluster consumes one draw and adds its
    whole proposed mass, whether or not the cluster holds a massive star. *)
Theorem stellar_mass_is_cluster_total (e : Engine) (sn0 : list Q) (i : nat)
    (Mh : Q) (draws : list Draw) (s' : Loop) :
  final_state (gen_stars e sn0 i Mh draws) = Some s' ->
  (ct s' <= length draws)%nat
  /\ Ms s' == formed e draws (ct s')
  /\ (gen_stars e sn0 i Mh draws = Starved s' -> ct s' = length draws).
Proof.
  unfold gen_stars. destruct (locals e sn0 i Mh) as [lc|x]; [|done].
  intros Hfin.
  destruct (formed_call e lc draws (start e sn0) s' Hfin)
    as (_ & Hlen & Htot & Hst).
  cbn [start ct Ms] in *. rewrite Nat.sub_0_r in *.
  split_and!; [done | rewrite Htot; ring | done].
Qed.

Lemma stellar_mass_is_cluster_total_witness :
  exists s',
    final_state (gen_stars (toy_engine 0 false false 0) [0; 0; 0; 0] 0
                   (10 ^ 9) [toy_draw; toy_draw]) = Some s'
    /\ (ct s' <= length [toy_draw; toy_draw])%nat
    /\ Ms s' == formed (toy_engine 0 false false 0) [toy_draw; toy_draw] (ct s')
    /\ (gen_stars (toy_engine 0 false false 0) [0; 0; 0; 0] 0
          (10 ^ 9) [toy_draw; toy_draw] = Starved s' ->
        ct s' = length [toy_draw; toy_draw]).
Proof.
  eexists. split; [vm_compute; reflexivity|].
  apply (stellar_mass_is_cluster_total (toy_engine 0 false false 0)
           [0; 0; 0; 0] 0 (10 ^ 9) [toy_draw; toy_draw]).
  vm_compute. reflexivity.
Defined.

Lemma zip_with_twice {A B : Type} (f g : A -> B -> A) (a : list A) :
  forall h, zip_with f (zip_with g a h) h
            = zip_with (fun x n => f (g x n) n) a h.
Proof.
  induction a as [|x a IH]; intros [|n h]; simpl; try done. by rewrite IH.
Qed.

(** The histogram a pass adds to [imf] after the count of massive stars. *)
Lemma cluster_imf (e : Engine) (lc : Locals) (d : Draw) (s s' : Loop) :
  cluster e lc d s = Ok (Next s') ->
  exists Mc N_MS hist imf1,
    Np.interp (rand d) (tab_cdf e) (tab_Mcl e) = Ok Mc
    /\ count_massive e d Mc (imf s) = Ok (N_MS, hist, imf1)
    /\ match hist with Some h => add_hist imf1 h | None => Ok imf1 end
       = Ok (imf s').
Proof.
  unfold cluster.
  destruct (Np.interp (rand d) (tab_cdf e) (tab_Mcl e)) as [Mc|x] eqn:HMc; [|done].
  rewrite bind_Ok.
  destruct (Qle_bool (Mg lc) (Ms s + Mc + Mw s)) eqn:Hbreak; [done|].
  destruct (count_massive e d Mc (imf s)) as [[[N_MS hist] imf1]|x] eqn:Hcount;
    [|done].
  rewrite bind_Ok.
  destruct (match hist with Some h => add_hist imf1 h | None => Ok imf1 end)
    as [imf2|x] eqn:Himf2; [|done].
  rewrite bind_Ok.
  destruct (N_MS =? 0)%nat; [intros [= <-]; by exists Mc, N_MS, hist, imf1|].
  destruct (sne_feedback e lc d N_MS s) as [[n_sn_0 sn]|x]; [|done].
  rewrite bind_Ok.
  destruct (negb (pop_feedback_rad (pf e)));
    [intros [= <-]; by exists Mc, N_MS, hist, imf1|].
  destruct (rad_feedback e lc N_MS s) as [[e_uv mw_rad]|x]; [|done].
  rewrite bind_Ok. intros [= <-]. by exists Mc, N_MS, hist, imf1.
Qed.

(** X9. With the sampled IMF, every pass that forms a cluster adds the
    histogram of the cluster's stars to [imf] twice (lines 781 and 803);
    without it [imf] stays as it is. *)
Theorem sampled_imf_counted_twice (e : Engine) (lc : Locals) (d : Draw)
    (s s' : Loop) :
  cluster e lc d s = Ok (Next s') ->
  (pop_sample_imf (pf e) = false -> imf s' = imf s)
  /\ (pop_sample_imf (pf e) = true ->
      exists Mc N_MS hist imf1,
        Np.interp (rand d) (tab_cdf e) (tab_Mcl e) = Ok Mc
        /\ count_massive e d Mc (imf s) = Ok (N_MS, Some hist, imf1)
        /\ length hist = length (imf s)
        /\ imf s'
           = zip_with (fun x n => x + of_nat n + of_nat n) (imf s) hist).
Proof.
  intros Hstep.
  destruct (cluster_imf e lc d s s' Hstep)
    as (Mc & N_MS & hist & imf1 & HMc & Hcount & Himf2).
  pose proof Hcount as Hcount'. unfold count_massive in Hcount'.
  split; intros Hsample; rewrite Hsample in Hcount'.
  - destruct (Np.Qltb _ _); [done|]. injection Hcount' as <- <- <-.
    by injection Himf2.
  - destruct (Np.argmin _) as [k|x]; [|done]. rewrite bind_Ok in Hcount'.
    destruct (Np.histogram _ _) as [h|x]; [|done]. rewrite bind_Ok in Hcount'.
    unfold add_hist in Hcount' at 1.
    destruct (Nat.eqb_spec (length (imf s)) (length h)) as [Hlen|]; [|done].
    rewrite bind_Ok in Hcount'.
    destruct (Np.select _ h) as [sel|x]; [|done]. rewrite bind_Ok in Hcount'.
    injection Hcount' as <- <- <-.
    unfold add_hist in Himf2. rewrite length_zip_with in Himf2.
    destruct (Nat.eqb_spec (length (imf s) `min` length h) (length h));
      [|lia].
    injection Himf2 as <-.
    exists Mc, (foldr Nat.add 0%nat sel), h,
      (zip_with (fun x n => x + of_nat n) (imf s) h).
    split_and!; [done | done | done |].
    apply (zip_with_twice (fun x n => x + of_nat n) (fun x n => x + of_nat n)).
Qed.

Lemma sampled_imf_counted_twice_witness :
  exists s',
    cluster (toy_engine 0 true false 0) toy_locals toy_draw
      (start (toy_engine 0 true false 0) [0; 0; 0; 0]) = Ok (Next s')
    /\ (pop_sample_imf (pf (toy_engine 0 true false 0)) = false ->
        imf s' = imf (start (toy_engine 0 true false 0) [0; 0; 0; 0]))
    /\ (pop_sample_imf (pf (toy_engine 0 true false 0)) = true ->
        exists Mc N_MS hist imf1,
          Np.interp (rand toy_draw) (tab_cdf (toy_engine 0 true false 0))
            (tab_Mcl (toy_engine 0 true false 0)) = Ok Mc
          /\ count_massive (toy_engine 0 true false 0) toy_draw Mc
               (imf (start (toy_engine 0 true false 0) [0; 0; 0; 0]))
             = Ok (N_MS, Some hist, imf1)
          /\ length hist
             = length (imf (start (toy_engine 0 true false 0) [0; 0; 0; 0]))
          /\ imf s'
             = zip_with (fun x n => x + of_nat n + of_nat n)
                 (imf (start (toy_engine 0 true false 0) [0; 0; 0; 0])) hist).
Proof.
  eexists. split; [vm_compute; reflexivity|].
  apply (sampled_imf_counted_twice (toy_engine 0 true false 0) toy_locals
           toy_draw (start (toy_engine 0 true false 0) [0; 0; 0; 0])).
  vm_compute. reflexivity.
Defined.

End StochasticMore.

Section BatchMore.

Import HistoryStore BatchEvolver BatchSpec Inputs.

(** Running sums of values that are not negative ascend. *)
Lemma cumsum_from_ascending (l : list Q) :
  forall acc, (forall x, x ∈ l -> 0 <= x) ->
    ascending (acc :: Np.cumsum_from acc l).
Proof.
  induction l as [|x l IH]; intros acc Hpos; [done|].
  cbn [Np.cumsum_from]. apply ascending_cons. split.
  - assert (0 <= x) by (apply Hpos; left). lra.
  - apply IH. intros y Hy. apply Hpos. by right.
Qed.

Lemma cumsum_ascending (l : list Q) :
  (forall x, x ∈ l -> 0 <= x) -> ascending (0 :: Np.cumsum l).
Proof.
  destruct l as [|x l]; [done|]. intros Hpos. cbn [Np.cumsum].
  apply ascending_cons. split; [apply Hpos; left|].
  apply cumsum_from_ascending. intros y Hy. apply Hpos. by right.
Qed.

Lemma broadcast_mult_nonneg (a b c : list Q) :
  Np.broadcast Qmult a b = Ok c ->
  (forall x, x ∈ a -> 0 <= x) -> (forall y, y ∈ b -> 0 <= y) ->
  forall v, v ∈ c -> 0 <= v.
Proof.
  unfold Np.broadcast. intros Hc Ha Hb v Hv.
  assert (forall x y, x ∈ a -> y ∈ b -> 0 <= x * y) as Hxy.
  { intros x y Hx Hy. apply Qmult_le_0_compat; [by apply Ha | by apply Hb]. }
  destruct (length a =? length b)%nat.
  - injection Hc as <-. apply elem_of_lookup_zip_with in Hv
      as (i & x & y & -> & Hx & Hy).
    apply Hxy; by eapply list_elem_of_lookup_2.
  - destruct a as [|x [|x' a]].
    + destruct b as [|y [|y' b]]; [done | | done].
      injection Hc as <-. inversion Hv.
    + injection Hc as <-. apply list_elem_of_fmap in Hv as (y & -> & Hy).
      apply Hxy; [left | done].
    + destruct b as [|y [|y' b]]; [done | | done].
      injection Hc as <-.
      apply elem_of_cons in Hv as [-> | Hv]; [apply Hxy; [left | left]|].
      apply elem_of_cons in Hv as [-> | Hv];
        [apply Hxy; [right; left | left]|].
      apply list_elem_of_fmap in Hv as (x0 & -> & Hx).
      apply Hxy; [by do 2 right | left].
Qed.

Lemma timesteps_nonneg (t : list Q) : forall d, d ∈ timesteps t -> 0 <= d.
Proof.
  intros d Hd. unfold timesteps in Hd.
  apply list_elem_of_fmap in Hd as (x & -> & _).
  apply Qmult_le_0_compat; [apply Qabs_nonneg | done].
Qed.

Lemma stellar_mass_row_ascending (dt row ms : list Q) (fml : Q) :
  stellar_mass_row dt fml row = Ok ms ->
  0 <= fml ->
  (forall x, x ∈ row -> 0 <= x) ->
  (forall d, d ∈ dt -> 0 <= d) ->
  ascending ms.
Proof.
  unfold stellar_mass_row. intros Hms Hfml Hrow Hdt.
  destruct (Np.broadcast Qmult (Np.but_last row) dt) as [prod|x] eqn:Hprod;
    [|done].
  rewrite bind_Ok in Hms. injection Hms as <-.
  apply cumsum_ascending. intros v Hv.
  apply list_elem_of_fmap in Hv as (x & -> & Hx).
  apply Qmult_le_0_compat; [|done].
  apply (broadcast_mult_nonneg _ _ _ Hprod); [| done | done].
  intros y Hy. apply Hrow. unfold Np.but_last in Hy.
  apply elem_of_take in Hy as (j & Hj & _). by eapply list_elem_of_lookup_2.
Qed.

(** X10. In the deterministic batch evolver, when no entry of the
    star-formation rate that is summed is negative and the returned mass
    fraction [pop_mass_yield] is at most 1, the stellar mass of every
    trajectory starts at 0 and never decreases along the time axis. *)
Theorem stellar_mass_never_decreases (p : Params) (g : Guide)
    (halos : Histories) (res : Results) :
  gen_galaxy_histories p g halos = Ok res ->
  pop_mass_yield p <= 1 ->
  (forall row x, row ∈ SFR_when_summed p g halos -> x ∈ row -> 0 <= x) ->
  forall ms, ms ∈ res_Ms res -> ms !! 0%nat = Some 0 /\ ascending ms.
Proof.
  unfold gen_galaxy_histories. fold (SFR_when_summed p g halos).
  destruct (conserve_memory p); [done|].
  destruct (mapM_result _ (SFR_when_summed p g halos)) as [Ms|x] eqn:HMs;
    [|done].
  rewrite bind_Ok.
  destruct (quench p _ _ _) as [sfr|x]; [|done]. rewrite bind_Ok.
  intros [= <-] Hyield Hpos ms Hms. cbn [res_Ms] in Hms.
  apply mapM_result_Forall2 in HMs.
  apply list_elem_of_lookup in Hms as [i Hi].
  destruct (Forall2_lookup_r _ _ _ _ _ HMs Hi) as (row & Hrow & Hok).
  split.
  - unfold stellar_mass_row in Hok.
    destruct (Np.broadcast _ _ _); [|done]. rewrite bind_Ok in Hok.
    by injection Hok as <-.
  - eapply stellar_mass_row_ascending; [exact Hok | lra | |].
    + intros x Hx. eapply Hpos; [|done]. by eapply list_elem_of_lookup_2.
    + apply timesteps_nonneg.
Qed.

Lemma stellar_mass_never_decreases_witness :
  exists res,
    gen_galaxy_histories toy_evolver toy_guide toy_halos = Ok res
    /\ forall ms, ms ∈ res_Ms res -> ms !! 0%nat = Some 0 /\ ascending ms.
Proof.
  eexists. split; [vm_compute; reflexivity|].
  apply (stellar_mass_never_decreases toy_evolver toy_guide toy_halos).
  - vm_compute. reflexivity.
  - vm_compute. discriminate.
  - intros row x Hrow Hx. vm_compute in Hrow.
    apply list_elem_of_singleton in Hrow as ->.
    repeat (apply elem_of_cons in Hx as [-> | Hx]; [vm_compute; discriminate|]).
    inversion Hx.
Defined.

(** One gated row, quenched by a reionization redshift, is the gated row. *)
Lemma quench_row_gated (zr mmin : Q) (zs : list Q) :
  forall mh_row sfr_row,
    Forall2 Qeq
      (zip_with (fun k x => x * of_bool k)
         (zip_with (fun z m => negb (Qle_bool z zr && Np.Qltb m mmin)) zs mh_row)
         (zip_with (fun k x => x * of_bool k)
            (zip_with (fun _ m => Qle_bool mmin m) zs mh_row) sfr_row))
      (zip_with (fun k x => x * of_bool k)
         (zip_with (fun _ m => Qle_bool mmin m) zs mh_row) sfr_row).
Proof.
  induction zs as [|z zs IH]; intros [|m mh_row] [|x sfr_row]; simpl;
    try constructor; [|apply IH].
  unfold Np.Qltb. destruct (Qle_bool mmin m); simpl.
  - rewrite andb_false_r. simpl. ring.
  - ring.
Qed.

Lemma quench_rows_gated (mmin : Q) (zs : list Q) :
  forall zreion Mh sfr,
    length zreion = length Mh ->
    Forall2 (Forall2 Qeq)
      (zip_with (fun zr '(mh_row, sfr_row) =>
                   zip_with (fun k x => x * of_bool k)
                     (zip_with (fun z m =>
                        negb (Qle_bool z zr && Np.Qltb m mmin)) zs mh_row)
                     sfr_row)
         zreion
         (zip Mh (gate (fun _ m => Qle_bool mmin m) zs Mh sfr)))
      (gate (fun _ m => Qle_bool mmin m) zs Mh sfr).
Proof.
  unfold gate.
  induction zreion as [|zr zreion IH]; intros [|mh_row Mh] [|sfr_row sfr] Hlen;
    simpl in *; try done; try constructor.
  - apply quench_row_gated.
  - apply IH. lia.
Qed.

(** X11. An array of reionization redshifts in [pop_quench] changes nothing:
    the quenching factor is zero only where the halo mass is below
    [pop_Mmin], and there the star-formation rate was already set to zero
    by the [above_Mmin] factor. Whenever the evolver returns with such an
    array it returns, entry by entry, what it returns with [pop_quench]
    left at [None]. *)
Theorem array_quench_changes_nothing (p : Params) (g : Guide)
    (halos : Histories) (zreion : list Q) (res : Results) :
  pop_quench p = QuenchArray zreion ->
  gen_galaxy_histories p g halos = Ok res ->
  exists res0,
    gen_galaxy_histories (without_quench p) g halos = Ok res0
    /\ res_z res = res_z res0 /\ res_t res = res_t res0
    /\ res_Mh res = res_Mh res0 /\ res_MAR res = res_MAR res0
    /\ res_nh res = res_nh res0 /\ res_Ms res = res_Ms res0
    /\ same_values (res_SFR res) (res_SFR res0).
Proof.
  intros Hq. unfold gen_galaxy_histories.
  cbn [without_quench pop_mass_yield conserve_memory duty_off].
  destruct (conserve_memory p); [done|].
  destruct (mapM_result _ _) as [Ms|x]; [|done]. rewrite !bind_Ok.
  unfold quench at 2. cbn [without_quench pop_quench]. rewrite bind_Ok.
  unfold quench. rewrite Hq.
  destruct (length zreion =? length (map (@rev Q) (Mh halos)))%nat eqn:Hlen;
    [|done].
  change (assert true) with (Ok tt). rewrite bind_Ok.
  unfold above_Mmin. cbn [without_quench pop_Mmin].
  destruct (pop_Mmin p) as [mmin|]; [|done].
  rewrite bind_Ok. intros [= <-]. eexists. split; [reflexivity|].
  cbn [res_z res_t res_Mh res_MAR res_nh res_Ms res_SFR].
  split_and!; try done.
  apply quench_rows_gated. by apply Nat.eqb_eq.
Qed.

Lemma array_quench_changes_nothing_witness :
  exists res,
    gen_galaxy_histories reionized_evolver toy_guide toy_halos = Ok res
    /\ exists res0,
         gen_galaxy_histories (without_quench reionized_evolver) toy_guide
           toy_halos = Ok res0
         /\ res_z res = res_z res0 /\ res_t res = res_t res0
         /\ res_Mh res = res_Mh res0 /\ res_MAR res = res_MAR res0
         /\ res_nh res = res_nh res0 /\ res_Ms res = res_Ms res0
         /\ same_values (res_SFR res) (res_SFR res0).
Proof.
  eexists. split; [vm_compute; reflexivity|].
  apply (array_quench_changes_nothing reionized_evolver toy_guide toy_halos
           [1 # 2]).
  - reflexivity.
  - vm_compute. reflexivity.
Defined.

End BatchMore.

Section GateFacts.

Import HistoryStore BatchEvolver.

(** X12. The deterministic batch evolver returns no star formation below the
    minimum mass: wherever the halo mass of a trajectory at a time step is
    below [pop_Mmin] (or, without [pop_Mmin], below the virial mass at
    [pop_Tmin] at that redshift), the returned star-formation rate is zero,
    whatever the duty cycle and the quenching do. *)
Theorem no_star_formation_below_Mmin (p : Params) (g : Guide)
    (halos : Histories) (res : Results) (i j : nat) (mh_row sfr_row : list Q)
    (zj mh s : Q) :
  gen_galaxy_histories p g halos = Ok res ->
  res_Mh res !! i = Some mh_row ->
  res_SFR res !! i = Some sfr_row ->
  res_z res !! j = Some zj ->
  mh_row !! j = Some mh ->
  sfr_row !! j = Some s ->
  mh < Mmin_at p g zj ->
  s == 0.
Proof.
  unfold gen_galaxy_histories. destruct (conserve_memory p); [done|].
  destruct (mapM_result _ _) as [Ms|x]; [|done]. rewrite bind_Ok.
  destruct (quench p _ _ _) as [out|x] eqn:Hq; [|done]. rewrite bind_Ok.
  intros [= <-]. cbn [res_Mh res_SFR res_z].
  intros Hmh Hrow Hz Hm Hs Hlow.
  destruct (quench_entry _ _ _ _ _ _ _ _ _ Hq Hrow Hs)
    as (grow & y & b & Hgrow & Hy & ->).
  destruct (gate_entry _ _ _ _ _ _ _ _ Hgrow Hy)
    as (mh_row' & sfr_row' & zj' & mh' & x & Hmh' & _ & Hz' & Hm' & _ & ->).
  rewrite Hmh in Hmh'. injection Hmh' as <-.
  rewrite Hz in Hz'. injection Hz' as <-.
  rewrite Hm in Hm'. injection Hm' as <-.
  assert (above_Mmin p g zj mh = false) as ->.
  { unfold above_Mmin, Mmin_at in *. apply not_true_iff_false.
    destruct (pop_Mmin p); rewrite Qle_bool_iff; lra. }
  cbn. ring.
Qed.

End GateFacts.

Lemma no_star_formation_below_Mmin_witness :
  exists res sfr_row s,
    BatchEvolver.gen_galaxy_histories BatchSpec.reionized_evolver
      Inputs.toy_guide Inputs.toy_halos = Ok res
    /\ BatchEvolver.res_SFR res !! 0%nat = Some sfr_row
    /\ sfr_row !! 0%nat = Some s
    /\ s == 0.
Proof.
  do 3 eexists. split; [vm_compute; reflexivity|].
  split; [reflexivity|]. split; [reflexivity|].
  eapply (no_star_formation_below_Mmin BatchSpec.reionized_evolver
            Inputs.toy_guide Inputs.toy_halos _ 0 0 [1; 3] _ 1 1).
  - vm_compute. reflexivity.
  - reflexivity.
  - reflexivity.
  - reflexivity.
  - reflexivity.
  - reflexivity.
  - reflexivity.
Defined.

Section TimestampFacts.

Import Timestamps.





(** Allowing more passes does not change what the loop returns. *)
Lemma dynamical_steps_more (c : Clock) (tf : Q) (out : list Q * list Q) :
  forall n m t st sz,
    (n <= m)%nat ->
    dynamical_steps c tf n t st sz = Some out ->
    dynamical_steps c tf m t st sz = Some out.
Proof.
  induction n as [|n IH]; intros m t st sz Hnm; [done|].
  destruct m as [|m]; [lia|]. cbn [dynamical_steps].
  destruct (Np.Qltb t tf); [|done].
  destruct (Np.Qltb tf _); [done|]. apply IH. lia.
Qed.

(** The loop ends within [n + 1] passes when the time left is at most [n]
    dynamical times. *)
Lemma dynamical_steps_ends (c : Clock) (tf delta : Q) :
  0 < delta ->
  (forall z, delta <= DynamicalTime c z (10 ^ 10) / s_per_yr c) ->
  forall n t st sz,
    tf - t <= inject_Z (Z.of_nat n) * delta ->
    exists out, dynamical_steps c tf (S n) t st sz = Some out.
Proof.
  intros Hd Hdyn. induction n as [|n IH]; intros t st sz Hleft;
    cbn [dynamical_steps].
  - change (inject_Z (Z.of_nat 0)) with 0 in Hleft.
    destruct (Np.Qltb t tf) eqn:Hlt; [|by eexists].
    apply Qltb_lt in Hlt. lra.
  - destruct (Np.Qltb t tf); [|by eexists].
    destruct (Np.Qltb tf _); [by eexists|].
    apply IH.
    rewrite Nat2Z.inj_succ, <- Z.add_1_r, inject_Z_plus in Hleft.
    change (inject_Z 1) with 1 in Hleft.
    specialize (Hdyn (z_of_t c (t * s_per_yr c))). lra.
Qed.

Lemma strictly_ascending_snoc (l : list Q) (x y : Q) :
  strictly_ascending l -> last l = Some x -> x < y ->
  strictly_ascending (l ++ [y]).
Proof.
  intros Hl Hlast Hxy i a b Ha Hb.
  pose proof (lookup_lt_Some _ _ _ Hb) as Hi. rewrite length_app in Hi.
  simpl in Hi.
  rewrite lookup_app_l in Ha by lia.
  destruct (decide (S i = length l)) as [E | E].
  - rewrite lookup_app_r, E, Nat.sub_diag in Hb by lia. injection Hb as <-.
    rewrite last_lookup, <- E in Hlast. simpl in Hlast.
    rewrite Ha in Hlast. by injection Hlast as ->.
  - rewrite lookup_app_l in Hb by lia. by apply (Hl i).
Qed.

(** What the loop returns: the steps so far, extended by strictly later
    times up to the final time. *)
Lemma dynamical_steps_spec (c : Clock) (tf : Q) :
  tf = t_of_z c 0 / s_per_yr c ->
  (forall z, 0 < DynamicalTime c z (10 ^ 10) / s_per_yr c) ->
  forall n t st sz ot oz,
    dynamical_steps c tf n t st sz = Some (ot, oz) ->
    last st = Some t -> strictly_ascending st -> length sz = length st ->
    head ot = head st
    /\ strictly_ascending ot
    /\ length oz = length ot
    /\ exists tl, last ot = Some tl
         /\ (t <= tf -> tl == tf) /\ (tf <= t -> tl = t).
Proof.
  intros Htf Hdyn. induction n as [|n IH]; intros t st sz ot oz; [done|].
  cbn [dynamical_steps]. rewrite <- Htf.
  destruct (Np.Qltb t tf) eqn:Hlt.
  - apply Qltb_lt in Hlt.
    set (tdyn := DynamicalTime c (z_of_t c (t * s_per_yr c)) (10 ^ 10)
                 / s_per_yr c).
    assert (0 < tdyn) as Hpos by apply Hdyn.
    assert (forall y, st <> [] -> head (st ++ [y]) = head st) as Hhd
      by (intros y; by destruct st).
    destruct (Np.Qltb tf (t + tdyn)) eqn:Hover.
    + intros [= <- <-] Hlast Hasc Hlen.
      assert (st <> []) by (intros ->; done).
      split_and!; [by apply Hhd | | by rewrite !length_app, Hlen |].
      * by eapply strictly_ascending_snoc.
      * eexists. rewrite last_snoc. split; [done|]. split; [done | lra].
    + apply Qltb_ge in Hover. intros Hrun Hlast Hasc Hlen.
      assert (st <> []) by (intros ->; done).
      destruct (IH _ _ _ _ _ Hrun) as (Hh & Ha & Hl & tl & Htl & Hle & Hge).
      * by rewrite last_snoc.
      * eapply strictly_ascending_snoc; [done | done | lra].
      * by rewrite !length_app, Hlen.
      * split_and!; [by rewrite Hh, Hhd | done | done |].
        exists tl. split; [done|]. split; [intros _; by apply Hle | lra].
  - apply Qltb_ge in Hlt. intros [= <- <-] Hlast Hasc Hlen.
    split_and!; try done. exists t. split; [done|]. split; [lra | done].
Qed.

(** X14. With dynamical steps, when the dynamical time has a positive lower
    bound and the formation time is not after the final time, the loop ends:
    allowed enough passes, [get_timestamps] returns times that start at the
    formation time, strictly ascend and end at the final time, with one
    redshift each. *)
Theorem dynamical_steps_reach_final_time (c : Clock) (python3 : bool)
    (len : nat) (zform delta : Q) :
  0 < delta ->
  (forall z, delta <= DynamicalTime c z (10 ^ 10) / s_per_yr c) ->
  t_of_z c zform / s_per_yr c <= t_of_z c 0 / s_per_yr c ->
  exists steps_t steps_z tl enough,
    (forall passes, (enough <= passes)%nat ->
       get_timestamps c python3 len Dynamical passes zform
       = Some (Steps steps_t (Zs steps_z)))
    /\ head steps_t = Some (t_of_z c zform / s_per_yr c)
    /\ last steps_t = Some tl /\ tl == t_of_z c 0 / s_per_yr c
    /\ strictly_ascending steps_t
    /\ length steps_z = length steps_t.
Proof.
  intros Hd Hdyn Hle.
  set (t0 := t_of_z c zform / s_per_yr c) in *.
  set (tf := t_of_z c 0 / s_per_yr c) in *.
  set (n := Z.to_nat (Qceiling ((tf - t0) / delta))).
  assert (tf - t0 <= inject_Z (Z.of_nat n) * delta) as Hleft.
  { assert ((tf - t0) / delta <= inject_Z (Qceiling ((tf - t0) / delta)))
      as Hc by apply Qle_ceiling.
    assert (0 <= (tf - t0) / delta) as H0 by (apply Qle_shift_div_l; lra).
    assert (0 <= Qceiling ((tf - t0) / delta))%Z as Hz.
    { rewrite Zle_Qle. change (inject_Z 0) with 0. lra. }
    unfold n. rewrite Z2Nat.id by done.
    apply (Qmult_le_compat_r _ _ delta) in Hc; [|lra].
    assert ((tf - t0) / delta * delta == tf - t0) as E by (field; lra).
    by rewrite E in Hc. }
  destruct (dynamical_steps_ends c tf delta Hd Hdyn n t0 [t0] [zform] Hleft)
    as ([ot oz] & Hout).
  destruct (dynamical_steps_spec c tf eq_refl
              (fun z => Qlt_le_trans _ _ _ Hd (Hdyn z)) _ _ _ _ _ _ Hout)
    as (Hh & Ha & Hl & tl & Htl & Hend & _);
    [done | by intros [|i] | done |].
  exists ot, oz, tl, (S n). split_and!; try done; [|by apply Hend].
  intros passes Hp. unfold get_timestamps. fold t0 tf.
  by rewrite (dynamical_steps_more c tf _ _ _ _ _ _ Hp Hout).
Qed.

Lemma dynamical_steps_reach_final_time_witness :
  exists steps_t steps_z tl enough,
    (forall passes, (enough <= passes)%nat ->
       get_timestamps unit_clock true 0 Dynamical passes 10
       = Some (Steps steps_t (Zs steps_z)))
    /\ head steps_t = Some (t_of_z unit_clock 10 / s_per_yr unit_clock)
    /\ last steps_t = Some tl
    /\ tl == t_of_z unit_clock 0 / s_per_yr unit_clock
    /\ strictly_ascending steps_t
    /\ length steps_z = length steps_t.
Proof.
  apply (dynamical_steps_reach_final_time unit_clock true 0 10 4).
  - reflexivity.
  - intros z. vm_compute. discriminate.
  - vm_compute. discriminate.
Defined.

End TimestampFacts.

Section SetterFacts.

Import HistoryStore BatchEvolver Catalog Inputs.

Lemma forallb_false_lookup {A : Type} (f : A -> bool) (l : list A) (i : nat)
    (x : A) :
  l !! i = Some x -> f x = false -> forallb f l = false.
Proof.
  revert i. induction l as [|y l IH]; intros [|i] Hi Hf; simpl in *; try done.
  - injection Hi as ->. by rewrite Hf.
  - rewrite (IH i Hi Hf). apply andb_false_r.
Qed.

Lemma rev_lookup {A : Type} (l : list A) (i : nat) :
  (i < length l)%nat -> rev l !! i = l !! (length l - S i)%nat.
Proof. rewrite rev_alt. apply reverse_lookup. Qed.

(** A grid of two or more entries that strictly ascends does not once it is
    reversed. *)
Lemma rev_not_ascending (z : list Q) :
  (2 <= length z)%nat ->
  forallb (fun d => Np.Qltb 0 d) (Np.diff z) = true ->
  not_ascending (rev z).
Proof.
  intros Hlen Hasc. unfold not_ascending.
  destruct z as [|a [|b z]]; simpl in Hlen; try lia.
  change (Np.diff (a :: b :: z)) with ((b - a) :: Np.diff (b :: z)) in Hasc.
  cbn [forallb] in Hasc. apply andb_true_iff in Hasc as [Hab _].
  apply Qltb_lt in Hab.
  set (n := length z).
  assert (rev (a :: b :: z) !! n = Some b) as Hb.
  { rewrite rev_lookup by (simpl; lia). simpl length.
    by replace (S (S (length z)) - S n)%nat with 1%nat by lia. }
  assert (rev (a :: b :: z) !! S n = Some a) as Ha.
  { rewrite rev_lookup by (simpl; lia). simpl length.
    by replace (S (S (length z)) - S (S n))%nat with 0%nat by lia. }
  apply (forallb_false_lookup _ _ n (a - b)).
  - by apply lookup_diff.
  - apply Qltb_ge. lra.
Qed.

(** X15. The setter of [histories] stores the arrays as given unless the
    redshifts under ['z'] strictly ascend; then it stores every 1-D array
    reversed and every 2-D array reversed along its second axis. Either
    way, for a grid of two or more redshifts, the stored redshifts do not
    strictly ascend, and storing the stored dictionary again changes
    nothing. *)
Theorem histories_setter_descends (given stored : histories) (z : list Q) :
  set_histories given = Ok stored ->
  given !! "z" = Some (Arr1 z) ->
  (2 <= length z)%nat ->
  exists z',
    stored !! "z" = Some (Arr1 z')
    /\ not_ascending z'
    /\ (z' = z \/ (z' = rev z /\ stored = flip <$> given))
    /\ (not_ascending z -> stored = given)
    /\ set_histories stored = Ok stored.
Proof.
  unfold set_histories, must_flip. intros Hset Hz Hlen. rewrite Hz in Hset.
  cbn [ascends] in Hset. rewrite bind_Ok in Hset.
  destruct (forallb (fun d => Np.Qltb 0 d) (Np.diff z)) eqn:Hasc;
    injection Hset as <-.
  - exists (rev z). rewrite lookup_fmap, Hz. cbn [fmap option_fmap option_map flip].
    pose proof (rev_not_ascending z Hlen Hasc) as Hdesc.
    split_and!; [done | done | by right | |].
    + unfold not_ascending. congruence.
    + unfold not_ascending in Hdesc. cbn [ascends]. by rewrite Hdesc, bind_Ok.
  - exists z. rewrite Hz. cbn [ascends].
    split_and!; [done | done | by left | done |]. by rewrite Hasc, bind_Ok.
Qed.

Lemma histories_setter_descends_witness :
  exists stored,
    set_histories toy_histories = Ok stored
    /\ exists z',
         stored !! "z" = Some (Arr1 z')
         /\ not_ascending z'
         /\ (z' = [6; 7] \/ (z' = rev [6; 7] /\ stored = flip <$> toy_histories))
         /\ (not_ascending [6; 7] -> stored = toy_histories)
         /\ set_histories stored = Ok stored.
Proof.
  exists (flip <$> toy_histories). split; [reflexivity|].
  apply (histories_setter_descends toy_histories (flip <$> toy_histories)
           [6; 7]).
  - reflexivity.
  - reflexivity.
  - simpl. lia.
Defined.

(** The arrays the batch evolver returns are those of the halo histories,
    reversed along the time axis. *)
Lemma gen_galaxy_histories_fields (p : Params) (g : Guide) (halos : Histories)
    (res : Results) :
  gen_galaxy_histories p g halos = Ok res ->
  res_z res = rev (z halos) /\ res_t res = rev (t halos)
  /\ res_Mh res = map (@rev Q) (Mh halos)
  /\ res_nh res = map (@rev Q) (nh halos)
  /\ res_MAR res = map (@rev Q) (MAR halos).
Proof.
  unfold gen_galaxy_histories. destruct (conserve_memory p); [done|].
  destruct (mapM_result _ _) as [Ms|x]; [|done]. rewrite bind_Ok.
  destruct (quench p _ _ _) as [sfr|x]; [|done]. rewrite bind_Ok.
  by intros [= <-].
Qed.

Lemma results_dict_z (halos : Histories) (res : Results) :
  results_dict halos res !! "z" = Some (Arr1 (res_z res)).
Proof. reflexivity. Qed.


Lemma stored_as_returned (p : Params) (g : Guide) (halos : Histories)
    (res : Results) :
  forallb (fun d => Np.Qltb 0 d) (Np.diff (z halos)) = true ->
  (2 <= length (z halos))%nat ->
  gen_galaxy_histories p g halos = Ok res ->
  set_histories (results_dict halos res) = Ok (results_dict halos res).
Proof.
  intros Hasc Hlen Hres.
  destruct (gen_galaxy_histories_fields p g halos res Hres) as (Hz & _).
  unfold set_histories, must_flip. rewrite results_dict_z, Hz. cbn [ascends].
  pose proof (rev_not_ascending _ Hlen Hasc) as Hd. unfold not_ascending in Hd.
  by rewrite Hd, bind_Ok.
Qed.

(** X16. On the deterministic path the histories that end up stored are the
    results that are returned: for halo histories over two or more
    redshifts in strictly ascending order (as [_gen_halo_histories] asserts
    them), the results run in ascending time, so the setter finds the
    redshifts not ascending and reverses nothing back. *)
Theorem batch_results_stored_as_returned (p : Params) (g : Guide)
    (halos : Histories) (res : Results) :
  forallb (fun d => Np.Qltb 0 d) (Np.diff (z halos)) = true ->
  (2 <= length (z halos))%nat ->
  gen_galaxy_histories p g halos = Ok res ->
  set_histories (results_dict halos res) = Ok (results_dict halos res)
  /\ results_dict halos res !! "z" = Some (Arr1 (rev (z halos)))
  /\ not_ascending (rev (z halos)).
Proof.
  intros Hasc Hlen Hres. split_and!.
  - by eapply stored_as_returned.
  - rewrite results_dict_z.
    by destruct (gen_galaxy_histories_fields p g halos res Hres) as (-> & _).
  - by apply rev_not_ascending.
Qed.

End SetterFacts.

Lemma batch_results_stored_as_returned_witness :
  exists res,
    BatchEvolver.gen_galaxy_histories Inputs.toy_evolver Inputs.toy_guide
      Inputs.toy_halos = Ok res
    /\ Catalog.set_histories (Catalog.results_dict Inputs.toy_halos res)
       = Ok (Catalog.results_dict Inputs.toy_halos res)
    /\ Catalog.results_dict Inputs.toy_halos res !! "z"
       = Some (Catalog.Arr1 (rev (HistoryStore.z Inputs.toy_halos)))
    /\ not_ascending (rev (HistoryStore.z Inputs.toy_halos)).
Proof.
  eexists. split; [vm_compute; reflexivity|].
  apply (batch_results_stored_as_returned Inputs.toy_evolver Inputs.toy_guide
           Inputs.toy_halos).
  - reflexivity.
  - simpl. lia.
  - vm_compute. reflexivity.
Defined.

Section QueryFacts.

Import HistoryStore BatchEvolver Catalog Inputs.





End QueryFacts.


Section RateDensity.

Import Catalog.

(** The entries of an array that a mask of the same length selects. *)
Lemma select_cons {A : Type} (b : bool) (ok : list bool) (x : A)
    (l sel : list A) :
  Np.select ok l = Ok sel ->
  Np.select (b :: ok) (x :: l) = Ok (if b then x :: sel else sel).
Proof.
  unfold Np.select. cbn [length Nat.eqb].
  destruct (length ok =? length l)%nat; [|done]. intros [= <-].
  cbn [zip zip_with]. destruct b.
  - by rewrite filter_cons_True.
  - by rewrite filter_cons_False.
Qed.

Lemma select_lengths {A : Type} (ok : list bool) (l sel : list A) :
  Np.select ok l = Ok sel -> length ok = length l.
Proof.
  unfold Np.select. destruct (Nat.eqb_spec (length ok) (length l)); done.
Qed.

Lemma masked_total_weighted (ok : list bool) :
  forall sfr w,
    length ok = length sfr -> length ok = length w ->
    exists s ws,
      Np.select ok sfr = Ok s /\ Np.select ok w = Ok ws
      /\ length s = length ws
      /\ Np.sum (zip_with Qmult s ws) == weighted ok sfr w.
Proof.
  induction ok as [|b ok IH]; intros [|x sfr] [|y w] Hs Hw; simpl in Hs, Hw;
    try lia.
  - exists [], []. by split_and!.
  - destruct (IH sfr w) as (s & ws & Hsel & Hwsel & Hlen & Hsum); [lia | lia |].
    exists (if b then x :: s else s), (if b then y :: ws else ws).
    split_and!; [by apply select_cons | by apply select_cons | |].
    + destruct b; simpl; lia.
    + cbn [weighted]. destruct b; cbn [zip_with]; [rewrite sum_cons|];
        rewrite Hsum; ring.
Qed.

Lemma masked_total_spec (ok : list bool) (sfr w : list Q) (t : Q) :
  masked_total ok sfr w = Ok t ->
  length ok = length sfr /\ length ok = length w
  /\ t == weighted ok sfr w.
Proof.
  unfold masked_total. intros Ht.
  destruct (Np.select ok sfr) as [s|x] eqn:Hs; [|done]. rewrite bind_Ok in Ht.
  destruct (Np.select ok w) as [ws|x] eqn:Hws; [|done]. rewrite bind_Ok in Ht.
  pose proof (select_lengths _ _ _ Hs) as Hl1.
  pose proof (select_lengths _ _ _ Hws) as Hl2.
  destruct (masked_total_weighted ok sfr w Hl1 Hl2)
    as (s' & ws' & Hs' & Hws' & Hlen & Hsum).
  rewrite Hs in Hs'. injection Hs' as <-.
  rewrite Hws in Hws'. injection Hws' as <-.
  rewrite broadcast_same_length, bind_Ok in Ht by done.
  injection Ht as <-. done.
Qed.

Lemma masked_total_total (ok : list bool) (sfr w : list Q) :
  length ok = length sfr -> length ok = length w ->
  exists t, masked_total ok sfr w = Ok t.
Proof.
  intros Hl1 Hl2.
  destruct (masked_total_weighted ok sfr w Hl1 Hl2)
    as (s & ws & Hs & Hws & Hlen & _).
  unfold masked_total. rewrite Hs, bind_Ok, Hws, bind_Ok.
  rewrite broadcast_same_length, bind_Ok by done. by eexists.
Qed.

(** What [SFRD] reads and returns. *)
Lemma SFRD_spec (rhodot_cgs : Q) (h : histories) (z : Q) (Mmin : option Q)
    (v : Q) :
  SFRD rhodot_cgs h z Mmin = Ok v ->
  exists sfr w t,
    get_field h z "SFR" = Ok sfr /\ get_field h z "nh" = Ok w
    /\ masked_total (map (fun s => Np.Qltb 0 s) sfr) sfr w = Ok t
    /\ v = t / rhodot_cgs.
Proof.
  unfold SFRD, get_field. intros Hv.
  destruct (getitem h "z") as [zs|x]; [|done]. rewrite !bind_Ok in *.
  destruct (nearest z zs) as [iz|x]; [|done]. rewrite !bind_Ok in *.
  destruct (getitem h "SFR" ≫= _) as [sfr|x] eqn:Hsfr; [|done].
  rewrite bind_Ok in Hv.
  destruct (getitem h "nh" ≫= _) as [w|x] eqn:Hw; [|done].
  rewrite bind_Ok in Hv.
  destruct (match Mmin with Some _ => _ | None => _ end) as [ok|x]; [|done].
  rewrite bind_Ok in Hv.
  destruct (masked_total _ sfr w) as [t|x] eqn:Ht; [|done].
  rewrite bind_Ok in Hv. injection Hv as <-.
  by exists sfr, w, t.
Qed.

(** X18. [SFRD(z, Mmin)] does not depend on [Mmin]: the mask built from it is
    replaced by [sfr > 0] before it is used. What is returned is the sum of
    [SFR * nh], at the snapshot nearest to [z], over the trajectories whose
    star-formation rate is positive, divided by [rhodot_cgs]. *)
Theorem SFRD_ignores_Mmin (rhodot_cgs : Q) (h : histories) (z : Q)
    (Mmin : option Q) (v : Q) :
  SFRD rhodot_cgs h z Mmin = Ok v ->
  SFRD rhodot_cgs h z None = Ok v
  /\ exists sfr w,
       get_field h z "SFR" = Ok sfr /\ get_field h z "nh" = Ok w
       /\ length sfr = length w
       /\ v == weighted (map (fun s => Np.Qltb 0 s) sfr) sfr w / rhodot_cgs.
Proof.
  intros Hv. split.
  - revert Hv. unfold SFRD.
    destruct (getitem h "z") as [zs|x]; [|done]. rewrite !bind_Ok.
    destruct (nearest z zs) as [iz|x]; [|done]. rewrite !bind_Ok.
    destruct (getitem h "SFR" ≫= _) as [sfr|x]; [|done]. rewrite !bind_Ok.
    destruct (getitem h "nh" ≫= _) as [w|x]; [|done]. rewrite !bind_Ok.
    destruct Mmin as [m|]; [|done].
    destruct (getitem h "Mh" ≫= _) as [mh|x]; [|done]. by rewrite !bind_Ok.
  - destruct (SFRD_spec _ _ _ _ _ Hv) as (sfr & w & t & Hsfr & Hw & Ht & ->).
    destruct (masked_total_spec _ _ _ _ Ht) as (Hl1 & Hl2 & Heq).
    exists sfr, w. rewrite length_map in Hl1, Hl2.
    split_and!; [done | done | congruence |]. by rewrite Heq.
Qed.

Lemma weighted_nonneg (ok : list bool) :
  forall sfr w,
    (forall s, s ∈ sfr -> 0 <= s) -> (forall x, x ∈ w -> 0 <= x) ->
    0 <= weighted ok sfr w.
Proof.
  induction ok as [|b ok IH]; intros [|s sfr] [|x w] Hs Hw; cbn [weighted];
    try apply Qle_refl.
  assert (0 <= s * x)
    by (apply Qmult_le_0_compat; [apply Hs | apply Hw]; left).
  assert (0 <= weighted ok sfr w)
    by (apply IH; intros y Hy; [apply Hs | apply Hw]; by right).
  destruct b; lra.
Qed.

(** A mask that selects less gives no larger a total when no term is
    negative. *)
Lemma weighted_mono (f1 f2 : Q -> bool) (mh : list Q) :
  (forall m, f2 m = true -> f1 m = true) ->
  forall sfr w,
    (forall s, s ∈ sfr -> 0 <= s) -> (forall x, x ∈ w -> 0 <= x) ->
    weighted (map f2 mh) sfr w <= weighted (map f1 mh) sfr w.
Proof.
  intros Himp. induction mh as [|m mh IH]; intros [|s sfr] [|x w] Hs Hw;
    cbn [map weighted]; try apply Qle_refl.
  assert (0 <= s * x)
    by (apply Qmult_le_0_compat; [apply Hs | apply Hw]; left).
  assert (weighted (map f2 mh) sfr w <= weighted (map f1 mh) sfr w)
    by (apply IH; intros y Hy; [apply Hs | apply Hw]; by right).
  specialize (Himp m).
  destruct (f2 m), (f1 m); first [lra | by specialize (Himp eq_refl)].
Qed.

(** No mask gives more than the mask of the positive star-formation
    rates. *)
Lemma weighted_le_positive (ok : list bool) :
  forall sfr w,
    (forall s, s ∈ sfr -> 0 <= s) -> (forall x, x ∈ w -> 0 <= x) ->
    weighted ok sfr w <= weighted (map (fun s => Np.Qltb 0 s) sfr) sfr w.
Proof.
  induction ok as [|b ok IH]; intros [|s sfr] [|x w] Hs Hw;
    cbn [map weighted]; try apply Qle_refl.
  - by apply (weighted_nonneg (map (fun s => Np.Qltb 0 s) (s :: sfr))
                (s :: sfr) (x :: w)).
  - assert (0 <= s) by (apply Hs; left).
    assert (0 <= x) by (apply Hw; left).
    assert (0 <= s * x) by (by apply Qmult_le_0_compat).
    assert (weighted ok sfr w
            <= weighted (map (fun s => Np.Qltb 0 s) sfr) sfr w)
      by (apply IH; intros y Hy; [apply Hs | apply Hw]; by right).
    destruct (Np.Qltb 0 s) eqn:Hpos; destruct b; try lra.
    apply Qltb_ge in Hpos. assert (s == 0) as E by lra.
    rewrite E. lra.
Qed.

(** What [cSFRD] reads and returns. *)
Lemma cSFRD_spec (rhodot_cgs : Q) (h : histories) (z : Q) (Mh cs : list Q) :
  cSFRD rhodot_cgs h z Mh = Ok cs ->
  exists mh sfr w tot,
    get_field h z "Mh" = Ok mh /\ get_field h z "SFR" = Ok sfr
    /\ get_field h z "nh" = Ok w
    /\ SFRD rhodot_cgs h z None = Ok tot
    /\ Forall2 (fun m c =>
         exists t, masked_total (map (fun x => Qle_bool m x) mh) sfr w = Ok t
                   /\ c = t / rhodot_cgs / tot) Mh cs.
Proof.
  unfold cSFRD, get_field. intros Hcs.
  destruct (getitem h "z") as [zs|x]; [|done]. rewrite !bind_Ok in *.
  destruct (nearest z zs) as [iz|x]; [|done]. rewrite !bind_Ok in *.
  destruct (getitem h "Mh" ≫= _) as [mh|x] eqn:Hmh; [|done].
  rewrite bind_Ok in Hcs.
  destruct (getitem h "SFR" ≫= _) as [sfr|x] eqn:Hsfr; [|done].
  rewrite bind_Ok in Hcs.
  destruct (getitem h "nh" ≫= _) as [w|x] eqn:Hw; [|done].
  rewrite bind_Ok in Hcs.
  destruct (mapM_result _ Mh) as [sfrd|x] eqn:Hsfrd; [|done].
  rewrite bind_Ok in Hcs.
  destruct (SFRD rhodot_cgs h z None) as [tot|x] eqn:Htot; [|done].
  rewrite bind_Ok in Hcs. injection Hcs as <-.
  exists mh, sfr, w, tot. split_and!; try done.
  apply mapM_result_Forall2 in Hsfrd.
  apply Forall2_fmap_r. eapply Forall2_impl; [exact Hsfrd|].
  intros m c Hc. cbv beta in Hc.
  destruct (masked_total _ sfr w) as [t|x]; [|done]. rewrite bind_Ok in Hc.
  injection Hc as <-. by exists t.
Qed.

(** X19. When no star-formation rate and no abundance at the snapshot is
    negative and the total [SFRD(z)] is positive, every entry of
    [cSFRD(z, Mh)] lies between 0 and 1, and a larger lower mass bound
    never gives a larger entry. *)
Theorem cSFRD_is_a_decreasing_fraction (rhodot_cgs : Q) (h : histories)
    (z : Q) (Mh cs sfr w : list Q) (tot : Q) :
  cSFRD rhodot_cgs h z Mh = Ok cs ->
  get_field h z "SFR" = Ok sfr ->
  get_field h z "nh" = Ok w ->
  (forall s, s ∈ sfr -> 0 <= s) ->
  (forall x, x ∈ w -> 0 <= x) ->
  0 < rhodot_cgs ->
  SFRD rhodot_cgs h z None = Ok tot ->
  0 < tot ->
  length cs = length Mh
  /\ (forall c, c ∈ cs -> 0 <= c <= 1)
  /\ forall i j mi mj ci cj,
       Mh !! i = Some mi -> Mh !! j = Some mj ->
       cs !! i = Some ci -> cs !! j = Some cj ->
       mi <= mj -> cj <= ci.
Proof.
  intros Hcs Hsfr Hw Hs0 Hw0 Hrho Htot Hpos.
  destruct (cSFRD_spec _ _ _ _ _ Hcs)
    as (mh & sfr' & w' & tot' & Hmh & Hsfr' & Hw' & Htot' & Hall).
  rewrite Hsfr in Hsfr'. injection Hsfr' as <-.
  rewrite Hw in Hw'. injection Hw' as <-.
  rewrite Htot in Htot'. injection Htot' as <-.
  destruct (SFRD_spec _ _ _ _ _ Htot) as (sfr' & w' & tp & Hsfr' & Hw' & Htp & E).
  rewrite Hsfr in Hsfr'. injection Hsfr' as <-.
  rewrite Hw in Hw'. injection Hw' as <-.
  destruct (masked_total_spec _ _ _ _ Htp) as (_ & _ & Etp).
  assert (forall m c, (exists t,
            masked_total (map (fun x => Qle_bool m x) mh) sfr w = Ok t
            /\ c = t / rhodot_cgs / tot) ->
          c == weighted (map (fun x => Qle_bool m x) mh) sfr w
               / rhodot_cgs / tot) as Hval.
  { intros m c (t & Ht & ->).
    destruct (masked_total_spec _ _ _ _ Ht) as (_ & _ & ->). reflexivity. }
  assert (forall a b, a <= b -> a / rhodot_cgs / tot <= b / rhodot_cgs / tot)
    as Hdiv.
  { intros a b Hab.
    assert (0 < / rhodot_cgs) by (by apply Qinv_lt_0_compat).
    assert (0 < / tot) by (by apply Qinv_lt_0_compat).
    unfold Qdiv. apply Qmult_le_compat_r; [|lra].
    apply Qmult_le_compat_r; [done | lra]. }
  split_and!.
  - symmetry. by eapply Forall2_length.
  - intros c Hc. apply list_elem_of_lookup in Hc as [i Hi].
    destruct (Forall2_lookup_r _ _ _ _ _ Hall Hi) as (m & _ & Hm).
    rewrite (Hval m c Hm). split.
    + assert (0 == 0 / rhodot_cgs / tot) as -> by (field; lra).
      apply Hdiv. by apply weighted_nonneg.
    + assert (tot == weighted (map (fun s => Np.Qltb 0 s) sfr) sfr w
                     / rhodot_cgs) as Etot by (by rewrite E, Etp).
      assert (1 == weighted (map (fun s => Np.Qltb 0 s) sfr) sfr w
                   / rhodot_cgs / tot) as ->.
      { rewrite <- Etot. field. lra. }
      apply Hdiv. by apply weighted_le_positive.
  - intros i j mi mj ci cj Hmi Hmj Hci Hcj Hle.
    pose proof (Forall2_lookup_lr _ _ _ _ _ _ Hall Hmi Hci) as Hi.
    pose proof (Forall2_lookup_lr _ _ _ _ _ _ Hall Hmj Hcj) as Hj.
    rewrite (Hval mi ci Hi), (Hval mj cj Hj). apply Hdiv.
    apply weighted_mono; [|done|done].
    intros m Hm. apply Qle_bool_iff in Hm. apply Qle_bool_iff. lra.
Qed.

End RateDensity.

Lemma cSFRD_is_a_decreasing_fraction_witness :
  exists cs sfr w tot,
    Catalog.cSFRD 1 Catalog.toy_histories 6 [2; 20] = Ok cs
    /\ Catalog.get_field Catalog.toy_histories 6 "SFR" = Ok sfr
    /\ Catalog.get_field Catalog.toy_histories 6 "nh" = Ok w
    /\ Catalog.SFRD 1 Catalog.toy_histories 6 None = Ok tot
    /\ length cs = length [2; 20]
    /\ (forall c, c ∈ cs -> 0 <= c <= 1)
    /\ forall i j mi mj ci cj,
         [2; 20] !! i = Some mi -> [2; 20] !! j = Some mj ->
         cs !! i = Some ci -> cs !! j = Some cj ->
         mi <= mj -> cj <= ci.
Proof.
  do 4 eexists. split; [vm_compute; reflexivity|].
  split; [vm_compute; reflexivity|]. split; [vm_compute; reflexivity|].
  split; [vm_compute; reflexivity|].
  eapply (cSFRD_is_a_decreasing_fraction 1 Catalog.toy_histories 6 [2; 20]).
  - vm_compute. reflexivity.
  - vm_compute. reflexivity.
  - vm_compute. reflexivity.
  - intros s Hs.
    repeat (apply elem_of_cons in Hs as [-> | Hs]; [vm_compute; discriminate|]).
    inversion Hs.
  - intros s Hs.
    repeat (apply elem_of_cons in Hs as [-> | Hs]; [vm_compute; discriminate|]).
    inversion Hs.
  - reflexivity.
  - vm_compute. reflexivity.
  - reflexivity.
Defined.

Lemma SFRD_ignores_Mmin_witness :
  exists v,
    Catalog.SFRD 1 Catalog.toy_histories 6 (Some 20) = Ok v
    /\ Catalog.SFRD 1 Catalog.toy_histories 6 None = Ok v
    /\ exists sfr w,
         Catalog.get_field Catalog.toy_histories 6 "SFR" = Ok sfr
         /\ Catalog.get_field Catalog.toy_histories 6 "nh" = Ok w
         /\ length sfr = length w
         /\ v == weighted (map (fun s => Np.Qltb 0 s) sfr) sfr w / 1.
Proof.
  eexists. split; [vm_compute; reflexivity|].
  apply (SFRD_ignores_Mmin 1 Catalog.toy_histories 6 (Some 20)).
  vm_compute. reflexivity.
Defined.

Section SliceFacts.

Import Catalog Slicing.

Lemma select_elem {A : Type} (c : list bool) :
  forall (l sel : list A) (x : A),
    Np.select c l = Ok sel -> x ∈ sel ->
    exists i, c !! i = Some true /\ l !! i = Some x.
Proof.
  induction c as [|b c IH]; intros [|y l] sel x Hsel Hx;
    pose proof (select_lengths _ _ _ Hsel) as Hlen; simpl in Hlen; try lia.
  - unfold Np.select in Hsel. simpl in Hsel. injection Hsel as <-. inversion Hx.
  - assert (exists sel', Np.select c l = Ok sel') as [sel' Hsel'].
    { unfold Np.select. destruct (Nat.eqb_spec (length c) (length l)); [|lia].
      by eexists. }
    rewrite (select_cons b c y l sel' Hsel') in Hsel. injection Hsel as <-.
    destruct b.
    + apply elem_of_cons in Hx as [-> | Hx]; [by exists 0%nat|].
      destruct (IH l sel' x Hsel' Hx) as (i & Hc & Hl). by exists (S i).
    + destruct (IH l sel' x Hsel' Hx) as (i & Hc & Hl). by exists (S i).
Qed.

Lemma narrow_spec (c ok c' : list bool) :
  narrow c ok = Ok c' ->
  length c' = length c
  /\ (forall i, c' !! i = Some true -> c !! i = Some true)
  /\ (length ok = length c ->
      forall i, c' !! i = Some true -> ok !! i = Some true).
Proof.
  unfold narrow.
  destruct (Nat.eqb_spec (length c) (length ok)) as [Hlen | Hlen].
  - intros [= <-]. rewrite length_zip_with. split_and!; [lia | |].
    + intros i Hi. apply lookup_zip_with_Some in Hi as (x & y & Hxy & Hx & Hy).
      symmetry in Hxy. apply andb_true_iff in Hxy as [-> _]. done.
    + intros _ i Hi.
      apply lookup_zip_with_Some in Hi as (x & y & Hxy & Hx & Hy).
      symmetry in Hxy. apply andb_true_iff in Hxy as [_ ->]. done.
  - destruct ok as [|b [|b' ok]]; [done | | done].
    intros [= <-]. rewrite length_map.
    split_and!; [done | | intros E; simpl in E, Hlen; lia].
    intros i Hi. rewrite list_lookup_fmap in Hi.
    destruct (c !! i) as [x|]; [|done]. cbn in Hi. injection Hi as Hi.
    apply andb_true_iff in Hi as [-> _]. done.
Qed.

(** What the mask that the loop over [slc] leaves says about each item. *)
Lemma mask_spec (h : histories) (iz : nat) (slc : list (string * (Q * Q))) :
  forall c c',
    mask h iz slc c = Ok c' ->
    length c' = length c
    /\ (forall i, c' !! i = Some true -> c !! i = Some true)
    /\ forall key lo hi, (key, (lo, hi)) ∈ slc ->
         exists v col,
           h !! key = Some v /\ column v iz = Ok col
           /\ (length col = length c ->
               forall i x, c' !! i = Some true -> col !! i = Some x ->
                 lo <= x <= hi).
Proof.
  induction slc as [|[key [lo hi]] slc IH]; intros c c'; cbn [mask].
  - intros [= <-]. split_and!; [done | done |]. intros key lo hi Hin.
    inversion Hin.
  - unfold getitem. destruct (h !! key) as [v|] eqn:Hv; [|done].
    rewrite !bind_Ok.
    destruct (column v iz) as [col|x] eqn:Hcol; [|done]. rewrite !bind_Ok.
    destruct (narrow c _) as [c1|x] eqn:Hn; [|done]. rewrite bind_Ok.
    intros Hrest.
    destruct (narrow_spec _ _ _ Hn) as (Hl1 & Hsub1 & Hok).
    destruct (IH c1 c' Hrest) as (Hl & Hsub & Hitems).
    split_and!; [lia | by intros i Hi; apply Hsub1, Hsub |].
    intros key' lo' hi' Hin. apply elem_of_cons in Hin as [[= -> -> ->] | Hin].
    + exists v, col. split_and!; [done | done |].
      intros Hlen i x Hi Hx.
      assert (zip_with andb (map (fun x => Qle_bool lo x) col)
                (map (fun x => Qle_bool x hi) col) !! i = Some true) as Hb.
      { apply Hok; [|by apply Hsub].
        rewrite length_zip_with, !length_map. lia. }
      apply lookup_zip_with_Some in Hb as (a & b & Hab & Ha & Hb).
      rewrite list_lookup_fmap, Hx in Ha. injection Ha as <-.
      rewrite list_lookup_fmap, Hx in Hb. injection Hb as <-.
      symmetry in Hab. apply andb_true_iff in Hab as [H1 H2].
      by apply Qle_bool_iff in H1, H2.
    + destruct (Hitems key' lo' hi' Hin) as (v' & col' & Hv' & Hcol' & Hrange).
      exists v', col'. split_and!; [done | done |].
      intros Hlen. apply Hrange. lia.
Qed.

Lemma collect_spec (c : list bool) (iz : nat) :
  forall entries out,
    collect c iz entries = Returns out ->
    NoDup entries.*1 ->
    (forall key v, (key, v) ∈ entries ->
       exists col, snapshot c iz v = Returns col /\ out !! key = Some col)
    /\ (forall key, is_Some (out !! key) -> key ∈ entries.*1).
Proof.
  induction entries as [|[k v] entries IH]; intros out; cbn [collect].
  - intros [= <-] _. split; [intros key v Hin; inversion Hin|].
    intros key [x Hx]. by rewrite lookup_empty in Hx.
  - destruct (snapshot c iz v) as [col|e|] eqn:Hsnap; [|done|done].
    destruct (collect c iz entries) as [out'|e|] eqn:Hrest; [|done|done].
    intros [= <-] Hnd. cbn [fmap list_fmap fst] in Hnd.
    apply NoDup_cons in Hnd as [Hnotin Hnd].
    destruct (IH out' eq_refl Hnd) as [Hall Hkeys]. split.
    + intros key v' Hin. apply elem_of_cons in Hin as [[= -> ->] | Hin].
      * exists col. by rewrite lookup_insert_eq.
      * destruct (Hall key v' Hin) as (col' & Hs & Ho).
        exists col'. split; [done|]. rewrite lookup_insert_ne; [done|].
        intros ->. apply Hnotin. apply list_elem_of_fmap. by exists (key, v').
    + intros key Hkey. cbn [fmap list_fmap fst].
      destruct (decide (key = k)) as [-> | Hne]; [left|].
      right. rewrite lookup_insert_ne in Hkey by done. by apply Hkeys.
Qed.

Lemma select_count {A : Type} (c : list bool) :
  forall (l sel : list A),
    Np.select c l = Ok sel ->
    length sel = length (filter (fun b : bool => b = true) c).
Proof.
  induction c as [|b c IH]; intros [|y l] sel Hsel;
    pose proof (select_lengths _ _ _ Hsel) as Hlen; simpl in Hlen; try lia.
  - unfold Np.select in Hsel. simpl in Hsel. by injection Hsel as <-.
  - assert (exists sel', Np.select c l = Ok sel') as [sel' Hsel'].
    { unfold Np.select. destruct (Nat.eqb_spec (length c) (length l)); [|lia].
      by eexists. }
    rewrite (select_cons b c y l sel' Hsel') in Hsel. injection Hsel as <-.
    pose proof (IH l sel' Hsel') as Hcount.
    destruct b.
    + rewrite filter_cons_True by done. simpl. lia.
    + rewrite filter_cons_False by done. done.
Qed.

(** What one returned entry is. *)
Lemma snapshot_spec (c : list bool) (iz : nat) (v : value) (col : list Q) :
  snapshot c iz v = Returns col ->
  is_array v
  /\ length col = length (filter (fun b : bool => b = true) c)
  /\ forall full, column v iz = Ok full -> Np.select c full = Ok col.
Proof.
  destruct v as [a|a| |]; cbn [snapshot]; try done.
  - destruct (Np.select c a) as [col'|e] eqn:Hsel; [|done].
    intros [= <-]. split_and!; [done | by eapply select_count | done].
  - destruct (column (Arr2 a) iz) as [full|e]; [|done]. rewrite bind_Ok.
    destruct (Np.select c full) as [col'|e] eqn:Hsel; [|done].
    intros [= <-]. split_and!; [done | by eapply select_count |].
    by intros full' [= <-].
Qed.

(** X20. Whenever [Slice(z, slc)] returns, the histories hold arrays only
    (a float or [None] among them makes it raise), what is returned has the
    keys of the histories, every returned array has one entry per selected
    trajectory, and for every item [field: (lo, hi)] of [slc] every value
    returned under [field] lies between [lo] and [hi]. *)
Theorem Slice_returns_values_in_range (tab_z : list Q) (h : histories)
    (z : Q) (slc : list (string * (Q * Q))) (out : gmap string (list Q)) :
  Slice tab_z h z slc = Returns out ->
  (forall key v, h !! key = Some v -> is_array v)
  /\ (forall key, is_Some (out !! key) <-> is_Some (h !! key))
  /\ (exists n, forall key col, out !! key = Some col -> length col = n)
  /\ forall key lo hi, (key, (lo, hi)) ∈ slc ->
       exists col, out !! key = Some col
                   /\ forall x, x ∈ col -> lo <= x <= hi.
Proof.
  unfold Slice.
  destruct (Np.argmin _) as [iz|e]; [|done].
  destruct (h !! "Mh") as [vm|]; [|done].
  destruct (shape0 vm) as [n|]; [|done].
  destruct (mask h iz slc (replicate n true)) as [c|e] eqn:Hmask; [|done].
  intros Hcol.
  destruct (collect_spec c iz _ _ Hcol (NoDup_fst_map_to_list h))
    as [Hall Hkeys].
  assert (forall key v, h !! key = Some v ->
            exists col, snapshot c iz v = Returns col
                        /\ out !! key = Some col) as Hentry.
  { intros key v Hv. apply Hall. by apply elem_of_map_to_list. }
  destruct (mask_spec _ _ _ _ _ Hmask) as (Hlen & _ & Hitems).
  rewrite length_replicate in Hlen.
  split_and!.
  - intros key v Hv. destruct (Hentry key v Hv) as (col & Hs & _).
    by destruct (snapshot_spec _ _ _ _ Hs) as (? & _).
  - intros key. split.
    + intros Hkey. apply Hkeys in Hkey.
      apply list_elem_of_fmap in Hkey as ([k v] & -> & Hin).
      apply elem_of_map_to_list in Hin. by exists v.
    + intros [v Hv]. destruct (Hentry key v Hv) as (col & _ & Ho). by exists col.
  - exists (length (filter (fun b : bool => b = true) c)).
    intros key col Hout.
    assert (is_Some (h !! key)) as [v Hv].
    { assert (key ∈ (map_to_list h).*1) as Hkey by (apply Hkeys; by exists col).
      apply list_elem_of_fmap in Hkey as ([k v] & -> & Hin).
      apply elem_of_map_to_list in Hin. by exists v. }
    destruct (Hentry key v Hv) as (col' & Hs & Ho).
    rewrite Hout in Ho. injection Ho as <-.
    by destruct (snapshot_spec _ _ _ _ Hs) as (_ & ? & _).
  - intros key lo hi Hin.
    destruct (Hitems key lo hi Hin) as (v & full & Hv & Hfull & Hrange).
    destruct (Hentry key v Hv) as (col & Hs & Ho).
    exists col. split; [done|]. intros x Hx.
    destruct (snapshot_spec _ _ _ _ Hs) as (_ & _ & Hsel).
    specialize (Hsel full Hfull).
    pose proof (select_lengths _ _ _ Hsel) as Hl.
    destruct (select_elem _ _ _ _ Hsel Hx) as (i & Hc & Hi).
    apply (Hrange ltac:(rewrite length_replicate; lia) i x Hc Hi).
Qed.

End SliceFacts.

Lemma Slice_returns_values_in_range_witness :
  exists out,
    Slicing.Slice [7; 6] Slicing.toy_stored 6 [("Mh", (2, 20))]
    = Slicing.Returns out
    /\ (forall key v, Slicing.toy_stored !! key = Some v -> is_array v)
    /\ (forall key,
          is_Some (out !! key) <-> is_Some (Slicing.toy_stored !! key))
    /\ (exists n, forall key col, out !! key = Some col -> length col = n)
    /\ forall key lo hi, (key, (lo, hi)) ∈ [("Mh", (2, 20))] ->
         exists col, out !! key = Some col
                     /\ forall x, x ∈ col -> lo <= x <= hi.
Proof.
  eexists. split; [vm_compute; reflexivity|].
  apply (Slice_returns_values_in_range [7; 6] Slicing.toy_stored 6
           [("Mh", (2, 20))]).
  vm_compute. reflexivity.
Defined.

Section SingleGalaxyFacts.

Import Stochastic SingleGalaxy.

(** The call that reaches a step to evolve raises [NameError], unless the
    options or the draws stop [_gen_stars] first. *)
Example live_step_raises_NameError :
  gen_galaxy_history toy_world toy_halo 0 [StochasticInputs.toy_draw]
  = NameError.
Proof. vm_compute. reflexivity. Qed.

Lemma live_step_no_data (w : World) (t z Mh_s MAR : list Q) (zform : Q)
    (i : nat) (_Mh : Q) (draws : list Draw) (d : Table) :
  live_step w t z Mh_s MAR zform i _Mh draws <> Data d.
Proof.
  unfold live_step.
  destruct (Np.index t (S i)) as [t1|e]; [|done]. rewrite bind_Ok.
  destruct (Np.index t i) as [ti|e]; [|done]. rewrite bind_Ok.
  destruct (Np.index z i) as [zi|e]; [|done]. rewrite bind_Ok.
  destruct (if Qeq_bool zi zform then _ else _) as [arr_Mg_t|e]; [|done].
  rewrite bind_Ok.
  destruct (gas_slot w t z i) as [slot|e]; [|done]. rewrite !bind_Ok.
  destruct (Np.index arr_Mg_t i) as [mg_t|e]; [|done]. rewrite bind_Ok.
  destruct (set_at _ slot _) as [arr_Mg_c|e]; [|done]. rewrite bind_Ok.
  destruct (forced w _).
  - destruct (Np.index MAR i) as [mar_i|e]; [|done]. rewrite bind_Ok.
    by destruct (set_at _ (S i) 0) as [?|e].
  - destruct (Np.index MAR (S i)) as [mar_1|e]; [|done]. rewrite bind_Ok.
    destruct (Np.index MAR i) as [mar_i|e]; [|done]. rewrite bind_Ok.
    rewrite bind_Ok.
    destruct (Np.add_at _ slot _) as [arr_Mg_c'|e]; [|done]. rewrite bind_Ok.
    destruct (gen_stars _ _ i _Mh draws) as [s|e|s]; [|done|done].
    destruct (set_at arr_Mg_t (S i) _) as [?|e]; [|done]. rewrite bind_Ok.
    destruct (if pop_multiphase w then _ else _) as [?|e]; [|done].
    rewrite bind_Ok.
    by destruct (set_at _ i 1) as [?|e].
Qed.

Lemma select_all {A : Type} (keep : list bool) (l sel : list A) :
  Np.select keep l = Ok sel -> (forall b, b ∈ keep -> b = true) -> sel = l.
Proof.
  unfold Np.select. destruct (Nat.eqb_spec (length keep) (length l)) as [Hlen|];
    [|done].
  intros [= <-] Hall. revert l Hlen.
  induction keep as [|b keep IH]; intros [|x l] Hlen; simpl in Hlen; try done.
  cbn [zip zip_with]. rewrite (Hall b) by left.
  rewrite filter_cons_True by done. cbn [map snd]. f_equal.
  apply IH; [|lia]. intros b' Hb'. apply Hall. by right.
Qed.

Lemma first_massive_none (Mh_s : list Q) (zs sel : list Q) :
  forall i0, first_massive i0 Mh_s = None ->
  Np.select (map (fun m => Np.Qltb 0 m) Mh_s) zs = Ok sel -> sel = [].
Proof.
  unfold Np.select. rewrite length_map.
  destruct (length Mh_s =? length zs)%nat; [|done].
  intros i0 Hnone [= <-]. revert zs i0 Hnone.
  induction Mh_s as [|m Mh_s IH]; intros zs i0 Hnone; [done|].
  cbn [first_massive] in Hnone.
  destruct (Qeq_bool m 0) eqn:Hm; [|done]. apply Qeq_bool_iff in Hm.
  destruct zs as [|x zs]; [done|]. cbn [map zip zip_with].
  assert (Np.Qltb 0 m = false) as -> by (apply Qltb_ge; lra).
  rewrite filter_cons_False by done. by apply (IH zs (S i0)).
Qed.

(** X21. [_gen_galaxy_history] returns only when there is no step to evolve:
    the first snapshot in time at which the halo holds mass lies below
    [zobs] or is the last one. What it returns then holds zeros: no star
    formation, no stellar or gas mass, no bursts. A call that reaches a
    step to evolve never returns: it ends in an exception ([NameError]
    once [_gen_stars] has returned, lines 1061 and 1112). *)
Theorem single_galaxy_returns_nothing_evolved (w : World) (halo : Halo)
    (zobs : Q) (draws : list Draw) (d : Table) :
  gen_galaxy_history w halo zobs draws = Data d ->
  (exists i m zi,
     first_massive 0 (rev (halo_Mh halo)) = Some (i, m)
     /\ rev (halo_z halo) !! i = Some zi
     /\ (zi < zobs \/ S i = length (halo_t halo)))
  /\ all_zero (SFR d) /\ all_zero (Ms d) /\ all_zero (Mg d)
  /\ all_zero (Mg_c d) /\ all_zero (bursty d) /\ all_zero (Nsn d)
  /\ Mh d = rev (halo_Mh halo) /\ z d = rev (halo_z halo)
  /\ t d = rev (halo_t halo).
Proof.
  unfold gen_galaxy_history.
  set (zs := rev (halo_z halo)). set (ts := rev (halo_t halo)).
  set (Mh_s := rev (halo_Mh halo)).
  destruct (forallb _ (Np.diff ts)); [|done].
  change (assert true) with (Ok tt). rewrite bind_Ok.
  destruct (Np.select (map _ Mh_s) zs) as [massive|e] eqn:Hsel; [|done]. rewrite bind_Ok.
  destruct (py_max massive) as [zform|e] eqn:Hmax; [|done]. rewrite bind_Ok.
  match goal with
  | |- context [mapM_result ?f (seq 0 (length ts)) ≫= _] =>
      destruct (mapM_result f (seq 0 (length ts))) as [MAR_s|e]; [|done]
  end.
  rewrite bind_Ok.
  match goal with
  | |- context [mapM_result ?f (seq 0 (length ts)) ≫= _] =>
      destruct (mapM_result f (seq 0 (length ts))) as [SFE_s|e]; [|done]
  end.
  rewrite bind_Ok.
  set (data := _ ≫= _).
  assert (forall d0, match data with Ok o => o | Raise e => Error e end = Data d0 ->
            all_zero (SFR d0) /\ all_zero (Ms d0) /\ all_zero (Mg d0)
            /\ all_zero (Mg_c d0) /\ all_zero (bursty d0) /\ all_zero (Nsn d0)
            /\ Mh d0 = Mh_s /\ z d0 = zs /\ t d0 = ts) as Hdata.
  { intros d0. unfold data.
    assert (forall b, b ∈ map (fun _ : Q => true) zs -> b = true) as Hkeep.
    { intros b Hb. by apply list_elem_of_fmap in Hb as (? & -> & _). }
    assert (forall l : list Q, all_zero (map (fun _ => 0) l)) as Hz.
    { intros l x Hx. by apply list_elem_of_fmap in Hx as (? & -> & _). }
    repeat match goal with
    | |- context [Np.select ?k ?l ≫= _] =>
        let sel := fresh "sel" in let H := fresh "H" in
        destruct (Np.select k l) as [sel|?] eqn:H; [|done];
        rewrite bind_Ok; apply select_all in H; [subst sel | exact Hkeep]
    end.
    intros [= <-]. cbn. split_and!; try done; apply Hz. }
  destruct (first_massive 0 Mh_s) as [[i m]|] eqn:Hfirst.
  - destruct (Np.index zs i) as [zi|e] eqn:Hzi; [|done]. rewrite bind_Ok.
    unfold Np.index in Hzi. destruct (zs !! i) as [zi'|] eqn:Hlook; [|done].
    injection Hzi as ->.
    destruct (Np.Qltb zi zobs) eqn:Hlow.
    + intros Hd. split; [|by apply Hdata].
      exists i, m, zi. split_and!; [done | done |]. left. by apply Qltb_lt.
    + destruct (Z.eqb_spec (Z.of_nat i) (Z.of_nat (length ts) - 1)) as [E|E].
      * intros Hd. split; [|by apply Hdata].
        exists i, m, zi. split_and!; [done | done |]. right.
        unfold ts in E. rewrite length_rev in E. lia.
      * intros Hd. exfalso. by eapply live_step_no_data.
  - apply (first_massive_none _ _ _ 0 Hfirst) in Hsel. by subst massive.
Qed.

End SingleGalaxyFacts.

Lemma single_galaxy_returns_nothing_evolved_witness :
  exists d,
    SingleGalaxy.gen_galaxy_history SingleGalaxy.toy_world
      SingleGalaxy.late_halo 0 [] = SingleGalaxy.Data d
    /\ all_zero (SingleGalaxy.SFR d) /\ all_zero (SingleGalaxy.Ms d)
    /\ SingleGalaxy.Mh d = [0; 0; 1000].
Proof.
  eexists. split; [vm_compute; reflexivity|].
  destruct (single_galaxy_returns_nothing_evolved SingleGalaxy.toy_world
              SingleGalaxy.late_halo 0 [] _ eq_refl)
    as (_ & Hsfr & Hms & _ & _ & _ & _ & Hmh & _).
  split_and!; [exact Hsfr | exact Hms | exact Hmh].
Defined.

Section LogNormalNoise.

Import LogNormal.

Local Open Scope R_scope.

(** Adding [n] to the decimal logarithm multiplies by [10 ** n]. *)
Lemma Rpower_log10 (a n : R) :
  0 < a -> Rpower 10 (log10 a + n) = a * Rpower 10 n.
Proof.
  intros Ha. unfold Rpower, log10.
  replace ((ln a / ln 10 + n) * ln 10) with (ln a + n * ln 10).
  - by rewrite exp_plus, exp_ln.
  - pose proof LogNormalFacts.ln10_pos. field. lra.
Qed.

(** X22. The noise [noise_lognormal] returns for a positive entry [a] and a
    draw [n] turns [a] into [a * 10 ** n] when it is added: the scattered
    value stays positive, the noise is zero for a draw of zero, and it has
    the sign of the draw otherwise. *)
Theorem lognormal_noise_has_sign_of_draw (arr lognoise : list R) (i : nat)
    (a n : R) :
  arr !! i = Some a ->
  lognoise !! i = Some n ->
  0 < a ->
  exists x,
    noise_lognormal arr lognoise !! i = Some x
    /\ a + x = a * Rpower 10 n
    /\ 0 < a + x
    /\ (n = 0 -> x = 0)
    /\ (0 < n -> 0 < x)
    /\ (n < 0 -> x < 0).
Proof.
  intros Ha Hn Hpos. unfold noise_lognormal.
  rewrite !lookup_zip_with, Ha, Hn. cbn [mbind option_bind].
  eexists. split; [reflexivity|]. rewrite Rpower_log10 by done.
  pose proof LogNormalFacts.ln10_pos as H10.
  assert (0 < Rpower 10 n) as Hp by apply exp_pos.
  assert (0 < n -> 1 < Rpower 10 n) as Hup.
  { intros H. unfold Rpower. rewrite <- exp_0. apply exp_increasing. nra. }
  assert (n < 0 -> Rpower 10 n < 1) as Hdown.
  { intros H. unfold Rpower. rewrite <- exp_0. apply exp_increasing. nra. }
  split_and!.
  - lra.
  - nra.
  - intros ->. unfold Rpower. rewrite Rmult_0_l, exp_0. lra.
  - intros H. specialize (Hup H). nra.
  - intros H. specialize (Hdown H). nra.
Qed.

Lemma lognormal_noise_has_sign_of_draw_witness :
  exists x,
    noise_lognormal [2; 3] [0; 1] !! 1%nat = Some x
    /\ 3 + x = 3 * Rpower 10 1
    /\ 0 < 3 + x
    /\ (1 = 0 -> x = 0)
    /\ (0 < 1 -> 0 < x)
    /\ (1 < 0 -> x < 0).
Proof.
  apply (lognormal_noise_has_sign_of_draw [2; 3] [0; 1] 1 3 1);
    [reflexivity | reflexivity | lra].
Defined.

End LogNormalNoise.
